(** * Column and Map-type operations of the vectorized engine

    A shallow embedding of
      - be/src/vec/columns/column_json.cpp      (module [ColumnJson])
      - be/src/vec/data_types/data_type_map.cpp (module [DataTypeMap])
    together with the properties stated about them.

    Conventions of the embedding.
      - [size_t] values are integers in [Z]; arithmetic on them wraps at
        2^64 ([to_size_t]).  Values stored in an [Offsets] array wrap at
        2^Offset_bits ([to_Offset]); the width of [Offset] is declared in
        a header that is not part of the sources and is a section
        variable.
      - [Offset] is an unsigned type at least as wide as [int], so that
        the difference of two offsets wraps at the width of [Offset].
      - A [PaddedPODArray] is a list.  Index -1 reads the zeroed left
        padding (the source relies on it: "-1th index is Ok, see
        PaddedPODArray").  Reads at other indices outside the array are
        undefined in C++; the embedding returns zero there and the
        theorems carry the hypotheses that keep every access in range.
      - The copy routines that may touch up to 15 bytes behind the range
        they are given copy exactly the range here: the extra bytes are
        overwritten by the next copy or lie in the padding of the
        array.
      - [LOG(FATAL)] terminates the process: operations that can reach it
        return an [outcome]. *)

From Stdlib Require Import Ascii String ZArith List Lia Bool Sorted Permutation.
From coqutil Require Import Byte Word.LittleEndianList.
Import ListNotations.

Local Open Scope Z_scope.

(** ** Shared vocabulary *)

Inductive outcome (A : Type) : Type :=
| Returned (a : A)
| Fatal (msg : string).
Arguments Returned {A} a.
Arguments Fatal {A} msg.

Definition len {A : Type} (l : list A) : Z := Z.of_nat (length l).

Definition to_size_t (x : Z) : Z := x mod 2 ^ 64.

(** [a[i]] on a PaddedPODArray of integers. *)
Definition at_ (a : list Z) (i : Z) : Z :=
  if i <? 0 then 0 else nth (Z.to_nat i) a 0.

(** [a.back()], i.e. [a[a.size() - 1]]. *)
Definition back (a : list Z) : Z := at_ a (len a - 1).

(** [a[i] = v] for [i] inside the array. *)
Fixpoint set_nth {A : Type} (l : list A) (i : nat) (v : A) : list A :=
  match l, i with
  | [], _ => []
  | _ :: t, O => v :: t
  | h :: t, S i' => h :: set_nth t i' v
  end.

Definition set_at {A : Type} (l : list A) (i : Z) (v : A) : list A :=
  if i <? 0 then l else set_nth l (Z.to_nat i) v.

(** [a.resize(n)]: keep the first [n] elements, pad with [d] (new elements
    of a PaddedPODArray are not initialised; [resize_fill] writes zeros,
    and every caller of [resize] below overwrites the new elements). *)
Definition pod_resize {A : Type} (d : A) (l : list A) (n : Z) : list A :=
  firstn (Z.to_nat n) l ++ repeat d (Z.to_nat n - length l).

(** [a.assign(b.begin(), b.begin() + n)]. *)
Definition pod_assign {A : Type} (b : list A) (n : Z) : list A :=
  firstn (Z.to_nat n) b.

(** The [n] bytes at [&mem[off]]. *)
Definition bytes_at (mem : list byte) (off n : Z) : list byte :=
  firstn (Z.to_nat n)
         (skipn (Z.to_nat off) mem ++ repeat Byte.x00 (Z.to_nat n)).

(** [memcpy(&dst[pos], data, data.size())] for a destination range that
    lies inside [dst]; bytes that would fall behind [dst.size()] are not
    part of the array and are dropped. *)
Definition memcpy (dst : list byte) (pos : Z) (data : list byte)
  : list byte :=
  firstn (length dst)
         (firstn (Z.to_nat pos) dst ++ data
            ++ skipn (Z.to_nat pos + length data) dst).

Module ColumnJson.

Record t : Type := mk { offsets : list Z; chars : list byte }.

Definition create : t := mk [] [].

Section Column.

(** Width in bits of [IColumn::Offset]. *)
Variable Offset_bits : Z.

Definition to_Offset (x : Z) : Z := x mod 2 ^ Offset_bits.

(** Modelled from the spec: [size], [offset_at] and [size_at] are declared
    in column_json.h, which is not part of the sources.  The spec: N is
    the length of [offsets]; row i's byte range is
    [[offsets[i-1], offsets[i])], with [offsets[-1]] conceptually 0.
    [permute] and [index_impl] inline the same two expressions. *)
Definition size (c : t) : Z := len (offsets c).

Definition offset_at (c : t) (i : Z) : Z := at_ (offsets c) (i - 1).

Definition size_at (c : t) (i : Z) : Z :=
  to_size_t (at_ (offsets c) i - at_ (offsets c) (i - 1)).

(** The payload of row [i] as a reader sees it. *)
Definition row (c : t) (i : Z) : list byte :=
  bytes_at (chars c) (offset_at c i) (size_at c i).

Definition rows (c : t) : list (list byte) :=
  map (fun i => row c (Z.of_nat i)) (seq 0 (length (offsets c))).

(** *** clone_resized *)

(** The loop [for (i = from_size; i < to_size; ++i) { ++offset;
    res->offsets[i] = offset; }], [n] iterations left. *)
Fixpoint clone_resized_fill (n : nat) (i offset : Z) (res_offsets : list Z)
  : list Z :=
  match n with
  | O => res_offsets
  | S n' =>
      let offset := to_Offset (offset + 1) in
      clone_resized_fill n' (i + 1) offset (set_at res_offsets i offset)
  end.

Definition clone_resized (c : t) (to_size : Z) : t :=
  let res := create in
  if to_size =? 0 then res
  else
    let from_size := size c in
    if to_size <=? from_size then
      mk (pod_assign (offsets c) to_size)
         (pod_assign (chars c) (at_ (offsets c) (to_size - 1)))
    else
      let res :=
        if 0 <? from_size then mk (offsets c) (chars c) else res in
      let offset := if 0 <? from_size then back (offsets c) else 0 in
      let res_chars :=
        pod_resize Byte.x00 (chars res)
               (to_size_t (len (chars res) + to_size - from_size)) in
      let res_offsets := pod_resize 0 (offsets res) to_size in
      mk (clone_resized_fill (Z.to_nat (to_size - from_size)) from_size
                             offset res_offsets)
         res_chars.

(** *** insert_range_from *)

Definition insert_range_from (dst src : t) (start length : Z) : outcome t :=
  if length =? 0 then Returned dst
  else if size src <? to_size_t (start + length) then
    Fatal "Parameter out of bound in IColumnJson::insert_range_from method."
  else
    let nested_offset := offset_at src start in
    let nested_length :=
      to_size_t (at_ (offsets src) (to_size_t (start + length - 1))
                 - nested_offset) in
    let old_chars_size := len (chars dst) in
    let chars' :=
      memcpy (pod_resize Byte.x00 (chars dst)
                     (to_size_t (old_chars_size + nested_length)))
             old_chars_size
             (bytes_at (chars src) nested_offset nested_length) in
    if (start =? 0) && (len (offsets dst) =? 0) then
      Returned (mk (pod_assign (offsets src) length) chars')
    else
      let old_size := len (offsets dst) in
      let prev_max_offset := back (offsets dst) in
      let offsets' := pod_resize 0 (offsets dst) (to_size_t (old_size + length)) in
      let offsets' :=
        fold_left
          (fun offs i =>
             set_at offs (to_size_t (old_size + Z.of_nat i))
                    (to_Offset
                       (to_size_t
                          (at_ (offsets src) (to_size_t (start + Z.of_nat i))
                           - nested_offset + prev_max_offset))))
          (seq 0 (Z.to_nat length)) offsets' in
      Returned (mk offsets' chars').

(** *** serialize_value_into_arena / deserialize_and_insert_from_arena *)

(** A non-owning view: start address and length. *)
Record StringRef : Type := mkStringRef { data : Z; ref_size : Z }.

(** [sizeof(size_t)]. *)
Definition sizeof_size_t : Z := 8.

(** The object representation of a [size_t] on the little-endian targets
    the engine is built for, and [unaligned_load<size_t>]. *)
Definition size_t_bytes (x : Z) : list byte := le_split 8 x.

Definition unaligned_load_size_t (mem : list byte) (pos : Z) : Z :=
  le_combine (bytes_at mem pos sizeof_size_t).

(** The arena is the contiguous region that starts at [begin]; its bytes
    are addressed from 0.  [alloc_continue(size, begin)] extends the region
    by [size] bytes and returns the address of the new bytes. *)
Definition alloc_continue (arena : list byte) (n : Z) : list byte * Z :=
  (pod_resize Byte.x00 arena (len arena + n), len arena).

Definition serialize_value_into_arena (c : t) (n : Z) (arena : list byte)
  : StringRef * list byte :=
  let string_size := size_at c n in
  let offset := offset_at c n in
  let res_size := to_size_t (sizeof_size_t + string_size) in
  let '(arena, pos) := alloc_continue arena res_size in
  let arena := memcpy arena pos (size_t_bytes string_size) in
  let arena :=
    memcpy arena (pos + sizeof_size_t)
           (bytes_at (chars c) offset string_size) in
  (mkStringRef pos res_size, arena).

Definition deserialize_and_insert_from_arena (c : t) (mem : list byte)
  (pos : Z) : Z * t :=
  let string_size := unaligned_load_size_t mem pos in
  let pos := pos + sizeof_size_t in
  let old_size := len (chars c) in
  let new_size := to_size_t (old_size + string_size) in
  let chars' :=
    memcpy (pod_resize Byte.x00 (chars c) new_size) old_size
           (bytes_at mem pos string_size) in
  (pos + string_size, mk (offsets c ++ [to_Offset new_size]) chars').

(** *** resize *)

(** Modelled from the spec: [insert_many_defaults] is declared in
    column_json.h, which is not part of the sources.  The spec: resize
    "to a larger count appends default (empty) rows".  The payload of a
    default row is the section variable [default_row]: it is empty in the
    spec's words and the single zero byte of [clone_resized] under the
    zero-terminator convention. *)
Variable default_row : list byte.

Fixpoint insert_many_defaults_loop (n : nat) (c : t) : t :=
  match n with
  | O => c
  | S n' =>
      insert_many_defaults_loop n'
        (mk (offsets c ++ [to_Offset (back (offsets c) + len default_row)])
            (chars c ++ default_row))
  end.

Definition insert_many_defaults (c : t) (length : Z) : t :=
  insert_many_defaults_loop (Z.to_nat length) c.

Definition resize (c : t) (n : Z) : t :=
  let origin_size := size c in
  if n <? origin_size then mk (pod_resize 0 (offsets c) n) (chars c)
  else if origin_size <? n then
    insert_many_defaults c (to_size_t (n - origin_size))
  else c.

(** *** permute *)

(** State of the copy loops: the offset reached and the two arrays of the
    result. *)
Record copy_state : Type :=
  mkCopy { current_new_offset : Z; res_offsets : list Z;
           res_chars : list byte }.

(** One iteration of [for (i = 0; i < limit; ++i)] in [permute].  For
    [j = 0] the index [j - 1] is the element before the array. *)
Definition permute_step (c : t) (perm : list Z) (st : copy_state) (i : nat)
  : copy_state :=
  let j := at_ perm (Z.of_nat i) in
  let string_offset := at_ (offsets c) (j - 1) in
  let string_size := to_size_t (at_ (offsets c) j - string_offset) in
  let chars' :=
    memcpy (res_chars st) (current_new_offset st)
           (bytes_at (chars c) string_offset string_size) in
  let offset' := to_Offset (current_new_offset st + string_size) in
  mkCopy offset' (set_at (res_offsets st) (Z.of_nat i) offset') chars'.

Definition permute (c : t) (perm : list Z) (limit : Z) : outcome t :=
  let size := len (offsets c) in
  let limit := if limit =? 0 then size else Z.min size limit in
  if len perm <? limit then
    Fatal "Size of permutation is less than required."
  else if limit =? 0 then Returned create
  else
    let new_chars_size :=
      if limit =? size then len (chars c)
      else
        fold_left (fun acc i => to_size_t (acc + size_at c (at_ perm (Z.of_nat i))))
                  (seq 0 (Z.to_nat limit)) 0 in
    let st :=
      fold_left (permute_step c perm) (seq 0 (Z.to_nat limit))
                (mkCopy 0 (pod_resize 0 [] limit)
                        (pod_resize Byte.x00 [] new_chars_size)) in
    Returned (mk (res_offsets st) (res_chars st)).

(** *** replicate (the overload that returns a new column) *)

(** The inner loop [for (j = 0; j < size_to_replicate; ++j)]. *)
Fixpoint replicate_row (n : nat) (c : t) (prev_string_offset string_size : Z)
  (st : copy_state) : copy_state :=
  match n with
  | O => st
  | S n' =>
      let offset' := to_Offset (current_new_offset st + string_size) in
      let chars' :=
        pod_resize Byte.x00 (res_chars st)
                   (to_size_t (len (res_chars st) + string_size)) in
      let chars' :=
        memcpy chars' (to_size_t (len chars' - string_size))
               (bytes_at (chars c) prev_string_offset string_size) in
      replicate_row n' c prev_string_offset string_size
                    (mkCopy offset' (res_offsets st ++ [offset']) chars')
  end.

(** The outer loop; [prev_replicate_offset] and [prev_string_offset] are
    threaded next to the result. *)
Fixpoint replicate_loop (n : nat) (c : t) (replicate_offsets : list Z)
  (i prev_replicate_offset prev_string_offset : Z) (st : copy_state)
  : copy_state :=
  match n with
  | O => st
  | S n' =>
      let size_to_replicate :=
        to_Offset (at_ replicate_offsets i - prev_replicate_offset) in
      let string_size := to_Offset (at_ (offsets c) i - prev_string_offset) in
      let st :=
        replicate_row (Z.to_nat size_to_replicate) c prev_string_offset
                      string_size st in
      replicate_loop n' c replicate_offsets (i + 1)
                     (at_ replicate_offsets i) (at_ (offsets c) i) st
  end.

Definition replicate (c : t) (replicate_offsets : list Z) : outcome t :=
  let col_size := size c in
  if negb (col_size =? len replicate_offsets) then
    Fatal "Size of offsets doesn't match size of column."
  else if col_size =? 0 then Returned create
  else
    let st :=
      replicate_loop (Z.to_nat col_size) c replicate_offsets 0 0 0
                     (mkCopy 0 [] []) in
    Returned (mk (res_offsets st) (res_chars st)).

(** *** less / get_permutation *)

(** Unsigned comparison of two byte strings: the first differing byte
    decides, a proper prefix is smaller. *)
Fixpoint compare_bytes (a b : list byte) : comparison :=
  match a, b with
  | [], [] => Eq
  | [], _ :: _ => Lt
  | _ :: _, [] => Gt
  | x :: a', y :: b' =>
      match byte.unsigned x ?= byte.unsigned y with
      | Eq => compare_bytes a' b'
      | o => o
      end
  end.

Definition int_of_comparison (o : comparison) : Z :=
  match o with Lt => -1 | Eq => 0 | Gt => 1 end.

(** Modelled from the spec: [memcmp_small_allow_overflow15] is declared in
    vec/common/memcmp_small.h, which is not part of the sources.  The spec:
    "unsigned byte-lexicographic comparison"; the bytes of the common
    length are compared first and, when they agree, the two sizes. *)
Definition memcmp_small_allow_overflow15 (mem : list byte)
  (a a_size b b_size : Z) : Z :=
  let m := Z.min a_size b_size in
  match compare_bytes (bytes_at mem a m) (bytes_at mem b m) with
  | Eq => int_of_comparison (a_size ?= b_size)
  | o => int_of_comparison o
  end.

(** [less<positive>::operator()]. *)
Definition less (positive : bool) (parent : t) (lhs rhs : Z) : bool :=
  let res :=
    memcmp_small_allow_overflow15 (chars parent)
      (offset_at parent lhs) (to_size_t (size_at parent lhs - 1))
      (offset_at parent rhs) (to_size_t (size_at parent rhs - 1)) in
  if positive then res <? 0 else 0 <? res.

(** [std::sort(first, last, comp)] and
    [std::partial_sort(first, first + middle, last, comp)] of the C++
    standard library, as functions from the range to the rearranged
    range. *)
Variable std_sort : (Z -> Z -> bool) -> list Z -> list Z.
Variable std_partial_sort : (Z -> Z -> bool) -> Z -> list Z -> list Z.

Definition get_permutation (c : t) (reverse : bool) (limit : Z) : list Z :=
  let s := len (offsets c) in
  let res := map Z.of_nat (seq 0 (Z.to_nat s)) in
  let limit := if s <=? limit then 0 else limit in
  if negb (limit =? 0) then
    if reverse then std_partial_sort (less false c) limit res
    else std_partial_sort (less true c) limit res
  else
    if reverse then std_sort (less false c) res
    else std_sort (less true c) res.

End Column.

(** *** The representation invariants *)

(** The invariants of the data model, in the spec's order: [offsets] is
    non-decreasing; [chars.size() == offsets.back()] whenever N > 0;
    [chars] is empty iff N == 0; every row's range lies within
    [[0, chars.size())]. *)
Record spec_invariants (c : t) : Prop :=
  mk_spec_invariants {
    spec_non_decreasing :
      forall i j, 0 <= i -> i <= j -> j < size c ->
                  at_ (offsets c) i <= at_ (offsets c) j;
    spec_chars_size : 0 < size c -> len (chars c) = back (offsets c);
    spec_chars_empty_iff : chars c = [] <-> size c = 0;
    spec_rows_in_range :
      forall i, 0 <= i < size c ->
                0 <= at_ (offsets c) (i - 1) <= at_ (offsets c) i
                /\ at_ (offsets c) i <= len (chars c) }.

(** The same with the third invariant in one direction only: an empty
    column has no bytes. *)
Record invariants (c : t) : Prop :=
  mk_invariants {
    non_decreasing :
      forall i j, 0 <= i -> i <= j -> j < size c ->
                  at_ (offsets c) i <= at_ (offsets c) j;
    chars_size : 0 < size c -> len (chars c) = back (offsets c);
    chars_empty : size c = 0 -> chars c = [];
    rows_in_range :
      forall i, 0 <= i < size c ->
                0 <= at_ (offsets c) (i - 1) <= at_ (offsets c) i
                /\ at_ (offsets c) i <= len (chars c) }.

(** A decision procedure for [invariants]. *)
Fixpoint non_decreasing_from (prev : Z) (offs : list Z) : bool :=
  match offs with
  | [] => true
  | o :: rest => (prev <=? o) && non_decreasing_from o rest
  end.

Definition check_invariants (c : t) : bool :=
  non_decreasing_from 0 (offsets c) && (len (chars c) =? back (offsets c)).

(** The column that stores the given payloads, one row each. *)
Fixpoint prefix_sums (acc : Z) (rs : list (list byte)) : list Z :=
  match rs with
  | [] => []
  | r :: rest => (acc + len r) :: prefix_sums (acc + len r) rest
  end.

Definition of_rows (rs : list (list byte)) : t :=
  mk (prefix_sums 0 rs) (concat rs).

(** The payloads between consecutive offsets, from [prev] on. *)
Fixpoint cut (prev : Z) (offs : list Z) (cs : list byte)
  : list (list byte) :=
  match offs with
  | [] => []
  | o :: rest =>
      firstn (Z.to_nat (o - prev)) cs
        :: cut o rest (skipn (Z.to_nat (o - prev)) cs)
  end.

(** *** Vocabulary of the statements *)

(** The state of a copy loop that has produced the rows [out]. *)
Definition copy_of (out : list (list byte)) : copy_state :=
  mkCopy (len (concat out)) (prefix_sums 0 out) (concat out).

(** Row [j] repeated as often as the cumulative counts [ro] say. *)
Definition replicated (rs : list (list byte)) (ro : list Z) (j : nat)
  : list (list byte) :=
  repeat (nth j rs [])
         (Z.to_nat (at_ ro (Z.of_nat j) - at_ ro (Z.of_nat j - 1))).

(** The row that entry [i] of [perm] selects. *)
Definition picked (rs : list (list byte)) (perm : list Z) (i : nat)
  : list byte :=
  nth (Z.to_nat (at_ perm (Z.of_nat i))) rs [].

(** The bytes selected by a list of row indices. *)
Definition weight (rs : list (list byte)) (l : list Z) : Z :=
  len (concat (map (fun j => nth (Z.to_nat j) rs []) l)).

(** The limit [permute] works with. *)
Definition effective_limit (size limit : Z) : Z :=
  if limit =? 0 then size else Z.min size limit.

(** The payload of a row without its last byte: what [less] compares. *)
Definition row_key (c : t) (r : Z) : list byte := removelast (row c r).

(** [comp] is a strict weak ordering on the elements of [l]. *)
Definition strict_weak_order_on (comp : Z -> Z -> bool) (l : list Z) : Prop :=
  (forall a, In a l -> comp a a = false)
  /\ (forall a b c, In a l -> In b l -> In c l ->
                    comp a b = true -> comp b c = true -> comp a c = true)
  /\ (forall a b c, In a l -> In b l -> In c l ->
                    comp a b = false -> comp b a = false ->
                    comp b c = false -> comp c b = false ->
                    comp a c = false).

(** The result is a rearrangement of the range in which no element is
    ordered before an element that precedes it. *)
Definition std_sort_contract
  (sort : (Z -> Z -> bool) -> list Z -> list Z) : Prop :=
  forall comp l,
    strict_weak_order_on comp l ->
    Permutation (sort comp l) l
    /\ forall i j, (i < j < length l)%nat ->
                   comp (nth j (sort comp l) 0) (nth i (sort comp l) 0) = false.

(** The same for the positions before [middle] only, each compared with
    every later position. *)
Definition std_partial_sort_contract
  (partial_sort : (Z -> Z -> bool) -> Z -> list Z -> list Z) : Prop :=
  forall comp middle l,
    strict_weak_order_on comp l -> 0 <= middle <= len l ->
    Permutation (partial_sort comp middle l) l
    /\ forall i j, (i < j < length l)%nat -> Z.of_nat i < middle ->
                   comp (nth j (partial_sort comp middle l) 0)
                        (nth i (partial_sort comp middle l) 0) = false.

(** Insertion sort stands for the library routines in the examples. *)
Fixpoint insert_sorted (comp : Z -> Z -> bool) (x : Z) (l : list Z)
  : list Z :=
  match l with
  | [] => [x]
  | y :: rest =>
      if comp x y then x :: y :: rest else y :: insert_sorted comp x rest
  end.

Definition insertion_sort (comp : Z -> Z -> bool) (l : list Z) : list Z :=
  fold_left (fun sorted x => insert_sorted comp x sorted) l [].

(** [a] may stand before [b] in a range sorted by [comp]. *)
Definition may_precede (comp : Z -> Z -> bool) (a b : Z) : Prop :=
  comp b a = false.

(** *** index_impl, replicate into a given column, get_extremes and the
    collation variants *)

Section MoreOperations.

Variable Offset_bits : Z.

(** [index_impl(indexes, limit)].  The body of its copy loop is that of
    [permute], with [indexes] in the place of [perm]. *)
Definition index_impl (c : t) (indexes : list Z) (limit : Z) : t :=
  if limit =? 0 then create
  else
    let new_chars_size :=
      fold_left
        (fun acc i => to_size_t (acc + size_at c (at_ indexes (Z.of_nat i))))
        (seq 0 (Z.to_nat limit)) 0 in
    let st :=
      fold_left (permute_step Offset_bits c indexes) (seq 0 (Z.to_nat limit))
                (mkCopy 0 (pod_resize 0 [] limit)
                        (pod_resize Byte.x00 [] new_chars_size)) in
    mk (res_offsets st) (res_chars st).

(** The outer loop of [replicate(counts, target_size, column)]; the inner
    loop is that of the other overload. *)
Fixpoint replicate_counts_loop (n : nat) (c : t) (counts : list Z)
  (i prev_string_offset : Z) (st : copy_state) : copy_state :=
  match n with
  | O => st
  | S n' =>
      let size_to_replicate := at_ counts i in
      let string_size :=
        to_Offset Offset_bits (at_ (offsets c) i - prev_string_offset) in
      let st :=
        replicate_row Offset_bits (Z.to_nat size_to_replicate) c
                      prev_string_offset string_size st in
      replicate_counts_loop n' c counts (i + 1) (at_ (offsets c) i) st
  end.

(** [replicate(counts, target_size, column)]: the column [column] after
    the call.  [target_size] only sizes the reservations. *)
Definition replicate_counts (c : t) (counts : list Z) (target_size : Z)
  (column : t) : t :=
  let col_size := size c in
  if col_size =? 0 then column
  else
    let st :=
      replicate_counts_loop (Z.to_nat col_size) c counts 0 0
                            (mkCopy 0 (offsets column) (chars column)) in
    mk (res_offsets st) (res_chars st).

(** The loop [for (i = 1; i < col_size; ++i)] of [get_extremes]. *)
Fixpoint get_extremes_loop (n : nat) (c : t) (i min_idx max_idx : Z)
  : Z * Z :=
  match n with
  | O => (min_idx, max_idx)
  | S n' =>
      if less true c i min_idx then get_extremes_loop n' c (i + 1) i max_idx
      else if less true c max_idx i then
        get_extremes_loop n' c (i + 1) min_idx i
      else get_extremes_loop n' c (i + 1) min_idx max_idx
  end.

Section Extremes.

(** [Field], the empty string field [String()] and [ColumnJson::get],
    which is declared in column_json.h. *)
Variable Field : Type.
Variable String_ : Field.
Variable get : t -> Z -> Field.

(** [get_extremes(min, max)]: the two fields after the call. *)
Definition get_extremes (c : t) : Field * Field :=
  let col_size := size c in
  if col_size =? 0 then (String_, String_)
  else
    let '(min_idx, max_idx) :=
      get_extremes_loop (Z.to_nat (col_size - 1)) c 1 0 0 in
    (get c min_idx, get c max_idx).

End Extremes.

Section Collation.

(** [Collator::compare(a, a_size, b, b_size)] on the two byte ranges. *)
Variable collator_compare : list byte -> list byte -> Z.

Definition compare_at_with_collation (c : t) (n m : Z) (rhs : t) : Z :=
  collator_compare (bytes_at (chars c) (offset_at c n) (size_at c n))
                   (bytes_at (chars rhs) (offset_at rhs m) (size_at rhs m)).

(** [lessWithCollation<positive>::operator()]. *)
Definition lessWithCollation (positive : bool) (parent : t) (lhs rhs : Z)
  : bool :=
  let res :=
    collator_compare
      (bytes_at (chars parent) (offset_at parent lhs) (size_at parent lhs))
      (bytes_at (chars parent) (offset_at parent rhs) (size_at parent rhs)) in
  if positive then res <? 0 else 0 <? res.

Variable std_sort : (Z -> Z -> bool) -> list Z -> list Z.
Variable std_partial_sort : (Z -> Z -> bool) -> Z -> list Z -> list Z.

Definition get_permutation_with_collation (c : t) (reverse : bool)
  (limit : Z) : list Z :=
  let s := len (offsets c) in
  let res := map Z.of_nat (seq 0 (Z.to_nat s)) in
  let limit := if s <=? limit then 0 else limit in
  if negb (limit =? 0) then
    if reverse then std_partial_sort (lessWithCollation false c) limit res
    else std_partial_sort (lessWithCollation true c) limit res
  else
    if reverse then std_sort (lessWithCollation false c) res
    else std_sort (lessWithCollation true c) res.

End Collation.

End MoreOperations.

(** A collator compares consistently: swapping the operands swaps the
    sign, and "before" and "equivalent" are transitive. *)
Definition collator_contract (compare : list byte -> list byte -> Z) : Prop :=
  (forall a b, compare a b < 0 <-> 0 < compare b a)
  /\ (forall a b c, compare a b < 0 -> compare b c < 0 -> compare a c < 0)
  /\ (forall a b c, compare a b = 0 -> compare b c = 0 -> compare a c = 0).

(** The collator of plain byte order. *)
Definition byte_order_collator (a b : list byte) : Z :=
  int_of_comparison (compare_bytes a b).

(** *** Example columns *)

Local Open Scope byte_scope.

(** Two rows, "a" and "bc". *)
Definition two_rows : t := mk [1; 3] ["a"; "b"; "c"].

(** A one-byte row followed by a row of no bytes. *)
Definition with_empty_row : t := mk [1; 1] [Byte.x00].

(** Two one-byte rows, "b" then "a". *)
Definition b_then_a : t := mk [1; 2] ["b"; "a"].

(** Rows "b", "ab" and "aa", each followed by a zero byte. *)
Definition three_terminated : t :=
  mk [2; 5; 8] ["b"; "000"; "a"; "b"; "000"; "a"; "a"; "000"].

Local Close Scope byte_scope.

End ColumnJson.

(** ** Logical types: the part of the [IDataType] hierarchy the Map type
    touches *)

(** Type objects.  Only [DataTypeMap] is defined in the sources; scalar
    types, [DataTypeNullable] and [DataTypeArray] are the collaborators
    it is built from.  A Map object stores its two element types and the
    two Array wrappers made from them. *)
Inductive IDataType : Type :=
| DataTypeScalar (type_id : Z)
| DataTypeNullable (nested : IDataType)
| DataTypeArray (nested : IDataType)
| DataTypeMapObject (key_type value_type keys values : IDataType).

Definition is_nullable (ty : IDataType) : bool :=
  match ty with DataTypeNullable _ => true | _ => false end.

Definition make_nullable (ty : IDataType) : IDataType :=
  if is_nullable ty then ty else DataTypeNullable ty.

Definition is_map (ty : IDataType) : bool :=
  match ty with DataTypeMapObject _ _ _ _ => true | _ => false end.

(** [Status]: [OK] or [InvalidArgument] with its format string and the
    fragment substituted for the placeholder. *)
Inductive Status : Type :=
| OK
| InvalidArgument (fmt : string) (fragment : list ascii).

Definition ok (st : Status) : bool :=
  match st with OK => true | InvalidArgument _ _ => false end.

(** The three binary operations of an [IDataType] over columns of type
    [Col].  A [char*] is an address in the flat buffer [mem]; [serialize]
    returns the buffer after the writes and the address behind them,
    [deserialize] the address behind the bytes read and the column. *)
Module IDataTypeBinary.

Record t (Col : Type) : Type :=
  mk {
    get_uncompressed_serialized_bytes : Col -> Z -> Z;
    serialize : Col -> list byte -> Z -> Z -> list byte * Z;
    deserialize : list byte -> Z -> Col -> Z -> Z * Col }.
Arguments mk {Col} _ _ _.
Arguments get_uncompressed_serialized_bytes {Col} _ _ _.
Arguments serialize {Col} _ _ _ _ _.
Arguments deserialize {Col} _ _ _ _ _.

End IDataTypeBinary.

Module DataTypeMap.

(** [DataTypeMap::DataTypeMap(keys_, values_)]. *)
Definition DataTypeMap (keys_ values_ : IDataType) : IDataType :=
  let key_type := if negb (is_nullable keys_) then make_nullable keys_ else keys_ in
  let value_type :=
    if negb (is_nullable values_) then make_nullable values_ else values_ in
  DataTypeMapObject key_type value_type
                    (DataTypeArray key_type) (DataTypeArray value_type).

Definition get_key_type (ty : IDataType) : IDataType :=
  match ty with DataTypeMapObject k _ _ _ => k | _ => ty end.

Definition get_value_type (ty : IDataType) : IDataType :=
  match ty with DataTypeMapObject _ v _ _ => v | _ => ty end.

(** [IDataType::equals].  The Map case is [DataTypeMap::equals]: the
    [typeid] test, then [keys->equals] and [values->equals].
    Modelled from the spec: the other cases are defined in
    data_type_array.cpp, data_type_nullable.cpp and the scalar types,
    which are not part of the sources; the spec: types compare equal when
    they are structurally equal, i.e. same [typeid] and equal nested
    types. *)
Fixpoint equals (this rhs : IDataType) : bool :=
  match this, rhs with
  | DataTypeScalar a, DataTypeScalar b => a =? b
  | DataTypeNullable a, DataTypeNullable b => equals a b
  | DataTypeArray a, DataTypeArray b => equals a b
  | DataTypeMapObject _ _ keys values, DataTypeMapObject _ _ rhs_keys rhs_values =>
      if negb (equals keys rhs_keys) then false
      else if negb (equals values rhs_values) then false
      else true
  | _, _ => false
  end.

(** *** Text form: next_slot_from_string and from_string *)

(** Modelled from the spec: [ReadBuffer] is declared in
    vec/common/string_buffer.hpp, which is not part of the sources.  The
    spec and the callers: a buffer is a window [[position, end)] on the
    text [mem]; [count()] is the number of bytes left in it (the empty
    map [{}] has count 2) and [eof()] holds when none is left. *)
Record ReadBuffer : Type := mkReadBuffer { position : Z; end_ : Z }.

Definition eof (rb : ReadBuffer) : bool := position rb =? end_ rb.

Definition count (rb : ReadBuffer) : Z := to_size_t (end_ rb - position rb).

Definition advance (rb : ReadBuffer) (n : Z) : ReadBuffer :=
  mkReadBuffer (position rb + n) (end_ rb).

Record StringRef : Type := mkStringRef { data : Z; size : Z }.

(** [*p] for an address [p] of the text. *)
Definition deref (mem : list ascii) (p : Z) : ascii :=
  if p <? 0 then zero else nth (Z.to_nat p) mem zero.

Definition to_string (mem : list ascii) (s : StringRef) : list ascii :=
  firstn (Z.to_nat (size s)) (skipn (Z.to_nat (data s)) mem).

(** [isspace] in the "C" locale. *)
Definition isspace (c : ascii) : bool :=
  let n := N_of_ascii c in
  (n =? 32)%N || ((9 <=? n) && (n <=? 13))%N.

(** The double quote character. *)
Definition dquote : ascii := "034"%char.

Definition is_quote (c : ascii) : bool :=
  Ascii.eqb c dquote || Ascii.eqb c "'"%char.

(** The loops of [next_slot_from_string].  Each takes the number of
    iterations it can still make as a structural argument; the callers
    pass the number of bytes left in the window, which bounds it. *)

(** [while (!rb.eof() && isspace( *rb.position())) { ++rb.position();
    element.data = rb.position(); }] *)
Fixpoint ltrim (n : nat) (mem : list ascii) (rb : ReadBuffer)
  (element : StringRef) : ReadBuffer * StringRef :=
  match n with
  | O => (rb, element)
  | S n' =>
      if negb (eof rb) && isspace (deref mem (position rb)) then
        let rb := advance rb 1 in
        ltrim n' mem rb (mkStringRef (position rb) (size element))
      else (rb, element)
  end.

(** [while (str_len < rb.count() && *(rb.position() + str_len) != str_sep)
    ++str_len;] *)
Fixpoint find_str_sep (n : nat) (mem : list ascii) (rb : ReadBuffer)
  (str_sep : ascii) (str_len : Z) : Z :=
  match n with
  | O => str_len
  | S n' =>
      if (str_len <? count rb)
         && negb (Ascii.eqb (deref mem (position rb + str_len)) str_sep)
      then find_str_sep n' mem rb str_sep (str_len + 1)
      else str_len
  end.

(** The scan to the separator; the flag is [false] for the [return false]
    inside the loop. *)
Fixpoint scan_element (n : nat) (mem : list ascii) (has_quota : bool)
  (rb : ReadBuffer) (element : StringRef) : bool * ReadBuffer * StringRef :=
  match n with
  | O => (true, rb, element)
  | S n' =>
      let c := deref mem (position rb) in
      if negb (eof rb) && negb (Ascii.eqb c ":"%char)
         && negb (Ascii.eqb c ","%char)
         && (negb (count rb =? 1) || negb (Ascii.eqb c "}"%char))
      then
        if has_quota && negb (isspace c) then (false, rb, element)
        else scan_element n' mem has_quota (advance rb 1)
                          (mkStringRef (data element) (size element + 1))
      else (true, rb, element)
  end.

(** [while (element.size > 0 && isspace(element.data[element.size - 1]))
    --element.size;] *)
Fixpoint rtrim (n : nat) (mem : list ascii) (element : StringRef)
  : StringRef :=
  match n with
  | O => element
  | S n' =>
      if (0 <? size element)
         && isspace (deref mem (data element + (size element - 1)))
      then rtrim n' mem (mkStringRef (data element) (size element - 1))
      else element
  end.

(** [next_slot_from_string(rb, output)]: the returned flag, the buffer and
    the output parameter after the call. *)
Definition next_slot_from_string (mem : list ascii) (rb : ReadBuffer)
  (output : StringRef) : bool * ReadBuffer * StringRef :=
  let element := mkStringRef (position rb) 0 in
  if eof rb then (false, rb, output)
  else
    let '(rb, element) := ltrim (Z.to_nat (count rb)) mem rb element in
    let c := deref mem (position rb) in
    let '(found, has_quota, rb, element) :=
      if is_quote c then
        let str_sep := c in
        let str_len := find_str_sep (Z.to_nat (count rb)) mem rb str_sep 1 in
        if count rb <=? str_len then
          (false, false, mkReadBuffer (end_ rb) (end_ rb), element)
        else
          (true, true, advance rb (str_len + 1),
           mkStringRef (data element) (size element + (str_len + 1)))
      else (true, false, rb, element) in
    if negb found then (false, rb, output)
    else
      let '(scanned, rb, element) :=
        scan_element (Z.to_nat (count rb)) mem has_quota rb element in
      if negb scanned then (false, rb, output)
      else if eof rb then (false, rb, output)
      else
        let rb := advance rb 1 in
        let element := rtrim (Z.to_nat (size element)) mem element in
        let first := deref mem (data element) in
        let element :=
          if (2 <=? size element) && is_quote first
             && Ascii.eqb first (deref mem (data element + (size element - 1)))
          then mkStringRef (data element + 1) (size element - 2)
          else element in
        (true, rb, element).

(** *** The Map column *)

(** [ColumnArray]: a nested data column and the offsets of the rows in
    it.  [ColumnMap]: the keys array and the values array. *)
Record ColumnArray (T : Type) : Type :=
  mkColumnArray { get_data : list T; get_offsets : list Z }.
Arguments mkColumnArray {T} _ _.
Arguments get_data {T} _.
Arguments get_offsets {T} _.

Record ColumnMap (K V : Type) : Type :=
  mkColumnMap { get_keys : ColumnArray K; get_values : ColumnArray V }.
Arguments mkColumnMap {K V} _ _.
Arguments get_keys {K V} _.
Arguments get_values {K V} _.

Section FromString.

(** Cells of the nested key and value columns. *)
Variables K V : Type.

(** [key_type->from_string(krb, &nested_key_column)] and the same for
    values: the element types' own parsers, given the text of the slot and
    the nested column, returning the status and the column afterwards. *)
Variable key_type_from_string : list ascii -> list K -> Status * list K.
Variable value_type_from_string : list ascii -> list V -> Status * list V.

(** Modelled from the spec: [ColumnMap::insert_default] and
    [ColumnMap::pop_back] are defined in column_map.cpp, which is not part
    of the sources.  The spec: "Empty [{}] inserts a zero-length row", and
    [pop_back(element_num)] "rolls back all element rows inserted for the
    current map row". *)
Definition insert_default (column : ColumnMap K V) : ColumnMap K V :=
  let push (off : list Z) := off ++ [back off] in
  mkColumnMap
    (mkColumnArray (get_data (get_keys column))
                   (push (get_offsets (get_keys column))))
    (mkColumnArray (get_data (get_values column))
                   (push (get_offsets (get_values column)))).

Definition drop_last {T : Type} (n : Z) (l : list T) : list T :=
  firstn (length l - Z.to_nat n) l.

Definition pop_back (column : ColumnMap K V) (n : Z) : ColumnMap K V :=
  mkColumnMap
    (mkColumnArray (drop_last n (get_data (get_keys column)))
                   (get_offsets (get_keys column)))
    (mkColumnArray (drop_last n (get_data (get_values column)))
                   (get_offsets (get_values column))).

Definition with_nested (column : ColumnMap K V) (nested_key_column : list K)
  (nested_val_column : list V) : ColumnMap K V :=
  mkColumnMap
    (mkColumnArray nested_key_column (get_offsets (get_keys column)))
    (mkColumnArray nested_val_column (get_offsets (get_values column))).

(** The loop [while (!rb.eof())] of [from_string].  Every completed
    iteration consumes at least two bytes, so the bytes left in the buffer
    bound the iterations; [n] is that bound.  The result is the status
    when the loop returns early, [OK] when it runs to the end, with the
    buffer, the column and [element_num]. *)
Fixpoint from_string_loop (n : nat) (mem : list ascii) (rb : ReadBuffer)
  (column : ColumnMap K V) (element_num : Z)
  : Status * ReadBuffer * ColumnMap K V * Z :=
  match n with
  | O => (OK, rb, column, element_num)
  | S n' =>
      if eof rb then (OK, rb, column, element_num)
      else
        let key_element := mkStringRef (position rb) (count rb) in
        let '(read, rb, key_element) :=
          next_slot_from_string mem rb key_element in
        if negb read then
          (InvalidArgument "Cannot read map key from text '{}'"
                           (to_string mem key_element),
           rb, column, element_num)
        else
          let value_element := mkStringRef (position rb) (count rb) in
          let '(read, rb, value_element) :=
            next_slot_from_string mem rb value_element in
          if negb read then
            (InvalidArgument "Cannot read map value from text '{}'"
                             (to_string mem value_element),
             rb, column, element_num)
          else
            let '(st, nested_key_column) :=
              key_type_from_string (to_string mem key_element)
                                   (get_data (get_keys column)) in
            let column :=
              with_nested column nested_key_column
                          (get_data (get_values column)) in
            if negb (ok st) then (st, rb, pop_back column element_num, element_num)
            else
              let '(st, nested_val_column) :=
                value_type_from_string (to_string mem value_element)
                                       (get_data (get_values column)) in
              let column :=
                with_nested column (get_data (get_keys column))
                            nested_val_column in
              if negb (ok st) then
                (st, rb, pop_back column element_num, element_num)
              else from_string_loop n' mem rb column (element_num + 1)
  end.

(** [DataTypeMap::from_string(rb, column)] on a non-empty buffer. *)
Definition from_string (mem : list ascii) (rb : ReadBuffer)
  (column : ColumnMap K V) : Status * ReadBuffer * ColumnMap K V :=
  if negb (Ascii.eqb (deref mem (position rb)) "{"%char) then
    (InvalidArgument "map does not start with '{' character, found '{}'"
                     [deref mem (position rb)],
     rb, column)
  else if negb (Ascii.eqb (deref mem (end_ rb - 1)) "}"%char) then
    (InvalidArgument "map does not end with '}' character, found '{}'"
                     [deref mem (end_ rb - 1)],
     rb, column)
  else if count rb =? 2 then (OK, rb, insert_default column)
  else
    let rb := advance rb 1 in
    let '(st, rb, column, element_num) :=
      from_string_loop (Z.to_nat (count rb)) mem rb column 0 in
    if negb (ok st) then (st, rb, column)
    else
      let key_off := get_offsets (get_keys column) in
      let val_off := get_offsets (get_values column) in
      (OK, rb,
       mkColumnMap
         (mkColumnArray (get_data (get_keys column))
                        (key_off ++ [to_size_t (back key_off + element_num)]))
         (mkColumnArray (get_data (get_values column))
                        (val_off ++ [to_size_t (back val_off + element_num)]))).

End FromString.

Arguments insert_default {K V} _.
Arguments pop_back {K V} _ _.
Arguments from_string {K V} _ _ _ _ _.

(** *** Text form: to_string *)

Section ToString.

Variables K V : Type.

(** [nested_keys_column.is_null_at(i)],
    [WhichDataType(remove_nullable(key_type)).is_string_or_fixed_string()]
    and [key_type->to_string(nested_keys_column, i)], and the same three
    for the values: they belong to the element types and their columns. *)
Variable key_is_null_at : list K -> Z -> bool.
Variable key_is_string_or_fixed_string : bool.
Variable key_type_to_string : list K -> Z -> list ascii.
Variable value_is_null_at : list V -> Z -> bool.
Variable value_is_string_or_fixed_string : bool.
Variable value_type_to_string : list V -> Z -> list ascii.

(** What one element adds to the stream: the chain [if (is_null_at(i))
    ... else if (is_string_or_fixed_string()) ... else ...], which the
    loop body has once for the key and once for the value. *)
Definition element_to_string {T : Type} (is_null_at : list T -> Z -> bool)
  (is_string_or_fixed_string : bool)
  (type_to_string : list T -> Z -> list ascii)
  (nested_column : list T) (i : Z) : list ascii :=
  if is_null_at nested_column i then list_ascii_of_string "null"
  else if is_string_or_fixed_string then
    "'"%char :: type_to_string nested_column i ++ ["'"%char]
  else type_to_string nested_column i.

(** The loop [for (i = offset; i < next_offset; ++i)], [n] iterations
    left; [ss] is the stream. *)
Fixpoint to_string_loop (n : nat) (nested_keys_column : list K)
  (nested_values_column : list V) (offset i : Z) (ss : list ascii)
  : list ascii :=
  match n with
  | O => ss
  | S n' =>
      let ss :=
        if negb (i =? offset) then ss ++ list_ascii_of_string ", " else ss in
      let ss :=
        ss ++ element_to_string key_is_null_at key_is_string_or_fixed_string
                                key_type_to_string nested_keys_column i in
      let ss := ss ++ [":"%char] in
      let ss :=
        ss ++ element_to_string value_is_null_at
                                value_is_string_or_fixed_string
                                value_type_to_string nested_values_column i in
      to_string_loop n' nested_keys_column nested_values_column offset
                     (i + 1) ss
  end.

(** [DataTypeMap::to_string(column, row_num)].
    Modelled from the spec: [ColumnMap::get_offsets] is defined in
    column_map.h, which is not part of the sources.  The spec: the keys
    and values arrays have the same element count at every row; the
    offsets are those of the keys array. *)
Definition map_to_string (column : ColumnMap K V) (row_num : Z)
  : list ascii :=
  let offsets := get_offsets (get_keys column) in
  let offset := at_ offsets (row_num - 1) in
  let next_offset := at_ offsets row_num in
  let ss := ["{"%char] in
  let ss :=
    to_string_loop (Z.to_nat (next_offset - offset))
                   (get_data (get_keys column))
                   (get_data (get_values column)) offset offset ss in
  ss ++ ["}"%char].

(** [strlen]: the characters before the first zero character. *)
Fixpoint c_str_prefix (s : list ascii) : list ascii :=
  match s with
  | [] => []
  | c :: rest => if Ascii.eqb c zero then [] else c :: c_str_prefix rest
  end.

(** [DataTypeMap::to_string(column, row_num, ostr)]: the buffer after
    [ostr.write(ss.c_str(), strlen(ss.c_str()))]. *)
Definition map_to_string_buffer (column : ColumnMap K V) (row_num : Z)
  (ostr : list ascii) : list ascii :=
  let ss := map_to_string column row_num in
  ostr ++ c_str_prefix ss.

End ToString.

Arguments element_to_string {T} _ _ _ _ _.
Arguments map_to_string {K V} _ _ _ _ _ _ _ _.
Arguments map_to_string_buffer {K V} _ _ _ _ _ _ _ _ _.

(** *** Binary form: serialize, deserialize and
    get_uncompressed_serialized_bytes *)

Section Binary.

(** The column types of the keys array and of the values array, and the
    two Array types [get_keys()] and [get_values()]. *)
Variables KeysCol ValuesCol : Type.
Variable keys : IDataTypeBinary.t KeysCol.
Variable values : IDataTypeBinary.t ValuesCol.

(** The Map column is the pair of its arrays.  A column that reaches these
    functions is a full column: [convert_to_full_column_if_const] returns
    it unchanged. *)
Definition get_uncompressed_serialized_bytes
  (column : KeysCol * ValuesCol) (data_version : Z) : Z :=
  IDataTypeBinary.get_uncompressed_serialized_bytes keys (fst column)
                                                    data_version
  + IDataTypeBinary.get_uncompressed_serialized_bytes values (snd column)
                                                      data_version.

Definition serialize (column : KeysCol * ValuesCol) (mem : list byte)
  (buf : Z) (data_version : Z) : list byte * Z :=
  let '(mem, buf) :=
    IDataTypeBinary.serialize keys (fst column) mem buf data_version in
  IDataTypeBinary.serialize values (snd column) mem buf data_version.

Definition deserialize (mem : list byte) (buf : Z)
  (column : KeysCol * ValuesCol) (data_version : Z)
  : Z * (KeysCol * ValuesCol) :=
  let '(buf, keys_col) :=
    IDataTypeBinary.deserialize keys mem buf (fst column) data_version in
  let '(buf, values_col) :=
    IDataTypeBinary.deserialize values mem buf (snd column) data_version in
  (buf, (keys_col, values_col)).

End Binary.

Arguments get_uncompressed_serialized_bytes {KeysCol ValuesCol} _ _ _ _.
Arguments serialize {KeysCol ValuesCol} _ _ _ _ _ _.
Arguments deserialize {KeysCol ValuesCol} _ _ _ _ _ _.

(** *** Vocabulary of the statements and examples *)

(** A window inside the addressable range. *)
Definition window (rb : ReadBuffer) : Prop :=
  0 <= position rb <= end_ rb /\ end_ rb - position rb < 2 ^ 64.

(** A Map object as the constructor builds it: the Array wrappers are made
    from the stored element types. *)
Definition constructed (ty : IDataType) : Prop :=
  match ty with
  | DataTypeMapObject key_type value_type keys values =>
      keys = DataTypeArray key_type /\ values = DataTypeArray value_type
  | _ => True
  end.

(** A type whose binary operations implement the encoding [enc]: the size
    is the length of the encoding, [serialize] writes it at [buf] and
    returns the address behind it, and [deserialize] started on it reads
    the column back and returns the address behind it. *)
Record encodes {Col : Type} (T : IDataTypeBinary.t Col)
       (enc : Col -> Z -> list byte) : Prop :=
  mk_encodes {
    size_law :
      forall col v,
        IDataTypeBinary.get_uncompressed_serialized_bytes T col v
        = len (enc col v);
    serialize_law :
      forall col mem buf v,
        0 <= buf -> buf + len (enc col v) <= len mem ->
        IDataTypeBinary.serialize T col mem buf v
        = (memcpy mem buf (enc col v), buf + len (enc col v));
    deserialize_law :
      forall mem buf col0 col v,
        0 <= buf -> buf + len (enc col v) <= len mem ->
        bytes_at mem buf (len (enc col v)) = enc col v ->
        IDataTypeBinary.deserialize T mem buf col0 v
        = (buf + len (enc col v), col) }.

(** A toy Array type for the examples: the column is one byte and its
    encoding is that byte. *)
Definition one_byte : IDataTypeBinary.t byte :=
  IDataTypeBinary.mk
    (fun _ _ => 1)
    (fun col mem buf _ => (memcpy mem buf [col], buf + 1))
    (fun mem buf _ _ => (buf + 1, hd Byte.x00 (bytes_at mem buf 1))).

(** A text the tokenizer returns as it is when it stands in a slot without
    quotes: no [:] and no [,] in it, no white space and no quote at its
    start, no white space at its end. *)
Definition plain_slot (s : list ascii) : bool :=
  forallb (fun c => negb (Ascii.eqb c ":"%char) && negb (Ascii.eqb c ","%char))
          s
  && match s with
     | [] => true
     | c :: _ => negb (isspace c) && negb (is_quote c)
     end
  && negb (isspace (last s zero)).

(** A text that can stand between single quotes: no single quote in it. *)
Definition quoted_slot (s : list ascii) : bool :=
  forallb (fun c => negb (Ascii.eqb c "'"%char)) s.

(** The text in the slot of element [i], and whether what [to_string]
    writes for the element is read back as that text. *)
Definition slot_text {T : Type} (is_null_at : list T -> Z -> bool)
  (type_to_string : list T -> Z -> list ascii) (nested_column : list T)
  (i : Z) : list ascii :=
  if is_null_at nested_column i then list_ascii_of_string "null"
  else type_to_string nested_column i.

Definition readable {T : Type} (is_null_at : list T -> Z -> bool)
  (is_string_or_fixed_string : bool)
  (type_to_string : list T -> Z -> list ascii) (nested_column : list T)
  (i : Z) : bool :=
  if is_null_at nested_column i then true
  else if is_string_or_fixed_string then
    quoted_slot (type_to_string nested_column i)
  else plain_slot (type_to_string nested_column i).

(** The separator behind a slot: [:], [,] or the [}] that ends the text. *)
Definition slot_separator (sep : ascii) (post : list ascii) : Prop :=
  sep = ":"%char \/ sep = ","%char \/ (sep = "}"%char /\ post = []).

(** The text behind the opening brace, as the parser meets it: the pairs
    with their separators, a space before every pair but the first, and
    the closing brace behind the last. *)
Fixpoint pairs_text (first : bool) (pairs : list (list ascii * list ascii))
  : list ascii :=
  match pairs with
  | [] => []
  | (k, v) :: rest =>
      (if first then [] else [" "%char]) ++ k ++ ":"%char :: v
        ++ match rest with
           | [] => ["}"%char]
           | _ :: _ => ","%char :: pairs_text false rest
           end
  end.

(** An element type for the examples whose cells are texts: no cell is
    null, and a cell is written as its text. *)
Definition text_is_null_at (column : list string) (i : Z) : bool := false.

Definition text_to_string (column : list string) (i : Z) : list ascii :=
  list_ascii_of_string (nth (Z.to_nat i) column EmptyString).

(** A text element type for the examples: its parser accepts every slot
    and appends the text of the slot to the nested column. *)
Definition text_from_string (slot : list ascii) (column : list string)
  : Status * list string :=
  (OK, column ++ [string_of_list_ascii slot]).

(** A text element type that rejects the slot [x]. *)
Definition strict_from_string (slot : list ascii) (column : list string)
  : Status * list string :=
  if String.eqb (string_of_list_ascii slot) "x" then
    (InvalidArgument "parse error '{}'" slot, column)
  else (OK, column ++ [string_of_list_ascii slot]).

Definition empty_map : ColumnMap string string :=
  mkColumnMap (mkColumnArray [] []) (mkColumnArray [] []).

Definition parse_map (value_parser : list ascii -> list string -> Status * list string)
  (text : string) : Status * ReadBuffer * ColumnMap string string :=
  let mem := list_ascii_of_string text in
  from_string text_from_string value_parser mem (mkReadBuffer 0 (len mem))
              empty_map.

End DataTypeMap.

(** * Properties *)

(** ** Arrays, reads and writes *)

Lemma len_nil {A} : len (@nil A) = 0. Proof. reflexivity. Qed.
Lemma len_cons {A} (x : A) l : len (x :: l) = 1 + len l.
Proof. unfold len; simpl length; lia. Qed.
Lemma len_app {A} (l1 l2 : list A) : len (l1 ++ l2) = len l1 + len l2.
Proof. unfold len; rewrite length_app; lia. Qed.
Lemma len_nonneg {A} (l : list A) : 0 <= len l.
Proof. unfold len; lia. Qed.
Lemma len_repeat {A} (d : A) n : len (repeat d n) = Z.of_nat n.
Proof. unfold len; now rewrite repeat_length. Qed.
Lemma to_nat_len {A} (l : list A) : Z.to_nat (len l) = length l.
Proof. unfold len; lia. Qed.

Lemma len_zero_nil {A} (l : list A) : len l = 0 -> l = [].
Proof.
  destruct l; [reflexivity|]. rewrite len_cons. pose proof (len_nonneg l).
  lia.
Qed.

Lemma to_size_t_small x : 0 <= x < 2 ^ 64 -> to_size_t x = x.
Proof. intros; unfold to_size_t; now apply Z.mod_small. Qed.

Lemma at_app_l a b i : i < len a -> at_ (a ++ b) i = at_ a i.
Proof.
  unfold at_, len; intros H. destruct (i <? 0) eqn:E; [reflexivity|].
  apply Z.ltb_ge in E. apply app_nth1. lia.
Qed.
Lemma at_app_r a b i : len a <= i -> at_ (a ++ b) i = at_ b (i - len a).
Proof.
  unfold at_, len; intros H.
  destruct (i <? 0) eqn:E; [apply Z.ltb_lt in E; lia|].
  destruct (i - Z.of_nat (length a) <? 0) eqn:E'; [apply Z.ltb_lt in E'; lia|].
  rewrite app_nth2 by lia. f_equal; lia.
Qed.
Lemma at_neg a i : i < 0 -> at_ a i = 0.
Proof. unfold at_; intros H. apply Z.ltb_lt in H. now rewrite H. Qed.
Lemma at_cons_0 x a : at_ (x :: a) 0 = x.
Proof. reflexivity. Qed.
Lemma at_cons_pos x a i : 0 < i -> at_ (x :: a) i = at_ a (i - 1).
Proof.
  intros H. change (x :: a) with ([x] ++ a). rewrite at_app_r by (rewrite len_cons, len_nil; lia).
  f_equal.
Qed.
Lemma back_snoc a x : back (a ++ [x]) = x.
Proof.
  unfold back. rewrite len_app. change (len [x]) with 1.
  rewrite at_app_r by lia.
  replace (len a + 1 - 1 - len a) with 0 by lia. reflexivity.
Qed.
Lemma back_nil : back [] = 0.
Proof. reflexivity. Qed.

Lemma pod_resize_grow {A} (d : A) l k :
  0 <= k -> pod_resize d l (len l + k) = l ++ repeat d (Z.to_nat k).
Proof.
  intros Hk. unfold pod_resize, len.
  rewrite firstn_all2 by lia. f_equal. f_equal. lia.
Qed.
Lemma pod_resize_shrink {A} (d : A) l n :
  n <= len l -> pod_resize d l n = firstn (Z.to_nat n) l.
Proof.
  intros Hn. unfold pod_resize, len in *.
  replace (Z.to_nat n - length l)%nat with 0%nat by lia. simpl. apply app_nil_r.
Qed.
Lemma len_pod_resize {A} (d : A) l n : 0 <= n -> len (pod_resize d l n) = n.
Proof.
  intros Hn. unfold pod_resize. rewrite len_app, len_repeat. unfold len.
  rewrite length_firstn. lia.
Qed.

Lemma memcpy_append l data :
  memcpy (l ++ repeat Byte.x00 (length data)) (len l) data = l ++ data.
Proof.
  unfold memcpy. rewrite to_nat_len.
  replace (firstn (length l) (l ++ repeat Byte.x00 (length data))) with l
    by (rewrite firstn_app, firstn_all, Nat.sub_diag, firstn_O, app_nil_r;
        reflexivity).
  rewrite skipn_all2 by (rewrite length_app, repeat_length; lia).
  rewrite app_nil_r. apply firstn_all2. rewrite !length_app, repeat_length. lia.
Qed.

Lemma memcpy_inside a b c data :
  length data = length b ->
  memcpy (a ++ b ++ c) (len a) data = a ++ data ++ c.
Proof.
  intros H. unfold memcpy. rewrite to_nat_len.
  replace (firstn (length a) (a ++ b ++ c)) with a
    by (rewrite firstn_app, firstn_all, Nat.sub_diag, firstn_O, app_nil_r;
        reflexivity).
  rewrite skipn_app, skipn_all2 by lia. simpl app.
  replace (length a + length data - length a)%nat with (length b) by lia.
  rewrite skipn_app, skipn_all, Nat.sub_diag. simpl.
  apply firstn_all2. rewrite !length_app. lia.
Qed.

Lemma bytes_at_inside a b c :
  bytes_at (a ++ b ++ c) (len a) (len b) = b.
Proof.
  unfold bytes_at. rewrite !to_nat_len.
  rewrite skipn_app, skipn_all, Nat.sub_diag. simpl.
  rewrite <- !app_assoc. rewrite firstn_app, firstn_all, Nat.sub_diag, firstn_O.
  apply app_nil_r.
Qed.
Lemma len_bytes_at mem off n : 0 <= n -> len (bytes_at mem off n) = n.
Proof.
  intros. unfold bytes_at, len. rewrite length_firstn, length_app, repeat_length. lia.
Qed.
Lemma length_bytes_at mem off n : length (bytes_at mem off n) = Z.to_nat n.
Proof.
  unfold bytes_at. rewrite length_firstn, length_app, repeat_length. lia.
Qed.

Lemma set_nth_app {A} (l : list A) x t v : set_nth (l ++ x :: t) (length l) v = l ++ v :: t.
Proof. induction l; simpl; congruence. Qed.
Lemma set_at_app {A} (l : list A) x t v : set_at (l ++ x :: t) (len l) v = l ++ v :: t.
Proof.
  unfold set_at. pose proof (len_nonneg l). destruct (len l <? 0) eqn:E; [apply Z.ltb_lt in E; lia|].
  rewrite to_nat_len. apply set_nth_app.
Qed.

(** ** Columns as lists of rows *)

Module ColumnJsonFacts.
Import ColumnJson.

Lemma length_prefix_sums a rs : length (prefix_sums a rs) = length rs.
Proof. revert a; induction rs; simpl; intros; congruence. Qed.

Lemma len_prefix_sums a rs : len (prefix_sums a rs) = len rs.
Proof. unfold len; now rewrite length_prefix_sums. Qed.

Lemma prefix_sums_app a r1 r2 :
  prefix_sums a (r1 ++ r2)
  = prefix_sums a r1 ++ prefix_sums (a + len (concat r1)) r2.
Proof.
  revert a; induction r1 as [|r r1 IH]; simpl; intros a.
  - now rewrite len_nil, Z.add_0_r.
  - rewrite IH, len_app. f_equal. f_equal. f_equal. lia.
Qed.

Lemma at_prefix_sums_mid a l1 r l2 :
  at_ (prefix_sums a (l1 ++ r :: l2)) (len l1) = a + len (concat l1) + len r.
Proof.
  rewrite prefix_sums_app, at_app_r by (rewrite len_prefix_sums; lia).
  rewrite len_prefix_sums, Z.sub_diag. reflexivity.
Qed.

Lemma at_prefix_sums_before l1 r l2 :
  at_ (prefix_sums 0 (l1 ++ r :: l2)) (len l1 - 1) = len (concat l1).
Proof.
  destruct l1 as [|x l1] using rev_ind.
  - reflexivity.
  - rewrite <- app_assoc. simpl app.
    rewrite len_app. change (len [x]) with 1.
    replace (len l1 + 1 - 1) with (len l1) by lia.
    rewrite at_prefix_sums_mid, concat_app, len_app. simpl concat.
    rewrite app_nil_r. lia.
Qed.

Lemma back_prefix_sums rs : back (prefix_sums 0 rs) = len (concat rs).
Proof.
  unfold back. rewrite len_prefix_sums.
  destruct rs as [|x l1] using rev_ind.
  - reflexivity.
  - rewrite len_app. change (len [x]) with 1.
    replace (len l1 + 1 - 1) with (len l1) by lia.
    rewrite at_prefix_sums_mid, concat_app, len_app. simpl concat.
    rewrite app_nil_r. lia.
Qed.

Lemma firstn_prefix_sums n a rs :
  firstn n (prefix_sums a rs) = prefix_sums a (firstn n rs).
Proof.
  revert a rs; induction n; intros a [|r rs]; simpl; try reflexivity.
  now rewrite IHn.
Qed.

Lemma non_decreasing_prefix_sums a rs :
  non_decreasing_from a (prefix_sums a rs) = true.
Proof.
  revert a; induction rs as [|r rs IH]; simpl; intros a; [reflexivity|].
  rewrite IH, andb_true_r. apply Z.leb_le. pose proof (len_nonneg r). lia.
Qed.

Lemma split_at {A} (l : list A) (i : nat) (d : A) :
  (i < length l)%nat ->
  l = firstn i l ++ nth i l d :: skipn (S i) l /\ length (firstn i l) = i.
Proof.
  revert i; induction l as [|x l IH]; intros [|i] H; simpl in *; try lia.
  - split; reflexivity.
  - destruct (IH i) as [E L]; [lia|]. split; [|now rewrite L].
    f_equal. exact E.
Qed.

Lemma row_of_rows rs i :
  len (concat rs) < 2 ^ 64 -> 0 <= i < len rs ->
  row (of_rows rs) i = nth (Z.to_nat i) rs [].
Proof.
  intros Hfit Hi. unfold len in Hi.
  destruct (split_at rs (Z.to_nat i) [] ltac:(lia)) as [E L].
  set (l1 := firstn (Z.to_nat i) rs) in *.
  set (r := nth (Z.to_nat i) rs []) in *.
  set (l2 := skipn (S (Z.to_nat i)) rs) in *.
  assert (Hi' : i = len l1) by (unfold len; lia).
  clearbody l1 r l2. subst rs i.
  unfold row, size_at, offset_at, of_rows. cbn [offsets chars].
  rewrite at_prefix_sums_before.
  rewrite at_prefix_sums_mid.
  rewrite concat_app in *. simpl concat in *. rewrite !len_app in Hfit.
  pose proof (len_nonneg (concat l1)). pose proof (len_nonneg (concat l2)).
  pose proof (len_nonneg r).
  rewrite to_size_t_small by lia.
  replace (0 + len (concat l1) + len r - len (concat l1)) with (len r) by lia.
  apply bytes_at_inside.
Qed.

Lemma map_seq_nth {A} (f : nat -> A) (l : list A) (d : A) :
  (forall i, (i < length l)%nat -> f i = nth i l d) ->
  map f (seq 0 (length l)) = l.
Proof.
  intros H. apply nth_ext with (d := f 0%nat) (d' := d).
  - now rewrite length_map, length_seq.
  - intros n Hn. rewrite length_map, length_seq in Hn.
    rewrite map_nth with (d := 0%nat), seq_nth by lia. now apply H.
Qed.

Lemma rows_of_rows rs : len (concat rs) < 2 ^ 64 -> rows (of_rows rs) = rs.
Proof.
  intros Hfit. unfold rows. unfold of_rows at 2. cbn [offsets].
  rewrite length_prefix_sums. apply map_seq_nth with (d := []).
  intros i Hi. rewrite row_of_rows by (trivial; unfold len; lia). f_equal. lia.
Qed.

Lemma offsets_of_rows rs : offsets (of_rows rs) = prefix_sums 0 rs.
Proof. reflexivity. Qed.

Lemma chars_of_rows rs : chars (of_rows rs) = concat rs.
Proof. reflexivity. Qed.

Lemma size_of_rows rs : size (of_rows rs) = len rs.
Proof. unfold size, of_rows; cbn [offsets]. apply len_prefix_sums. Qed.

Lemma non_decreasing_from_at p offs :
  non_decreasing_from p offs = true ->
  forall i j, 0 <= i -> i <= j -> j < len offs ->
              p <= at_ offs i /\ at_ offs i <= at_ offs j.
Proof.
  revert p; induction offs as [|o rest IH]; intros p H i j Hi Hij Hj.
  - rewrite len_nil in Hj; lia.
  - simpl in H. apply andb_true_iff in H as [Hp H]. apply Z.leb_le in Hp.
    rewrite len_cons in Hj.
    destruct (Z.eq_dec j 0) as [->|Hj0].
    + assert (i = 0) by lia; subst i. rewrite at_cons_0. lia.
    + rewrite (at_cons_pos o rest j) by lia.
      destruct (Z.eq_dec i 0) as [->|Hi0].
      * rewrite at_cons_0.
        destruct (IH o H (j - 1) (j - 1)); lia.
      * rewrite (at_cons_pos o rest i) by lia.
        destruct (IH o H (i - 1) (j - 1)); lia.
Qed.

Lemma non_decreasing_from_intro p offs :
  (forall i, 0 <= i < len offs ->
             (if i =? 0 then p else at_ offs (i - 1)) <= at_ offs i) ->
  non_decreasing_from p offs = true.
Proof.
  revert p; induction offs as [|o rest IH]; intros p H; [reflexivity|].
  simpl. apply andb_true_iff. pose proof (len_nonneg rest) as Hr. split.
  - apply Z.leb_le. specialize (H 0). rewrite len_cons in H.
    rewrite at_cons_0 in H. apply H. lia.
  - apply IH. intros i Hi. specialize (H (i + 1)). rewrite len_cons in H.
    rewrite (at_cons_pos o rest (i + 1)) in H by lia.
    replace (i + 1 - 1) with i in H by lia.
    destruct (i + 1 =? 0) eqn:E; [apply Z.eqb_eq in E; lia|].
    destruct (i =? 0) eqn:E0.
    + apply Z.eqb_eq in E0; subst i. rewrite at_cons_0 in H. apply H; lia.
    + apply Z.eqb_neq in E0. rewrite (at_cons_pos o rest i) in H by lia.
      apply H; lia.
Qed.

Lemma check_invariants_sound c : check_invariants c = true -> invariants c.
Proof.
  unfold check_invariants. intros H. apply andb_true_iff in H as [Hnd Hlen].
  apply Z.eqb_eq in Hlen.
  pose proof (non_decreasing_from_at 0 (offsets c) Hnd) as Hat.
  constructor; unfold size.
  - intros i j Hi Hij Hj. now apply Hat.
  - intros _. exact Hlen.
  - intros H0. apply len_zero_nil in H0. rewrite H0 in Hlen.
    now apply len_zero_nil.
  - intros i Hi. rewrite Hlen. unfold back.
    destruct (Hat i (len (offsets c) - 1)) as [H1 H2]; try lia.
    split; [|exact H2]. split; [|].
    + destruct (Z.eq_dec i 0) as [->|Hi0]; [rewrite at_neg; lia|].
      destruct (Hat (i - 1) i); lia.
    + destruct (Z.eq_dec i 0) as [->|Hi0]; [rewrite at_neg; lia|].
      destruct (Hat (i - 1) i); lia.
Qed.

Lemma check_invariants_complete c : invariants c -> check_invariants c = true.
Proof.
  intros [Hnd Hsz Hemp Hrng]. unfold check_invariants, size in *.
  apply andb_true_iff; split.
  - apply non_decreasing_from_intro. intros i Hi.
    destruct (i =? 0) eqn:E.
    + apply Z.eqb_eq in E; subst i. destruct (Hrng 0 Hi) as [H _].
      rewrite at_neg in H; lia.
    + destruct (Hrng i Hi) as [H _]. lia.
  - apply Z.eqb_eq. pose proof (len_nonneg (offsets c)).
    destruct (Z.eq_dec (len (offsets c)) 0) as [E|E].
    + rewrite (Hemp E). rewrite (len_zero_nil _ E). reflexivity.
    + apply Hsz. lia.
Qed.

Lemma invariants_of_rows rs : invariants (of_rows rs).
Proof.
  apply check_invariants_sound. unfold check_invariants, of_rows.
  cbn [offsets chars]. rewrite non_decreasing_prefix_sums, back_prefix_sums.
  simpl. apply Z.eqb_refl.
Qed.

Lemma back_cons_cons x y l : back (x :: y :: l) = back (y :: l).
Proof.
  unfold back. rewrite !len_cons. pose proof (len_nonneg l).
  rewrite at_cons_pos by lia. f_equal. lia.
Qed.

Lemma non_decreasing_from_back p o rest :
  non_decreasing_from p (o :: rest) = true -> o <= back (o :: rest).
Proof.
  intros H. unfold back.
  pose proof (len_nonneg rest). rewrite len_cons.
  destruct (non_decreasing_from_at p _ H 0 (1 + len rest - 1)) as [_ H'];
    try rewrite len_cons; try lia.
  now rewrite at_cons_0 in H'.
Qed.

Lemma cut_repr offs : forall prev cs,
  non_decreasing_from prev offs = true ->
  len cs = (match offs with [] => prev | _ => back offs end) - prev ->
  prefix_sums prev (cut prev offs cs) = offs /\ concat (cut prev offs cs) = cs.
Proof.
  induction offs as [|o rest IH]; intros prev cs Hnd Hlen.
  - simpl. rewrite Z.sub_diag in Hlen. apply len_zero_nil in Hlen.
    now subst cs.
  - pose proof (non_decreasing_from_back _ _ _ Hnd) as Hback.
    simpl in Hnd. apply andb_true_iff in Hnd as [Hp Hnd].
    apply Z.leb_le in Hp.
    assert (Hfirst : len (firstn (Z.to_nat (o - prev)) cs) = o - prev).
    { unfold len in *. rewrite length_firstn. lia. }
    destruct (IH o (skipn (Z.to_nat (o - prev)) cs) Hnd) as [E1 E2].
    { destruct rest as [|o' rest'].
      - change (back [o]) with o in Hlen.
        unfold len in *. rewrite length_skipn. lia.
      - rewrite back_cons_cons in Hlen, Hback.
        unfold len in *. rewrite length_skipn. lia. }
    simpl. rewrite Hfirst. replace (prev + (o - prev)) with o by lia.
    rewrite E1, E2. split; [reflexivity|]. apply firstn_skipn.
Qed.

Lemma invariants_repr c :
  invariants c -> c = of_rows (cut 0 (offsets c) (chars c)).
Proof.
  intros H. apply check_invariants_complete in H.
  unfold check_invariants in H. apply andb_true_iff in H as [Hnd Hlen].
  apply Z.eqb_eq in Hlen.
  destruct (cut_repr (offsets c) 0 (chars c) Hnd) as [E1 E2].
  - rewrite Hlen, Z.sub_0_r. destruct (offsets c); reflexivity.
  - unfold of_rows. rewrite E1, E2. now destruct c.
Qed.

Lemma invariants_rows c :
  invariants c -> len (chars c) < 2 ^ 64 -> c = of_rows (rows c).
Proof.
  intros H Hfit. pose proof (invariants_repr c H) as E.
  rewrite E at 2. rewrite rows_of_rows; [exact E|].
  rewrite E in Hfit. exact Hfit.
Qed.

Lemma at_prefix_sums_firstn rs i :
  -1 <= i < len rs ->
  at_ (prefix_sums 0 rs) i = len (concat (firstn (Z.to_nat (i + 1)) rs)).
Proof.
  intros Hi. destruct (Z.eq_dec i (-1)) as [->|Hne]; [reflexivity|].
  unfold len in Hi.
  destruct (split_at rs (Z.to_nat i) [] ltac:(lia)) as [E L].
  set (l1 := firstn (Z.to_nat i) rs) in *.
  set (r := nth (Z.to_nat i) rs []) in *.
  set (l2 := skipn (S (Z.to_nat i)) rs) in *.
  assert (Hi' : i = len l1) by (unfold len; lia).
  clearbody l1 r l2. subst rs i.
  rewrite at_prefix_sums_mid.
  replace (Z.to_nat (len l1 + 1)) with (length l1 + 1)%nat
    by (unfold len; lia).
  rewrite firstn_app, firstn_all2 by lia.
  replace (length l1 + 1 - length l1)%nat with 1%nat by lia.
  cbn [firstn]. rewrite concat_app, len_app. simpl concat.
  rewrite app_nil_r. lia.
Qed.

Lemma firstn_plus {A} (a b : nat) (l : list A) :
  firstn (a + b) l = firstn a l ++ firstn b (skipn a l).
Proof.
  revert l; induction a; intros [|x l]; simpl; try reflexivity.
  - now rewrite firstn_nil.
  - now rewrite IHa.
Qed.

Lemma concat_firstn_prefix {A} n (rs : list (list A)) :
  firstn (length (concat (firstn n rs))) (concat rs) = concat (firstn n rs).
Proof.
  rewrite <- (firstn_skipn n rs) at 2. rewrite concat_app.
  rewrite firstn_app, firstn_all, Nat.sub_diag, firstn_O. apply app_nil_r.
Qed.

Section Operations.

Variable Offset_bits : Z.

(** [Offset] is no wider than [size_t]. *)
Hypothesis Offset_fits_size_t : Offset_bits <= 64.

Lemma Offset_range_size_t x : x < 2 ^ Offset_bits -> x < 2 ^ 64.
Proof.
  intros H. eapply Z.lt_le_trans; [exact H|].
  apply Z.pow_le_mono_r; lia.
Qed.

Lemma to_Offset_small x :
  0 <= x < 2 ^ Offset_bits -> to_Offset Offset_bits x = x.
Proof. intros; unfold to_Offset; now apply Z.mod_small. Qed.

(** *** clone_resized on a column given by its rows *)

Lemma clone_resized_fill_spec k : forall pre offset zs,
  length zs = k -> 0 <= offset ->
  offset + Z.of_nat k < 2 ^ Offset_bits ->
  clone_resized_fill Offset_bits k (len pre) offset (pre ++ zs)
  = pre ++ prefix_sums offset (repeat [Byte.x00] k).
Proof.
  induction k as [|k IH]; intros pre offset zs Hzs Ho Hfit.
  - destruct zs; [reflexivity|discriminate].
  - destruct zs as [|z zs]; [discriminate|]. injection Hzs as Hzs.
    cbn [clone_resized_fill repeat prefix_sums].
    rewrite to_Offset_small by lia. rewrite set_at_app.
    change (len [Byte.x00]) with 1.
    replace (pre ++ offset + 1 :: zs) with ((pre ++ [offset + 1]) ++ zs)
      by (now rewrite <- app_assoc).
    replace (len pre + 1) with (len (pre ++ [offset + 1]))
      by (rewrite len_app; reflexivity).
    rewrite IH by lia. now rewrite <- app_assoc.
Qed.

Lemma concat_repeat_single {A} (x : A) k : concat (repeat [x] k) = repeat x k.
Proof. induction k; simpl; congruence. Qed.

Lemma clone_resized_of_rows_shrink rs to_size :
  0 <= to_size <= len rs ->
  clone_resized Offset_bits (of_rows rs) to_size
  = of_rows (firstn (Z.to_nat to_size) rs).
Proof.
  intros H. unfold clone_resized.
  destruct (to_size =? 0) eqn:E0.
  - apply Z.eqb_eq in E0; subst. reflexivity.
  - apply Z.eqb_neq in E0. rewrite size_of_rows.
    destruct (to_size <=? len rs) eqn:E; [|apply Z.leb_gt in E; lia].
    unfold of_rows, pod_assign. cbn [offsets chars].
    rewrite firstn_prefix_sums. f_equal.
    rewrite at_prefix_sums_firstn by lia.
    replace (to_size - 1 + 1) with to_size by lia.
    rewrite to_nat_len. apply concat_firstn_prefix.
Qed.

Lemma clone_resized_of_rows_grow rs to_size :
  len rs < to_size ->
  len (concat rs) + (to_size - len rs) < 2 ^ Offset_bits ->
  clone_resized Offset_bits (of_rows rs) to_size
  = of_rows (rs ++ repeat [Byte.x00] (Z.to_nat (to_size - len rs))).
Proof.
  intros H Hfit. pose proof (len_nonneg rs) as Hrs.
  pose proof (len_nonneg (concat rs)) as Hcs.
  unfold clone_resized.
  destruct (to_size =? 0) eqn:E0; [apply Z.eqb_eq in E0; lia|].
  rewrite size_of_rows.
  destruct (to_size <=? len rs) eqn:E; [apply Z.leb_le in E; lia|].
  assert (Hres : (if 0 <? len rs then mk (offsets (of_rows rs))
                                          (chars (of_rows rs))
                  else create) = of_rows rs).
  { destruct (0 <? len rs) eqn:E1; [reflexivity|].
    apply Z.ltb_ge in E1. assert (E2 : len rs = 0) by lia.
    apply len_zero_nil in E2. now subst rs. }
  rewrite Hres.
  assert (Hoff : (if 0 <? len rs then back (offsets (of_rows rs)) else 0)
                 = len (concat rs)).
  { destruct (0 <? len rs) eqn:E1.
    - apply back_prefix_sums.
    - apply Z.ltb_ge in E1. assert (E2 : len rs = 0) by lia.
      apply len_zero_nil in E2. now subst rs. }
  rewrite Hoff. unfold of_rows. cbn [offsets chars].
  set (k := to_size - len rs) in *.
  replace (len (concat rs) + to_size - len rs) with (len (concat rs) + k)
    by (unfold k; lia).
  rewrite to_size_t_small by (split; [lia|apply Offset_range_size_t; lia]).
  rewrite pod_resize_grow by lia.
  replace to_size with (len (prefix_sums 0 rs) + k)
    by (rewrite len_prefix_sums; unfold k; lia).
  rewrite pod_resize_grow by lia.
  rewrite <- (len_prefix_sums 0 rs) at 1.
  rewrite clone_resized_fill_spec; [|now rewrite repeat_length|lia|lia].
  rewrite prefix_sums_app, concat_app, concat_repeat_single, Z.add_0_l.
  reflexivity.
Qed.

(** *** insert_range_from on columns given by their rows *)

Lemma fold_set_at_fill (g f : nat -> Z) k : forall pre zs m,
  length zs = k ->
  (forall i, (m <= i < m + k)%nat -> g i = len pre + Z.of_nat (i - m)) ->
  fold_left (fun offs i => set_at offs (g i) (f i)) (seq m k) (pre ++ zs)
  = pre ++ map f (seq m k).
Proof.
  induction k as [|k IH]; intros pre zs m Hzs Hg.
  - destruct zs; [reflexivity|discriminate].
  - destruct zs as [|z zs]; [discriminate|]. injection Hzs as Hzs.
    cbn [seq fold_left map].
    rewrite (Hg m) by lia. rewrite Nat.sub_diag, Z.add_0_r, set_at_app.
    replace (pre ++ f m :: zs) with ((pre ++ [f m]) ++ zs)
      by (now rewrite <- app_assoc).
    rewrite IH; [now rewrite <- app_assoc|exact Hzs|].
    intros i Hi. rewrite Hg by lia. rewrite len_app.
    change (len [f m]) with 1. lia.
Qed.

Lemma prefix_sums_map a rs :
  prefix_sums a rs
  = map (fun i => a + len (concat (firstn (S i) rs))) (seq 0 (length rs)).
Proof.
  revert a; induction rs as [|r rs IH]; intros a; [reflexivity|].
  cbn [prefix_sums length seq map]. f_equal.
  - cbn [firstn concat]. now rewrite app_nil_r.
  - rewrite IH, <- seq_shift, map_map. apply map_ext. intros i.
    cbn [firstn concat]. rewrite len_app. lia.
Qed.

Lemma len_concat_firstn_le {A} n (l : list (list A)) :
  len (concat (firstn n l)) <= len (concat l).
Proof.
  rewrite <- (firstn_skipn n l) at 2. rewrite concat_app, len_app.
  pose proof (len_nonneg (concat (skipn n l))). lia.
Qed.

Lemma insert_range_from_of_rows d s start cnt :
  0 <= start -> 0 < cnt -> start + cnt <= len s ->
  len s < 2 ^ 64 -> len d + cnt < 2 ^ 64 ->
  len (concat s) < 2 ^ Offset_bits ->
  len (concat d)
  + len (concat (firstn (Z.to_nat cnt) (skipn (Z.to_nat start) s)))
  < 2 ^ Offset_bits ->
  insert_range_from Offset_bits (of_rows d) (of_rows s) start cnt
  = Returned
      (of_rows (d ++ firstn (Z.to_nat cnt) (skipn (Z.to_nat start) s))).
Proof.
  intros Hstart Hlength Hbound Hs64 Hd64 Hsfit Hfit.
  set (sel := firstn (Z.to_nat cnt) (skipn (Z.to_nat start) s)) in *.
  pose proof (len_nonneg d) as Hd0. pose proof (len_nonneg (concat d)) as Hcd0.
  pose proof (len_nonneg (concat sel)) as Hcsel0.
  pose proof (Offset_range_size_t _ Hsfit) as Hs64'.
  pose proof (Offset_range_size_t _ Hfit) as Hfit64.
  assert (Hsplit : firstn (Z.to_nat (start + cnt)) s
                   = firstn (Z.to_nat start) s ++ sel).
  { replace (Z.to_nat (start + cnt))
      with (Z.to_nat start + Z.to_nat cnt)%nat by lia.
    apply firstn_plus. }
  assert (Hsel_len : length sel = Z.to_nat cnt).
  { unfold sel. rewrite length_firstn, length_skipn. unfold len in Hbound. lia. }
  unfold insert_range_from.
  destruct (cnt =? 0) eqn:E0; [apply Z.eqb_eq in E0; lia|clear E0].
  rewrite size_of_rows. rewrite (to_size_t_small (start + cnt)) by lia.
  destruct (len s <? start + cnt) eqn:E1; [apply Z.ltb_lt in E1; lia|clear E1].
  unfold offset_at. rewrite !offsets_of_rows, !chars_of_rows.
  rewrite (to_size_t_small (start + cnt - 1)) by lia.
  rewrite !at_prefix_sums_firstn by lia.
  replace (start - 1 + 1) with start by lia.
  replace (start + cnt - 1 + 1) with (start + cnt) by lia.
  rewrite Hsplit, concat_app, len_app.
  set (A := concat (firstn (Z.to_nat start) s)) in *.
  replace (len A + len (concat sel) - len A) with (len (concat sel)) by lia.
  rewrite (to_size_t_small (len (concat sel))) by lia.
  rewrite (to_size_t_small (len (concat d) + len (concat sel))) by lia.
  rewrite pod_resize_grow by lia.
  assert (Hbytes : bytes_at (concat s) (len A) (len (concat sel)) = concat sel).
  { rewrite <- (firstn_skipn (Z.to_nat (start + cnt)) s).
    rewrite Hsplit, !concat_app. fold A. rewrite <- app_assoc.
    apply bytes_at_inside. }
  rewrite Hbytes, to_nat_len, memcpy_append.
  assert (Hchars : concat d ++ concat sel = concat (d ++ sel))
    by (now rewrite concat_app).
  rewrite len_prefix_sums.
  destruct ((start =? 0) && (len d =? 0)) eqn:Efast.
  - apply andb_true_iff in Efast as [Es Ed]. apply Z.eqb_eq in Es, Ed.
    apply len_zero_nil in Ed. subst d start.
    unfold pod_assign. rewrite firstn_prefix_sums. unfold of_rows.
    f_equal.
  - clear Efast. rewrite back_prefix_sums.
    rewrite (to_size_t_small (len d + cnt)) by lia.
    rewrite <- (len_prefix_sums 0 d) at 1.
    rewrite pod_resize_grow by lia.
    rewrite fold_set_at_fill
      with (g := fun i => to_size_t (len d + Z.of_nat i));
      [|now rewrite repeat_length|].
    2:{ intros i Hi. rewrite len_prefix_sums.
        rewrite to_size_t_small by lia. f_equal. lia. }
    unfold of_rows. rewrite prefix_sums_app, Z.add_0_l, <- Hchars.
    f_equal. f_equal. f_equal.
    rewrite (prefix_sums_map (len (concat d)) sel), Hsel_len.
    apply map_ext_in.
    intros i Hi. apply in_seq in Hi.
    rewrite (to_size_t_small (start + Z.of_nat i)) by lia.
    rewrite at_prefix_sums_firstn by lia.
    replace (Z.to_nat (start + Z.of_nat i + 1))
      with (Z.to_nat start + S i)%nat by lia.
    rewrite firstn_plus, concat_app, len_app. fold A.
    assert (Hfs : firstn (S i) (skipn (Z.to_nat start) s) = firstn (S i) sel).
    { unfold sel. rewrite firstn_firstn. f_equal. lia. }
    rewrite Hfs.
    pose proof (len_concat_firstn_le (S i) sel) as Hle.
    pose proof (len_nonneg (concat (firstn (S i) sel))) as H0.
    replace (len A + len (concat (firstn (S i) sel)) - len A + len (concat d))
      with (len (concat d) + len (concat (firstn (S i) sel))) by lia.
    rewrite to_size_t_small by lia. apply to_Offset_small. lia.
Qed.

(** *** The arena round trip and resize on columns given by their rows *)

Lemma unaligned_load_nonneg mem pos : 0 <= unaligned_load_size_t mem pos.
Proof. unfold unaligned_load_size_t. apply le_combine_bound. Qed.

Lemma of_rows_snoc rs r :
  of_rows (rs ++ [r])
  = mk (prefix_sums 0 rs ++ [len (concat rs) + len r]) (concat rs ++ r).
Proof.
  unfold of_rows. rewrite prefix_sums_app, concat_app. simpl.
  now rewrite app_nil_r.
Qed.

Lemma deserialize_of_rows d mem pos :
  len (concat d) + unaligned_load_size_t mem pos < 2 ^ Offset_bits ->
  deserialize_and_insert_from_arena Offset_bits (of_rows d) mem pos
  = (pos + sizeof_size_t + unaligned_load_size_t mem pos,
     of_rows (d ++ [bytes_at mem (pos + sizeof_size_t)
                             (unaligned_load_size_t mem pos)])).
Proof.
  intros Hfit. pose proof (unaligned_load_nonneg mem pos) as Hn.
  pose proof (len_nonneg (concat d)) as Hd.
  pose proof (Offset_range_size_t _ Hfit) as Hfit64.
  unfold deserialize_and_insert_from_arena.
  set (n := unaligned_load_size_t mem pos) in *.
  rewrite chars_of_rows, offsets_of_rows.
  rewrite to_size_t_small by lia. rewrite to_Offset_small by lia.
  rewrite pod_resize_grow by lia.
  rewrite <- (length_bytes_at mem (pos + sizeof_size_t) n), memcpy_append.
  rewrite of_rows_snoc, len_bytes_at by lia. reflexivity.
Qed.

Lemma serialize_value_into_arena_spec rs n arena :
  len (concat rs) < 2 ^ 64 -> 0 <= n < len rs ->
  sizeof_size_t + len (nth (Z.to_nat n) rs []) < 2 ^ 64 ->
  serialize_value_into_arena (of_rows rs) n arena
  = (mkStringRef (len arena)
                 (sizeof_size_t + len (nth (Z.to_nat n) rs [])),
     arena ++ size_t_bytes (len (nth (Z.to_nat n) rs []))
           ++ nth (Z.to_nat n) rs []).
Proof.
  intros Hfit Hn Hser. unfold serialize_value_into_arena, alloc_continue.
  pose proof (row_of_rows rs n Hfit Hn) as Hrow. unfold row in Hrow.
  rewrite Hrow. set (r := nth (Z.to_nat n) rs []) in *.
  assert (Hsz : size_at (of_rows rs) n = len r).
  { rewrite <- (len_bytes_at (chars (of_rows rs)) (offset_at (of_rows rs) n)
                             (size_at (of_rows rs) n)).
    - now rewrite Hrow.
    - unfold size_at, to_size_t. apply Z.mod_pos_bound. lia. }
  rewrite Hsz. pose proof (len_nonneg r) as Hr.
  unfold sizeof_size_t in *.
  rewrite to_size_t_small by lia.
  rewrite pod_resize_grow by lia.
  replace (Z.to_nat (8 + len r)) with (8 + length r)%nat by (unfold len; lia).
  rewrite repeat_app.
  rewrite memcpy_inside
    by (unfold size_t_bytes; now rewrite length_le_split, repeat_length).
  replace (len arena + 8) with (len (arena ++ size_t_bytes (len r)))
    by (rewrite len_app; unfold size_t_bytes, len;
        rewrite length_le_split; lia).
  rewrite app_assoc, memcpy_append, <- app_assoc. reflexivity.
Qed.

Section Resize.

Variable default_row : list byte.

Lemma insert_many_defaults_loop_of_rows k : forall rs,
  len (concat rs) + Z.of_nat k * len default_row < 2 ^ Offset_bits ->
  insert_many_defaults_loop Offset_bits default_row k (of_rows rs)
  = of_rows (rs ++ repeat default_row k).
Proof.
  induction k as [|k IH]; intros rs Hfit.
  - simpl. now rewrite app_nil_r.
  - pose proof (len_nonneg (concat rs)). pose proof (len_nonneg default_row).
    cbn [insert_many_defaults_loop].
    rewrite offsets_of_rows, chars_of_rows, back_prefix_sums.
    rewrite to_Offset_small by nia. rewrite <- of_rows_snoc.
    rewrite IH.
    + rewrite <- app_assoc. f_equal.
    + rewrite concat_app, len_app. simpl concat. rewrite app_nil_r. nia.
Qed.

Lemma resize_of_rows_grow rs n :
  len rs <= n -> n < 2 ^ 64 ->
  len (concat rs) + (n - len rs) * len default_row < 2 ^ Offset_bits ->
  resize Offset_bits default_row (of_rows rs) n
  = of_rows (rs ++ repeat default_row (Z.to_nat (n - len rs))).
Proof.
  intros Hn H64 Hfit. pose proof (len_nonneg rs).
  unfold resize. rewrite size_of_rows.
  destruct (n <? len rs) eqn:E; [apply Z.ltb_lt in E; lia|clear E].
  destruct (len rs <? n) eqn:E.
  - unfold insert_many_defaults. rewrite to_size_t_small by lia.
    apply insert_many_defaults_loop_of_rows. rewrite Z2Nat.id by lia. exact Hfit.
  - apply Z.ltb_ge in E. replace (n - len rs) with 0 by lia. simpl.
    now rewrite app_nil_r.
Qed.

End Resize.

(** *** Reading one row of a column given by its rows *)

Lemma row_len_of_rows rs i :
  0 <= i < len rs ->
  at_ (prefix_sums 0 rs) i - at_ (prefix_sums 0 rs) (i - 1)
  = len (nth (Z.to_nat i) rs []).
Proof.
  intros Hi. unfold len in Hi.
  destruct (split_at rs (Z.to_nat i) [] ltac:(lia)) as [E L].
  set (l1 := firstn (Z.to_nat i) rs) in *.
  set (r := nth (Z.to_nat i) rs []) in *.
  set (l2 := skipn (S (Z.to_nat i)) rs) in *.
  assert (Hi' : i = len l1) by (unfold len; lia).
  clearbody l1 r l2. subst rs i.
  rewrite at_prefix_sums_before, at_prefix_sums_mid. lia.
Qed.

Lemma bytes_at_row rs i :
  0 <= i < len rs ->
  bytes_at (concat rs) (at_ (prefix_sums 0 rs) (i - 1))
           (len (nth (Z.to_nat i) rs []))
  = nth (Z.to_nat i) rs [].
Proof.
  intros Hi. unfold len in Hi.
  destruct (split_at rs (Z.to_nat i) [] ltac:(lia)) as [E L].
  set (l1 := firstn (Z.to_nat i) rs) in *.
  set (r := nth (Z.to_nat i) rs []) in *.
  set (l2 := skipn (S (Z.to_nat i)) rs) in *.
  assert (Hi' : i = len l1) by (unfold len; lia).
  clearbody l1 r l2. subst rs i.
  rewrite at_prefix_sums_before, concat_app. cbn [concat].
  apply bytes_at_inside.
Qed.

Lemma len_nth_le_concat {A} (rs : list (list A)) i :
  len (nth i rs []) <= len (concat rs).
Proof.
  destruct (Nat.lt_ge_cases i (length rs)) as [Hi|Hi].
  - destruct (split_at rs i [] Hi) as [E _]. rewrite E at 2.
    rewrite concat_app. cbn [concat]. rewrite !len_app.
    pose proof (len_nonneg (concat (firstn i rs))).
    pose proof (len_nonneg (concat (skipn (S i) rs))). lia.
  - rewrite nth_overflow by lia. apply len_nonneg.
Qed.

(** *** replicate on a column given by its rows *)

Lemma concat_repeat_len {A} (r : list A) n :
  len (concat (repeat r n)) = Z.of_nat n * len r.
Proof.
  induction n; [reflexivity|]. cbn [repeat concat]. rewrite len_app. lia.
Qed.

Lemma replicate_row_spec c pso r n : forall out,
  bytes_at (chars c) pso (len r) = r ->
  len (concat out) + Z.of_nat n * len r < 2 ^ Offset_bits ->
  replicate_row Offset_bits n c pso (len r) (copy_of out)
  = copy_of (out ++ repeat r n).
Proof.
  induction n as [|n IH]; intros out Hr Hfit.
  - simpl. now rewrite app_nil_r.
  - pose proof (len_nonneg (concat out)). pose proof (len_nonneg r).
    assert (Hfit64 : len (concat out) + len r < 2 ^ 64)
      by (apply Offset_range_size_t; nia).
    cbn [replicate_row].
    change (res_chars (copy_of out)) with (concat out).
    change (res_offsets (copy_of out)) with (prefix_sums 0 out).
    change (current_new_offset (copy_of out)) with (len (concat out)).
    rewrite to_Offset_small by nia.
    rewrite (to_size_t_small (len (concat out) + len r)) by lia.
    rewrite pod_resize_grow by lia. rewrite len_app, len_repeat.
    rewrite Z2Nat.id by lia.
    replace (len (concat out) + len r - len r) with (len (concat out)) by lia.
    rewrite to_size_t_small by lia.
    rewrite Hr, to_nat_len, memcpy_append.
    assert (E : mkCopy (len (concat out) + len r)
                       (prefix_sums 0 out ++ [len (concat out) + len r])
                       (concat out ++ r) = copy_of (out ++ [r])).
    { unfold copy_of. rewrite prefix_sums_app, concat_app. cbn.
      rewrite app_nil_r, len_app. reflexivity. }
    rewrite E, IH; [rewrite <- app_assoc; reflexivity|exact Hr|].
    rewrite concat_app, len_app. cbn [concat]. rewrite app_nil_r. nia.
Qed.

Lemma replicate_loop_spec rs ro n : forall i out,
  (i + n = length rs)%nat -> length ro = length rs ->
  non_decreasing_from 0 ro = true -> back ro < 2 ^ Offset_bits ->
  len (concat rs) < 2 ^ Offset_bits ->
  len (concat (out ++ flat_map (replicated rs ro) (seq i n)))
  < 2 ^ Offset_bits ->
  replicate_loop Offset_bits n (of_rows rs) ro (Z.of_nat i)
                 (at_ ro (Z.of_nat i - 1))
                 (at_ (prefix_sums 0 rs) (Z.of_nat i - 1)) (copy_of out)
  = copy_of (out ++ flat_map (replicated rs ro) (seq i n)).
Proof.
  induction n as [|n IH]; intros i out Hin Hro Hnd Hback Hcs Hfit.
  - simpl. now rewrite app_nil_r.
  - cbn [replicate_loop seq flat_map] in *.
    rewrite offsets_of_rows.
    assert (Hi : 0 <= Z.of_nat i < len rs) by (unfold len; lia).
    assert (Hiro : Z.of_nat i < len ro) by (unfold len; lia).
    pose proof (non_decreasing_from_at 0 ro Hnd) as Hat.
    assert (Hcount : 0 <= at_ ro (Z.of_nat i) - at_ ro (Z.of_nat i - 1)
                     /\ at_ ro (Z.of_nat i) < 2 ^ Offset_bits).
    { destruct (Hat (Z.of_nat i) (len ro - 1)) as [H1 H2]; try lia.
      fold (back ro) in H2. split; [|lia].
      destruct (Nat.eq_dec i 0) as [->|Hi0];
        [rewrite (at_neg ro (Z.of_nat 0 - 1)) by lia; lia|].
      destruct (Hat (Z.of_nat i - 1) (Z.of_nat i)); lia. }
    assert (Hprev : 0 <= at_ ro (Z.of_nat i - 1)).
    { destruct (Nat.eq_dec i 0) as [->|Hi0];
        [rewrite (at_neg ro (Z.of_nat 0 - 1)) by lia; lia|].
      destruct (Hat (Z.of_nat i - 1) (Z.of_nat i - 1)); lia. }
    rewrite (to_Offset_small (at_ ro (Z.of_nat i) - at_ ro (Z.of_nat i - 1)))
      by lia.
    rewrite row_len_of_rows by exact Hi. rewrite Nat2Z.id.
    pose proof (len_nth_le_concat rs i) as Hle.
    pose proof (len_nonneg (nth i rs [])) as H0.
    rewrite to_Offset_small by lia.
    rewrite app_assoc in Hfit. rewrite concat_app, len_app in Hfit.
    pose proof (len_nonneg (concat (flat_map (replicated rs ro) (seq (S i) n)))).
    rewrite replicate_row_spec.
    + change (repeat (nth i rs [])
                (Z.to_nat (at_ ro (Z.of_nat i) - at_ ro (Z.of_nat i - 1))))
        with (replicated rs ro i).
      replace (Z.of_nat i + 1) with (Z.of_nat (S i)) by lia.
      replace (at_ ro (Z.of_nat i)) with (at_ ro (Z.of_nat (S i) - 1))
        by (f_equal; lia).
      replace (at_ (prefix_sums 0 rs) (Z.of_nat i))
        with (at_ (prefix_sums 0 rs) (Z.of_nat (S i) - 1)) by (f_equal; lia).
      rewrite IH; try assumption; try lia.
      * rewrite <- app_assoc. reflexivity.
      * rewrite concat_app, len_app. exact Hfit.
    + pose proof (bytes_at_row rs (Z.of_nat i) Hi) as Hb.
      rewrite Nat2Z.id in Hb. exact Hb.
    + unfold replicated in Hfit. rewrite concat_app, len_app in Hfit.
      rewrite concat_repeat_len in Hfit.
      set (k := Z.of_nat (Z.to_nat (at_ ro (Z.of_nat i)
                                    - at_ ro (Z.of_nat i - 1)))) in *.
      clearbody k.
      match type of Hfit with _ + len ?x < _ => pose proof (len_nonneg x) end.
      nia.
Qed.

Lemma replicate_of_rows rs ro :
  length ro = length rs ->
  non_decreasing_from 0 ro = true -> back ro < 2 ^ Offset_bits ->
  len (concat rs) < 2 ^ Offset_bits ->
  len (concat (flat_map (replicated rs ro) (seq 0 (length rs))))
  < 2 ^ Offset_bits ->
  replicate Offset_bits (of_rows rs) ro
  = Returned (of_rows (flat_map (replicated rs ro) (seq 0 (length rs)))).
Proof.
  intros Hro Hnd Hback Hcs Hfit. unfold replicate.
  rewrite size_of_rows. unfold len at 1 2. rewrite Hro, Z.eqb_refl.
  cbn [negb].
  destruct (len rs =? 0) eqn:E.
  - apply Z.eqb_eq, len_zero_nil in E. subst rs. reflexivity.
  - unfold len. rewrite Nat2Z.id.
    pose proof (replicate_loop_spec rs ro (length rs) 0 [] eq_refl Hro Hnd
                                    Hback Hcs Hfit) as H.
    cbn [app] in H. change (copy_of []) with (mkCopy 0 [] []) in H.
    change (Z.of_nat 0) with 0 in H. change (0 - 1) with (-1) in H.
    rewrite !at_neg in H by lia. rewrite H. reflexivity.
Qed.

(** *** permute on a column given by its rows *)

Lemma pod_resize_nil {A} (d : A) n : pod_resize d [] n = repeat d (Z.to_nat n).
Proof. unfold pod_resize. rewrite firstn_nil. simpl. f_equal. lia. Qed.

Lemma permute_loop_spec rs perm n : forall i out zs,
  length out = i -> length zs = n ->
  (forall k, (i <= k < i + n)%nat -> 0 <= at_ perm (Z.of_nat k) < len rs) ->
  len (concat rs) < 2 ^ Offset_bits ->
  len (concat (out ++ map (picked rs perm) (seq i n))) < 2 ^ Offset_bits ->
  fold_left (permute_step Offset_bits (of_rows rs) perm) (seq i n)
    (mkCopy (len (concat out)) (prefix_sums 0 out ++ zs)
            (concat out
               ++ repeat Byte.x00
                    (length (concat (map (picked rs perm) (seq i n))))))
  = copy_of (out ++ map (picked rs perm) (seq i n)).
Proof.
  induction n as [|n IH]; intros i out zs Hout Hzs Hperm Hcs Hfit.
  - destruct zs; [|discriminate]. simpl. now rewrite !app_nil_r.
  - destruct zs as [|z zs]; [discriminate|]. injection Hzs as Hzs.
    cbn [seq map fold_left concat] in *.
    assert (Hj : 0 <= at_ perm (Z.of_nat i) < len rs) by (apply Hperm; lia).
    unfold permute_step at 2.
    cbn [current_new_offset res_offsets res_chars].
    rewrite offsets_of_rows, chars_of_rows.
    rewrite row_len_of_rows by exact Hj. fold (picked rs perm i).
    pose proof (len_nth_le_concat rs (Z.to_nat (at_ perm (Z.of_nat i)))) as Hle.
    fold (picked rs perm i) in Hle.
    pose proof (len_nonneg (picked rs perm i)) as H0.
    pose proof (Offset_range_size_t _ Hcs) as Hcs64.
    rewrite to_size_t_small by lia.
    pose proof (bytes_at_row rs _ Hj) as Hb. fold (picked rs perm i) in Hb.
    rewrite Hb. rewrite length_app, repeat_app.
    rewrite memcpy_inside by (now rewrite repeat_length).
    pose proof (len_nonneg (concat out)) as Hco.
    replace (out ++ picked rs perm i :: map (picked rs perm) (seq (S i) n))
      with ((out ++ [picked rs perm i]) ++ map (picked rs perm) (seq (S i) n))
      in Hfit by (now rewrite <- app_assoc).
    rewrite concat_app, len_app in Hfit.
    pose proof (len_nonneg (concat (map (picked rs perm) (seq (S i) n)))).
    assert (Hfit1 : len (concat (out ++ [picked rs perm i])) < 2 ^ Offset_bits).
    { lia. }
    rewrite concat_app, len_app in Hfit1. cbn [concat] in Hfit1.
    rewrite app_nil_r in Hfit1.
    rewrite to_Offset_small by lia.
    replace (Z.of_nat i) with (len (prefix_sums 0 out))
      by (unfold len; rewrite length_prefix_sums; lia).
    rewrite set_at_app.
    replace (len (concat out) + len (picked rs perm i))
      with (len (concat (out ++ [picked rs perm i])))
      by (rewrite concat_app, len_app; cbn [concat]; now rewrite app_nil_r).
    replace (prefix_sums 0 out ++ len (concat (out ++ [picked rs perm i])) :: zs)
      with (prefix_sums 0 (out ++ [picked rs perm i]) ++ zs).
    2:{ rewrite prefix_sums_app. cbn [prefix_sums]. rewrite <- app_assoc.
        rewrite concat_app, len_app. cbn [concat]. rewrite app_nil_r.
        reflexivity. }
    replace (concat out ++ picked rs perm i
               ++ repeat Byte.x00
                    (length (concat (map (picked rs perm) (seq (S i) n)))))
      with (concat (out ++ [picked rs perm i])
              ++ repeat Byte.x00
                   (length (concat (map (picked rs perm) (seq (S i) n)))))
      by (rewrite concat_app; cbn [concat];
          now rewrite app_nil_r, <- app_assoc).
    rewrite IH.
    + now rewrite <- app_assoc.
    + rewrite length_app. simpl. lia.
    + exact Hzs.
    + intros k Hk. apply Hperm. lia.
    + exact Hcs.
    + rewrite concat_app, len_app. exact Hfit.
Qed.

Lemma permute_size_sum rs perm n : forall i acc,
  (forall k, (i <= k < i + n)%nat -> 0 <= at_ perm (Z.of_nat k) < len rs) ->
  len (concat rs) < 2 ^ 64 -> 0 <= acc ->
  acc + len (concat (map (picked rs perm) (seq i n))) < 2 ^ 64 ->
  fold_left
    (fun acc i =>
       to_size_t (acc + size_at (of_rows rs) (at_ perm (Z.of_nat i))))
    (seq i n) acc
  = acc + len (concat (map (picked rs perm) (seq i n))).
Proof.
  induction n as [|n IH]; intros i acc Hperm Hcs Hacc Hfit.
  - simpl. rewrite len_nil. lia.
  - cbn [seq map fold_left concat] in *. rewrite len_app in *.
    assert (Hj : 0 <= at_ perm (Z.of_nat i) < len rs) by (apply Hperm; lia).
    unfold size_at at 2. rewrite offsets_of_rows.
    rewrite row_len_of_rows by exact Hj. fold (picked rs perm i).
    pose proof (len_nonneg (picked rs perm i)).
    pose proof (len_nonneg (concat (map (picked rs perm) (seq (S i) n)))).
    rewrite (to_size_t_small (len (picked rs perm i))) by lia.
    rewrite to_size_t_small by lia.
    rewrite IH; try assumption; try lia.
    intros k Hk. apply Hperm. lia.
Qed.

Lemma weight_app rs l1 l2 : weight rs (l1 ++ l2) = weight rs l1 + weight rs l2.
Proof. unfold weight. now rewrite map_app, concat_app, len_app. Qed.

Lemma weight_perm rs l l' : Permutation l l' -> weight rs l = weight rs l'.
Proof.
  unfold weight. induction 1; cbn [map concat]; rewrite ?len_app; lia.
Qed.

Lemma weight_all rs : weight rs (map Z.of_nat (seq 0 (length rs))) = len (concat rs).
Proof.
  unfold weight. rewrite map_map. f_equal. f_equal.
  apply map_seq_nth with (d := []). intros i _. now rewrite Nat2Z.id.
Qed.

Lemma at_firstn perm n k :
  (k < n)%nat -> at_ (firstn n perm) (Z.of_nat k) = at_ perm (Z.of_nat k).
Proof.
  intros H. unfold at_.
  destruct (Z.of_nat k <? 0) eqn:E; [reflexivity|].
  rewrite Nat2Z.id. clear E. revert perm k H.
  induction n; intros [|p perm] [|k] H; simpl; try reflexivity; try lia.
  apply IHn. lia.
Qed.

Lemma map_picked rs perm n :
  (n <= length perm)%nat ->
  map (picked rs perm) (seq 0 n)
  = map (fun j => nth (Z.to_nat j) rs []) (firstn n perm).
Proof.
  intros Hn.
  rewrite <- (map_seq_nth (fun k => at_ perm (Z.of_nat k)) (firstn n perm) 0).
  - rewrite map_map, length_firstn. replace (Nat.min n (length perm)) with n by lia.
    reflexivity.
  - intros i Hi. rewrite length_firstn in Hi.
    rewrite <- (at_firstn perm n i) by lia.
    unfold at_. destruct (Z.of_nat i <? 0) eqn:E; [apply Z.ltb_lt in E; lia|].
    now rewrite Nat2Z.id.
Qed.

Lemma permute_of_rows rs perm limit rest :
  0 <= limit ->
  effective_limit (len rs) limit <= len perm ->
  Permutation
    (firstn (Z.to_nat (effective_limit (len rs) limit)) perm ++ rest)
    (map Z.of_nat (seq 0 (length rs))) ->
  len (concat rs) < 2 ^ Offset_bits ->
  permute Offset_bits (of_rows rs) perm limit
  = Returned
      (of_rows (map (picked rs perm)
                    (seq 0 (Z.to_nat (effective_limit (len rs) limit))))).
Proof.
  intros Hlimit Hsize Hperm Hcs.
  pose proof (len_nonneg rs) as Hrs.
  pose proof (Offset_range_size_t _ Hcs) as Hcs64.
  unfold permute. rewrite offsets_of_rows, len_prefix_sums.
  fold (effective_limit (len rs) limit).
  set (eff := effective_limit (len rs) limit) in *.
  assert (Heff : 0 <= eff <= len rs).
  { unfold eff, effective_limit. destruct (limit =? 0); lia. }
  destruct (len perm <? eff) eqn:E; [apply Z.ltb_lt in E; lia|clear E].
  destruct (eff =? 0) eqn:E0.
  { apply Z.eqb_eq in E0. rewrite E0. reflexivity. }
  apply Z.eqb_neq in E0.
  assert (Hn : (Z.to_nat eff <= length perm)%nat) by (unfold len in Hsize; lia).
  (* the selected entries are row indices *)
  assert (Hidx : forall k, (0 <= k < 0 + Z.to_nat eff)%nat ->
                           0 <= at_ perm (Z.of_nat k) < len rs).
  { intros k Hk.
    assert (Hin : In (at_ perm (Z.of_nat k))
                     (map Z.of_nat (seq 0 (length rs)))).
    { eapply Permutation_in; [exact Hperm|]. apply in_or_app; left.
      rewrite <- (at_firstn perm (Z.to_nat eff) k) by lia.
      unfold at_. destruct (Z.of_nat k <? 0) eqn:E; [apply Z.ltb_lt in E; lia|].
      apply nth_In. rewrite length_firstn, Nat2Z.id. lia. }
    apply in_map_iff in Hin as [j [<- Hj]]. apply in_seq in Hj.
    unfold len. lia. }
  (* they select at most the bytes of the column *)
  pose proof (weight_perm rs _ _ Hperm) as Hw.
  rewrite weight_app, weight_all in Hw.
  assert (Hsel : weight rs (firstn (Z.to_nat eff) perm)
                 = len (concat (map (picked rs perm) (seq 0 (Z.to_nat eff))))).
  { unfold weight. now rewrite map_picked. }
  rewrite Hsel in Hw.
  assert (Hrest0 : 0 <= weight rs rest) by apply len_nonneg.
  set (sel := map (picked rs perm) (seq 0 (Z.to_nat eff))) in *.
  assert (Hsel0 : 0 <= len (concat sel)) by apply len_nonneg.
  assert (Hsize_ok :
            (if eff =? len rs then len (chars (of_rows rs))
             else fold_left
                    (fun acc i =>
                       to_size_t
                         (acc + size_at (of_rows rs) (at_ perm (Z.of_nat i))))
                    (seq 0 (Z.to_nat eff)) 0)
            = len (concat sel)).
  { destruct (eff =? len rs) eqn:E.
    - apply Z.eqb_eq in E. rewrite chars_of_rows.
      apply Permutation_length in Hperm.
      rewrite length_app, length_firstn, length_map, length_seq in Hperm.
      assert (Hr : rest = []) by (destruct rest; [reflexivity|];
                                  unfold len in *; simpl in Hperm; lia).
      subst rest. change (weight rs []) with 0 in Hw. lia.
    - rewrite permute_size_sum;
        [fold sel; lia|exact Hidx|exact Hcs64|lia|fold sel; lia]. }
  rewrite Hsize_ok. rewrite !pod_resize_nil, to_nat_len.
  pose proof (permute_loop_spec rs perm (Z.to_nat eff) 0 []
                                (repeat 0 (Z.to_nat eff)) eq_refl
                                (repeat_length _ _) Hidx Hcs) as Hloop.
  cbn [app concat prefix_sums] in Hloop. fold sel in Hloop.
  change (len []) with 0 in Hloop.
  rewrite Hloop by lia. reflexivity.
Qed.

(** ** The claims about the variable-length column *)

(** From a column that satisfies the invariants to the list of its rows. *)
Ltac by_rows c rs Hinv Hfit :=
  let E := fresh "E" in
  pose proof (invariants_rows c Hinv (Offset_range_size_t _ Hfit)) as E;
  set (rs := rows c) in *; clearbody rs; subst c;
  rewrite ?chars_of_rows, ?size_of_rows in *.

(** C10.  [insert_range_from(src, start, 0)] returns with the destination
    column unchanged and never reaches the fatal bounds check, whatever
    [start] is, also when [start] alone exceeds the row count of [src]:
    the check is evaluated only when [length > 0], where an out-of-bounds
    range is fatal. *)
Theorem insert_range_from_length_zero (dst src : t) (start : Z) :
  insert_range_from Offset_bits dst src start 0 = Returned dst
  /\ forall count,
       0 < count -> size src < start + count < 2 ^ 64 ->
       exists msg,
         insert_range_from Offset_bits dst src start count = Fatal msg.
Proof.
  split; [reflexivity|]. intros count Hcount Hrange.
  unfold insert_range_from.
  destruct (count =? 0) eqn:E; [apply Z.eqb_eq in E; lia|].
  pose proof (len_nonneg (offsets src)) as Hsize. fold (size src) in Hsize.
  rewrite to_size_t_small by lia.
  destruct (size src <? start + count) eqn:E1; [eauto|].
  apply Z.ltb_ge in E1. lia.
Qed.

(** C2, amended.  [clone_resized(to_size)] returns a column of exactly
    [to_size] rows.  If [to_size <= N] its rows are the first [to_size]
    rows of the source.  If [to_size > N] they are the rows of the source
    followed by [to_size - N] rows that each hold one zero byte: every
    appended row adds an offset entry and one zero byte to the byte
    buffer. *)
Theorem clone_resized_rows (c : t) (to_size : Z) :
  invariants c -> len (chars c) < 2 ^ Offset_bits -> 0 <= to_size ->
  (size c < to_size ->
   len (chars c) + (to_size - size c) < 2 ^ Offset_bits) ->
  size (clone_resized Offset_bits c to_size) = to_size
  /\ (to_size <= size c ->
      rows (clone_resized Offset_bits c to_size)
      = firstn (Z.to_nat to_size) (rows c))
  /\ (size c < to_size ->
      rows (clone_resized Offset_bits c to_size)
      = rows c ++ repeat [Byte.x00] (Z.to_nat (to_size - size c))
      /\ chars (clone_resized Offset_bits c to_size)
         = chars c ++ repeat Byte.x00 (Z.to_nat (to_size - size c))).
Proof.
  intros Hinv Hfit Hto Hgrow. by_rows c rs Hinv Hfit.
  pose proof (len_nonneg rs) as Hrs.
  pose proof (Offset_range_size_t _ Hfit) as Hfit64.
  destruct (Z.le_gt_cases to_size (len rs)) as [Hle|Hgt].
  - rewrite clone_resized_of_rows_shrink by lia.
    rewrite size_of_rows. repeat split; try lia.
    + unfold len. rewrite length_firstn. unfold len in Hle. lia.
    + intros _. apply rows_of_rows.
      pose proof (len_concat_firstn_le (Z.to_nat to_size) rs). lia.
  - specialize (Hgrow ltac:(lia)).
    rewrite clone_resized_of_rows_grow by lia.
    rewrite size_of_rows, chars_of_rows, concat_app, concat_repeat_single.
    repeat split; try lia.
    + rewrite len_app, len_repeat. lia.
    + apply rows_of_rows.
      rewrite concat_app, concat_repeat_single, len_app, len_repeat.
      apply Offset_range_size_t. lia.
Qed.

(** C6.  [serialize_value_into_arena] writes the 8-byte little-endian
    length of the row followed by the row's bytes and returns a view of
    size 8 + length over them; [deserialize_and_insert_from_arena] on that
    region and a fresh column yields the column whose only row is the
    serialized one, with one offset entry, and returns the address behind
    the 8 + length bytes. *)
Theorem arena_round_trip (c : t) (n : Z) (arena : list byte) :
  invariants c -> len (chars c) < 2 ^ Offset_bits -> 0 <= n < size c ->
  sizeof_size_t + len (row c n) < 2 ^ 64 ->
  let ref := fst (serialize_value_into_arena c n arena) in
  let arena' := snd (serialize_value_into_arena c n arena) in
  let res := deserialize_and_insert_from_arena Offset_bits create arena'
                                               (data ref) in
  ref_size ref = 8 + len (row c n)
  /\ bytes_at arena' (data ref) (ref_size ref)
     = le_split 8 (len (row c n)) ++ row c n
  /\ le_combine (le_split 8 (len (row c n))) = len (row c n)
  /\ fst res = data ref + ref_size ref
  /\ snd res = mk [len (row c n)] (row c n)
  /\ rows (snd res) = [row c n].
Proof.
  intros Hinv Hfit Hn Hser.
  pose proof (Offset_range_size_t _ Hfit) as Hfit64.
  revert Hser. by_rows c rs Hinv Hfit.
  rewrite row_of_rows by assumption. intros Hser.
  assert (Hrow_fit : len (nth (Z.to_nat n) rs []) < 2 ^ Offset_bits).
  { pose proof (len_nth_le_concat rs (Z.to_nat n)). lia. }
  rewrite serialize_value_into_arena_spec by assumption.
  set (r := nth (Z.to_nat n) rs []) in *. cbn [fst snd data ref_size].
  pose proof (len_nonneg r) as Hr. unfold sizeof_size_t in *.
  assert (Hhdr : len (size_t_bytes (len r)) = 8)
    by (unfold size_t_bytes, len; now rewrite length_le_split).
  assert (Hload : unaligned_load_size_t
                    (arena ++ size_t_bytes (len r) ++ r) (len arena) = len r).
  { unfold unaligned_load_size_t, sizeof_size_t. rewrite <- Hhdr.
    rewrite bytes_at_inside. unfold size_t_bytes.
    rewrite le_combine_split. apply Z.mod_small. simpl Z.of_nat. lia. }
  assert (Hpayload : bytes_at (arena ++ size_t_bytes (len r) ++ r)
                              (len arena + 8) (len r) = r).
  { rewrite <- Hhdr, <- len_app, app_assoc.
    rewrite <- (app_nil_r r) at 2. apply bytes_at_inside. }
  replace create with (of_rows []) by reflexivity.
  rewrite deserialize_of_rows by (rewrite Hload; simpl; lia).
  rewrite Hload. unfold sizeof_size_t. rewrite Hpayload. cbn [fst snd app].
  repeat split.
  - replace (8 + len r) with (len (size_t_bytes (len r) ++ r))
      by (rewrite len_app; lia).
    rewrite <- (app_nil_r (size_t_bytes (len r) ++ r)) at 1.
    rewrite bytes_at_inside. reflexivity.
  - rewrite le_combine_split. apply Z.mod_small. simpl Z.of_nat. lia.
  - lia.
  - unfold of_rows. simpl. now rewrite app_nil_r.
  - apply rows_of_rows. simpl. rewrite app_nil_r. lia.
Qed.

Lemma range_len rs start cnt :
  0 <= start -> 0 < cnt -> start + cnt <= len rs ->
  at_ (prefix_sums 0 rs) (start + cnt - 1) - at_ (prefix_sums 0 rs) (start - 1)
  = len (concat (firstn (Z.to_nat cnt) (skipn (Z.to_nat start) rs))).
Proof.
  intros Hs Hc Hb. rewrite !at_prefix_sums_firstn by lia.
  replace (Z.to_nat (start + cnt - 1 + 1))
    with (Z.to_nat start + Z.to_nat cnt)%nat by lia.
  replace (start - 1 + 1) with start by lia.
  rewrite firstn_plus, concat_app, len_app. lia.
Qed.

Section Invariants.

Variable default_row : list byte.

(** C1, amended.  With the third invariant read as "an empty column has no
    bytes", the invariants are preserved by [insert_range_from] on an
    in-bounds range, by [deserialize_and_insert_from_arena], by
    [clone_resized] and by [resize] to a row count that is not smaller,
    whenever the resulting byte count is representable in the offset
    type. *)
Theorem invariants_preserved (c : t) :
  invariants c -> len (chars c) < 2 ^ Offset_bits ->
  (forall n,
      size c <= n -> n < 2 ^ 64 ->
      len (chars c) + (n - size c) * len default_row < 2 ^ Offset_bits ->
      invariants (resize Offset_bits default_row c n))
  /\ (forall src start count,
         invariants src -> len (chars src) < 2 ^ Offset_bits ->
         0 <= start -> 0 <= count -> start + count <= size src ->
         size src < 2 ^ 64 -> size c + count < 2 ^ 64 ->
         len (chars c)
         + (at_ (offsets src) (start + count - 1) - offset_at src start)
         < 2 ^ Offset_bits ->
         exists res,
           insert_range_from Offset_bits c src start count = Returned res
           /\ invariants res)
  /\ (forall mem pos,
         len (chars c) + unaligned_load_size_t mem pos < 2 ^ Offset_bits ->
         invariants
           (snd (deserialize_and_insert_from_arena Offset_bits c mem pos)))
  /\ (forall to_size,
         0 <= to_size ->
         (size c < to_size ->
          len (chars c) + (to_size - size c) < 2 ^ Offset_bits) ->
         invariants (clone_resized Offset_bits c to_size)).
Proof.
  intros Hinv Hfit. pose proof Hinv as Hinv0. by_rows c rs Hinv Hfit.
  pose proof (len_nonneg rs) as Hrs. split; [|split; [|split]].
  - intros n Hn H64 Hgrow.
    rewrite resize_of_rows_grow by assumption. apply invariants_of_rows.
  - intros src start cnt Hsrc Hsfit Hstart Hcnt Hbound Hs64 Hd64 Hgrow.
    destruct (Z.eq_dec cnt 0) as [->|Hne].
    { exists (of_rows rs). split; [reflexivity|exact Hinv0]. }
    revert Hgrow. unfold offset_at. by_rows src ss Hsrc Hsfit.
    rewrite offsets_of_rows, range_len by lia. intros Hgrow.
    eexists. split.
    + apply insert_range_from_of_rows; try assumption; lia.
    + apply invariants_of_rows.
  - intros mem pos Hgrow. rewrite deserialize_of_rows by assumption.
    apply invariants_of_rows.
  - intros to_size Hto Hgrow.
    destruct (Z.le_gt_cases to_size (len rs)) as [Hle|Hgt].
    + rewrite clone_resized_of_rows_shrink by lia. apply invariants_of_rows.
    + rewrite clone_resized_of_rows_grow by (try apply Hgrow; lia).
      apply invariants_of_rows.
Qed.

End Invariants.

(** *** replicate *)

Lemma nth_rows c j :
  (j < length (offsets c))%nat -> nth j (rows c) [] = row c (Z.of_nat j).
Proof.
  intros Hj. unfold rows.
  rewrite nth_indep with (d' := row c (Z.of_nat 0))
    by (now rewrite length_map, length_seq).
  rewrite map_nth with (f := fun i => row c (Z.of_nat i)) (d := 0%nat).
  now rewrite seq_nth.
Qed.

Lemma flat_map_ext_on {A B} (f g : A -> list B) l :
  (forall a, In a l -> f a = g a) -> flat_map f l = flat_map g l.
Proof.
  intros H. rewrite !flat_map_concat_map. f_equal. now apply map_ext_in.
Qed.

Lemma flat_map_singletons {A} (f : nat -> list A) (l : list A) (d : A) :
  (forall j, (j < length l)%nat -> f j = [nth j l d]) ->
  flat_map f (seq 0 (length l)) = l.
Proof.
  intros H.
  rewrite flat_map_ext_on with (g := fun j => [nth j l d])
    by (intros j Hj; apply in_seq in Hj; apply H; lia).
  rewrite flat_map_concat_map, <- (map_map (fun j => nth j l d) (fun x => [x])).
  rewrite map_seq_nth with (l := l) (d := d) by reflexivity.
  clear H. induction l; simpl; congruence.
Qed.

Lemma replicated_length rs ro n :
  non_decreasing_from 0 ro = true -> (n <= length ro)%nat ->
  len (flat_map (replicated rs ro) (seq 0 n)) = at_ ro (Z.of_nat n - 1).
Proof.
  intros Hnd. pose proof (non_decreasing_from_at 0 ro Hnd) as Hat.
  induction n as [|n IH]; intros Hn; [reflexivity|].
  rewrite seq_S, flat_map_app, len_app, IH by lia.
  cbn [flat_map plus]. rewrite app_nil_r. unfold replicated.
  rewrite len_repeat.
  replace (Z.of_nat (S n) - 1) with (Z.of_nat n) by lia.
  assert (at_ ro (Z.of_nat n - 1) <= at_ ro (Z.of_nat n)).
  { destruct n as [|n].
    - rewrite (at_neg ro (Z.of_nat 0 - 1)) by lia.
      destruct (Hat (Z.of_nat 0) (Z.of_nat 0)); unfold len; lia.
    - destruct (Hat (Z.of_nat (S n) - 1) (Z.of_nat (S n))); unfold len; lia. }
  lia.
Qed.

(** C4, amended.  The argument of the overload that returns a column is
    the array of cumulative counts [replicate_offsets]: row [i] of the
    source is repeated [replicate_offsets[i] - replicate_offsets[i-1]]
    times in output order, the result has [replicate_offsets.back()] rows,
    and when [replicate_offsets[i] = i + 1] for every [i] the result is
    the source column.  A length other than the row count is fatal. *)
Theorem replicate_by_offsets (c : t) (replicate_offsets : list Z) :
  invariants c -> len (chars c) < 2 ^ Offset_bits ->
  (len replicate_offsets <> size c ->
   exists msg, replicate Offset_bits c replicate_offsets = Fatal msg)
  /\ (len replicate_offsets = size c ->
      non_decreasing_from 0 replicate_offsets = true ->
      back replicate_offsets < 2 ^ Offset_bits ->
      len (concat
             (flat_map
                (fun i =>
                   repeat (row c (Z.of_nat i))
                          (Z.to_nat (at_ replicate_offsets (Z.of_nat i)
                                     - at_ replicate_offsets (Z.of_nat i - 1))))
                (seq 0 (length (offsets c)))))
      < 2 ^ Offset_bits ->
      exists res,
        replicate Offset_bits c replicate_offsets = Returned res
        /\ rows res
           = flat_map
               (fun i =>
                  repeat (row c (Z.of_nat i))
                         (Z.to_nat (at_ replicate_offsets (Z.of_nat i)
                                    - at_ replicate_offsets (Z.of_nat i - 1))))
               (seq 0 (length (offsets c)))
        /\ size res = back replicate_offsets
        /\ (replicate_offsets
            = map (fun i => Z.of_nat (S i)) (seq 0 (length (offsets c))) ->
            res = c)).
Proof.
  intros Hinv Hfit. split.
  - intros Hne. unfold replicate.
    destruct (size c =? len replicate_offsets) eqn:E;
      [apply Z.eqb_eq in E; lia|]. simpl. eauto.
  - intros Hlen Hnd Hback Hout.
    assert (Hext : flat_map
               (fun i =>
                  repeat (row c (Z.of_nat i))
                         (Z.to_nat (at_ replicate_offsets (Z.of_nat i)
                                    - at_ replicate_offsets (Z.of_nat i - 1))))
               (seq 0 (length (offsets c)))
             = flat_map (replicated (rows c) replicate_offsets)
                        (seq 0 (length (offsets c)))).
    { apply flat_map_ext_on. intros j Hj. apply in_seq in Hj.
      unfold replicated. rewrite nth_rows by lia. reflexivity. }
    rewrite Hext in *. clear Hext.
    assert (Hn : length (offsets c) = length (rows c))
      by (unfold rows; now rewrite length_map, length_seq).
    rewrite Hn in *. unfold size, len in Hlen. rewrite Hn in Hlen.
    clear Hn. by_rows c rs Hinv Hfit.
    assert (Hlen' : length replicate_offsets = length rs) by lia.
    eexists. split; [apply replicate_of_rows; assumption|].
    pose proof (Offset_range_size_t _ Hout) as Hout64.
    split; [now apply rows_of_rows|]. split.
    + rewrite size_of_rows, replicated_length by (trivial; lia).
      unfold back, len. now rewrite Hlen'.
    + intros Hones. f_equal. apply flat_map_singletons with (d := []).
      intros j Hj.
      unfold replicated. subst replicate_offsets.
      assert (Hat : forall k, (k < length rs)%nat ->
                at_ (map (fun i => Z.of_nat (S i)) (seq 0 (length rs)))
                    (Z.of_nat k) = Z.of_nat (S k)).
      { intros k Hk. unfold at_.
        destruct (Z.of_nat k <? 0) eqn:E; [apply Z.ltb_lt in E; lia|].
        rewrite Nat2Z.id.
        rewrite nth_indep with (d' := Z.of_nat (S 0))
          by (now rewrite length_map, length_seq).
        rewrite map_nth with (f := fun i => Z.of_nat (S i)) (d := 0%nat).
        now rewrite seq_nth. }
      rewrite Hat by lia. destruct j as [|j].
      * rewrite at_neg by lia. reflexivity.
      * replace (Z.of_nat (S j) - 1) with (Z.of_nat j) by lia.
        rewrite Hat by lia.
        replace (Z.to_nat (Z.of_nat (S (S j)) - Z.of_nat (S j))) with 1%nat
          by lia.
        reflexivity.
Qed.

(** *** permute *)

Lemma length_set_at {A} (l : list A) i v : length (set_at l i v) = length l.
Proof.
  unfold set_at. destruct (i <? 0); [reflexivity|].
  generalize (Z.to_nat i). clear i. intros i. revert i.
  induction l as [|x l IH]; intros [|i]; simpl; auto.
Qed.

Lemma permute_fold_length c perm l : forall st,
  length (res_offsets (fold_left (permute_step Offset_bits c perm) l st))
  = length (res_offsets st).
Proof.
  induction l as [|i l IH]; intros st; [reflexivity|].
  cbn [fold_left]. rewrite IH. unfold permute_step.
  cbn [res_offsets]. apply length_set_at.
Qed.

Lemma permuted_entries_in_range (rs : list (list byte)) perm n rest k :
  Permutation (firstn n perm ++ rest) (map Z.of_nat (seq 0 (length rs))) ->
  (n <= length perm)%nat -> (k < n)%nat ->
  0 <= at_ perm (Z.of_nat k) < len rs.
Proof.
  intros Hperm Hn Hk.
  assert (Hin : In (at_ perm (Z.of_nat k)) (map Z.of_nat (seq 0 (length rs)))).
  { eapply Permutation_in; [exact Hperm|]. apply in_or_app; left.
    rewrite <- (at_firstn perm n k) by lia.
    unfold at_. destruct (Z.of_nat k <? 0) eqn:E; [apply Z.ltb_lt in E; lia|].
    apply nth_In. rewrite length_firstn, Nat2Z.id. lia. }
  apply in_map_iff in Hin as [j [<- Hj]]. apply in_seq in Hj.
  unfold len. lia.
Qed.

(** C7, amended.  [permute(perm, limit)] works with the effective limit:
    the row count N when [limit == 0], otherwise [min(N, limit)].  It
    fails with the fatal error exactly when [perm.size()] is smaller than
    the effective limit.  Otherwise it returns a column with as many rows
    as the effective limit, and when the entries of [perm] it reads are
    distinct row indices, row [i] of the result is row [perm[i]] of the
    source. *)
Theorem permute_effective_limit (c : t) (perm : list Z) (limit : Z) :
  invariants c -> len (chars c) < 2 ^ Offset_bits -> 0 <= limit ->
  (len perm < effective_limit (size c) limit ->
   exists msg, permute Offset_bits c perm limit = Fatal msg)
  /\ (effective_limit (size c) limit <= len perm ->
      exists res,
        permute Offset_bits c perm limit = Returned res
        /\ size res = effective_limit (size c) limit)
  /\ (forall rest,
         effective_limit (size c) limit <= len perm ->
         Permutation
           (firstn (Z.to_nat (effective_limit (size c) limit)) perm ++ rest)
           (map Z.of_nat (seq 0 (length (offsets c)))) ->
         exists res,
           permute Offset_bits c perm limit = Returned res
           /\ size res = effective_limit (size c) limit
           /\ forall i, 0 <= i < effective_limit (size c) limit ->
                        row res i = row c (at_ perm i)).
Proof.
  intros Hinv Hfit Hlimit.
  split; [|split].
  - intros Hlt. unfold permute. fold (size c).
    fold (effective_limit (size c) limit).
    apply Z.ltb_lt in Hlt. rewrite Hlt. eauto.
  - intros Hge. unfold permute. fold (size c).
    fold (effective_limit (size c) limit).
    assert (Heff : 0 <= effective_limit (size c) limit).
    { pose proof (len_nonneg (offsets c)). unfold effective_limit, size.
      destruct (limit =? 0); lia. }
    apply Z.ltb_ge in Hge. rewrite Hge.
    set (eff := effective_limit (size c) limit) in *.
    destruct (eff =? 0) eqn:E0.
    + apply Z.eqb_eq in E0. rewrite E0. eexists. split; reflexivity.
    + eexists. split; [reflexivity|]. unfold size at 1. unfold len.
      cbn [offsets].
      rewrite permute_fold_length. cbn [res_offsets].
      rewrite pod_resize_nil, repeat_length. lia.
  - intros rest Hge Hperm.
    assert (Hn : length (offsets c) = length (rows c))
      by (unfold rows; now rewrite length_map, length_seq).
    rewrite Hn in Hperm. clear Hn. by_rows c rs Hinv Hfit.
    pose proof (Offset_range_size_t _ Hfit) as Hfit64.
    set (eff := effective_limit (len rs) limit) in *.
    assert (Heff : 0 <= eff <= len rs).
    { pose proof (len_nonneg rs). unfold eff, effective_limit.
      destruct (limit =? 0); lia. }
    assert (Hn : (Z.to_nat eff <= length perm)%nat) by (unfold len in Hge; lia).
    pose proof (weight_perm rs _ _ Hperm) as Hw.
    rewrite weight_app, weight_all in Hw.
    assert (Hsel : weight rs (firstn (Z.to_nat eff) perm)
                   = len (concat (map (picked rs perm) (seq 0 (Z.to_nat eff)))))
      by (unfold weight; now rewrite map_picked).
    assert (Hrest0 : 0 <= weight rs rest) by apply len_nonneg.
    eexists. split; [eapply permute_of_rows; eassumption|].
    fold eff. split.
    + rewrite size_of_rows. unfold len. rewrite length_map, length_seq. lia.
    + intros i Hi.
      rewrite row_of_rows;
        [|lia|unfold len; rewrite length_map, length_seq; lia].
      pose proof (permuted_entries_in_range rs perm (Z.to_nat eff) rest
                    (Z.to_nat i) Hperm Hn ltac:(lia)) as Hidx.
      rewrite Z2Nat.id in Hidx by lia.
      rewrite row_of_rows by assumption.
      rewrite nth_indep with (d' := picked rs perm 0)
        by (rewrite length_map, length_seq; lia).
      rewrite map_nth with (f := picked rs perm) (d := 0%nat).
      rewrite seq_nth by lia. unfold picked. simpl plus.
      now rewrite Z2Nat.id by lia.
Qed.

End Operations.

(** *** Concrete columns *)

Local Open Scope byte_scope.

Lemma spec_invariants_intro c :
  check_invariants c = true -> (chars c = [] -> size c = 0) ->
  spec_invariants c.
Proof.
  intros Hc Hne. destruct (check_invariants_sound c Hc) as [H1 H2 H3 H4].
  constructor; try assumption. split; assumption.
Qed.

(** C1, counterexample.  Both columns satisfy the invariants as the spec
    lists them; appending the empty second row of [with_empty_row] to the
    empty column leaves one row and no bytes, so "chars is empty iff
    N == 0" does not hold afterwards. *)
Lemma spec_invariants_not_preserved :
  spec_invariants create /\ spec_invariants with_empty_row
  /\ insert_range_from 32 create with_empty_row 1 1 = Returned (mk [0] [])
  /\ ~ spec_invariants (mk [0] []).
Proof.
  split; [|split; [|split]].
  - apply spec_invariants_intro; reflexivity.
  - apply spec_invariants_intro; [reflexivity|discriminate].
  - reflexivity.
  - intros [_ _ [H _] _]. specialize (H eq_refl). discriminate.
Qed.

(** [resize] to a smaller row count shortens [offsets] only: the bytes of
    the dropped rows stay in [chars]. *)
Fact resize_shrink_keeps_bytes :
  resize 32 [Byte.x00] two_rows 1 = mk [1] ["a"; "b"; "c"]
  /\ ~ invariants (resize 32 [Byte.x00] two_rows 1).
Proof.
  split; [reflexivity|]. intros [_ H _ _].
  specialize (H ltac:(reflexivity)). discriminate.
Qed.

Lemma invariants_preserved_witness :
  invariants two_rows
  /\ invariants (resize 32 [Byte.x00] two_rows 4)
  /\ (exists res,
         insert_range_from 32 two_rows with_empty_row 0 2 = Returned res
         /\ invariants res)
  /\ invariants (clone_resized 32 two_rows 3).
Proof.
  assert (H : invariants two_rows) by (apply check_invariants_sound; reflexivity).
  destruct (invariants_preserved 32 ltac:(lia) [Byte.x00] two_rows H
                                 ltac:(reflexivity))
    as [Hresize [Hinsert [_ Hclone]]].
  split; [exact H|]. split; [|split].
  - apply Hresize; reflexivity || (intros E; discriminate E).
  - apply Hinsert; try reflexivity; try (intros E; discriminate E).
    apply check_invariants_sound; reflexivity.
  - apply Hclone; [intros E; discriminate E|reflexivity].
Defined.

Lemma insert_range_from_length_zero_witness :
  insert_range_from 32 two_rows two_rows 5 0 = Returned two_rows
  /\ exists msg, insert_range_from 32 two_rows two_rows 5 1 = Fatal msg.
Proof.
  destruct (insert_range_from_length_zero 32 two_rows two_rows 5)
    as [Hzero Hpos].
  split; [exact Hzero|]. apply Hpos; [lia|]. split; reflexivity.
Defined.

(** C2, counterexample.  Growing the empty column to one row adds a byte
    to the byte buffer, and the new row is not of zero length. *)
Lemma clone_resized_appends_zero_bytes :
  ~ (rows (clone_resized 32 create 1) = rows create ++ repeat [] 1
     /\ chars (clone_resized 32 create 1) = chars create).
Proof. intros [H _]. discriminate H. Qed.

Lemma clone_resized_rows_witness :
  invariants two_rows
  /\ size (clone_resized 32 two_rows 4) = 4
  /\ rows (clone_resized 32 two_rows 4)
     = rows two_rows ++ repeat [Byte.x00] (Z.to_nat (4 - size two_rows)).
Proof.
  assert (H : invariants two_rows) by (apply check_invariants_sound; reflexivity).
  destruct (clone_resized_rows 32 ltac:(lia) two_rows 4 H ltac:(reflexivity)
                               ltac:(lia) ltac:(reflexivity))
    as [Hsize [_ Hgrow]].
  split; [exact H|]. split; [exact Hsize|]. apply Hgrow. reflexivity.
Defined.

Lemma arena_round_trip_witness :
  rows (snd (deserialize_and_insert_from_arena
               32 create
               (snd (serialize_value_into_arena two_rows 1 ["001"]))
               (data (fst (serialize_value_into_arena two_rows 1 ["001"])))))
  = [row two_rows 1].
Proof.
  apply (arena_round_trip 32 ltac:(lia) two_rows 1 ["001"]).
  - apply check_invariants_sound; reflexivity.
  - reflexivity.
  - split; [lia|reflexivity].
  - reflexivity.
Defined.

(** C4, counterexample.  With the array [1; 1] the first row is copied
    once and the second row not at all: the result has one row, not
    1 + 1, and is not the source. *)
Lemma replicate_all_ones_is_not_identity :
  replicate 32 two_rows [1; 1] = Returned (mk [1] ["a"])
  /\ size (mk [1] ["a"]) <> 1 + 1
  /\ mk [1] ["a"] <> two_rows.
Proof. split; [reflexivity|]. split; discriminate. Qed.

Lemma replicate_by_offsets_witness :
  exists res,
    replicate 32 two_rows [1; 2] = Returned res
    /\ size res = 2
    /\ res = two_rows.
Proof.
  assert (H : invariants two_rows) by (apply check_invariants_sound; reflexivity).
  destruct (replicate_by_offsets 32 ltac:(lia) two_rows [1; 2] H
                                 ltac:(reflexivity))
    as [_ Hrep].
  destruct Hrep as [res [Hres [_ [Hsize Hsame]]]]; try reflexivity.
  exists res. split; [exact Hres|]. split; [exact Hsize|].
  apply Hsame. reflexivity.
Defined.

(** C7, counterexample.  The permutation has two entries and the limit is
    five, yet [permute] returns: the limit is first cut down to the row
    count. *)
Lemma permute_returns_with_short_permutation :
  len [1; 0] < 5
  /\ permute 32 two_rows [1; 0] 5 = Returned (mk [2; 3] ["b"; "c"; "a"]).
Proof. split; reflexivity. Qed.

Lemma permute_effective_limit_witness :
  exists res,
    permute 32 two_rows [1; 0] 0 = Returned res
    /\ size res = 2
    /\ row res 0 = row two_rows 1 /\ row res 1 = row two_rows 0.
Proof.
  assert (H : invariants two_rows) by (apply check_invariants_sound; reflexivity).
  destruct (permute_effective_limit 32 ltac:(lia) two_rows [1; 0] 0 H
                                    ltac:(reflexivity) ltac:(lia))
    as [_ [_ Hperm]].
  destruct (Hperm [] ltac:(intros E; discriminate E)
                  (perm_swap 0 1 [])) as [res [Hres [Hsize Hrows]]].
  exists res. split; [exact Hres|]. split; [exact Hsize|]. split.
  - apply (Hrows 0). split; [lia|reflexivity].
  - apply (Hrows 1). split; [lia|reflexivity].
Defined.

End ColumnJsonFacts.

(** ** The claims about the Map type *)

Module DataTypeMapFacts.
Import DataTypeMap.

(** *** equals *)

Lemma equals_refl ty : equals ty ty = true.
Proof.
  induction ty; simpl; try assumption.
  - apply Z.eqb_refl.
  - now rewrite IHty3, IHty4.
Qed.

Lemma equals_nullable a b :
  equals a b = true -> is_nullable a = is_nullable b.
Proof. destruct a, b; simpl; intros H; try discriminate; reflexivity. Qed.

Lemma constructed_DataTypeMap keys_ values_ :
  constructed (DataTypeMap keys_ values_).
Proof. split; reflexivity. Qed.

(** C9.  [equals(other)] on a Map type is true iff [other] is a Map type
    and the key element types and the value element types compare equal;
    Map types built from equal element types, or from an element type and
    its nullable wrapping, compare equal; a Map type never equals a type
    that is not a Map. *)
Theorem equals_map_iff (keys_ values_ other : IDataType) :
  constructed other ->
  (equals (DataTypeMap keys_ values_) other = true
   <-> is_map other = true
       /\ equals (get_key_type (DataTypeMap keys_ values_))
                 (get_key_type other) = true
       /\ equals (get_value_type (DataTypeMap keys_ values_))
                 (get_value_type other) = true)
  /\ (forall keys' values',
         equals keys_ keys' = true -> equals values_ values' = true ->
         equals (DataTypeMap keys_ values_) (DataTypeMap keys' values') = true)
  /\ equals (DataTypeMap keys_ values_)
            (DataTypeMap (make_nullable keys_) (make_nullable values_)) = true
  /\ (is_map other = false -> equals (DataTypeMap keys_ values_) other = false).
Proof.
  intros Hc. split; [|split; [|split]].
  - destruct other as [id|n|n|kt vt ks vs]; simpl;
      try (split; [discriminate|intros [H _]; discriminate H]).
    destruct Hc as [-> ->]. simpl.
    destruct (equals _ kt); simpl.
    + destruct (equals _ vt); simpl; split; auto.
      intros [_ [_ H]]; exact H.
    + split; [discriminate|]. intros [_ [H _]]; exact H.
  - intros keys' values' Hk Hv.
    pose proof (equals_nullable _ _ Hk) as Ek.
    pose proof (equals_nullable _ _ Hv) as Ev.
    unfold DataTypeMap, make_nullable. rewrite <- Ek, <- Ev.
    destruct (is_nullable keys_), (is_nullable values_); simpl;
      now rewrite Hk, Hv.
  - unfold DataTypeMap, make_nullable.
    destruct (is_nullable keys_) eqn:Ek, (is_nullable values_) eqn:Ev; simpl;
      rewrite ?Ek, ?Ev; simpl; now rewrite !equals_refl.
  - destruct other; simpl; try reflexivity. discriminate.
Qed.

Lemma equals_map_iff_witness :
  equals (DataTypeMap (DataTypeScalar 1) (DataTypeScalar 2))
         (DataTypeMap (DataTypeNullable (DataTypeScalar 1)) (DataTypeScalar 2))
  = true.
Proof.
  apply (equals_map_iff (DataTypeScalar 1) (DataTypeScalar 2)
           (DataTypeMap (DataTypeNullable (DataTypeScalar 1)) (DataTypeScalar 2))
           (constructed_DataTypeMap _ _)).
Defined.

(** *** The binary format *)

Lemma split3 (mem : list byte) buf n :
  0 <= buf -> 0 <= n -> buf + n <= len mem ->
  exists pre mid post,
    mem = pre ++ mid ++ post /\ len pre = buf /\ len mid = n.
Proof.
  intros Hb Hn Hle. unfold len in *.
  exists (firstn (Z.to_nat buf) mem),
         (firstn (Z.to_nat n) (skipn (Z.to_nat buf) mem)),
         (skipn (Z.to_nat n) (skipn (Z.to_nat buf) mem)).
  split; [now rewrite !firstn_skipn|].
  rewrite !length_firstn, length_skipn. lia.
Qed.

Lemma memcpy_twice mem buf a b :
  0 <= buf -> buf + len a + len b <= len mem ->
  memcpy (memcpy mem buf a) (buf + len a) b = memcpy mem buf (a ++ b).
Proof.
  intros Hb Hle. pose proof (len_nonneg a). pose proof (len_nonneg b).
  destruct (split3 mem buf (len a + len b)) as [pre [mid [post [-> [Hp Hm]]]]];
    try lia.
  destruct (split3 mid 0 (len a)) as [x [ma [mb [-> [Hx Hma]]]]]; try lia.
  apply len_zero_nil in Hx. subst x. simpl app in *.
  rewrite len_app in Hm. assert (Hmb : len mb = len b) by lia.
  rewrite <- Hp. rewrite <- (app_assoc ma mb post).
  rewrite memcpy_inside by (unfold len in *; lia).
  rewrite (app_assoc pre a), <- len_app.
  rewrite memcpy_inside by (unfold len in *; lia).
  rewrite (app_assoc ma mb post).
  rewrite memcpy_inside by (unfold len in *; rewrite !length_app; lia).
  now rewrite <- !app_assoc.
Qed.

Lemma memcpy_read mem buf a b :
  0 <= buf -> buf + len a + len b <= len mem ->
  bytes_at (memcpy mem buf (a ++ b)) buf (len a) = a
  /\ bytes_at (memcpy mem buf (a ++ b)) (buf + len a) (len b) = b.
Proof.
  intros Hb Hle. pose proof (len_nonneg a). pose proof (len_nonneg b).
  destruct (split3 mem buf (len a + len b)) as [pre [mid [post [-> [Hp Hm]]]]];
    try lia.
  rewrite <- Hp.
  rewrite memcpy_inside by (unfold len in *; rewrite length_app; lia).
  split.
  - rewrite <- app_assoc. apply bytes_at_inside.
  - rewrite <- app_assoc, (app_assoc pre a), <- len_app.
    apply bytes_at_inside.
Qed.

Lemma len_memcpy mem buf data : len (memcpy mem buf data) = len mem.
Proof.
  unfold memcpy, len. rewrite length_firstn, !length_app, length_firstn,
    length_skipn. lia.
Qed.

(** C8.  [serialize] writes the encoding of the keys array immediately
    followed by the encoding of the values array, with nothing between
    them; [get_uncompressed_serialized_bytes] is the sum of the two
    sizes; [deserialize] with the same types reads the two blocks in that
    order and returns the address advanced by that sum. *)
Theorem map_binary_format {KeysCol ValuesCol : Type}
  (keys : IDataTypeBinary.t KeysCol) (values : IDataTypeBinary.t ValuesCol)
  (keys_enc : KeysCol -> Z -> list byte)
  (values_enc : ValuesCol -> Z -> list byte)
  (column : KeysCol * ValuesCol) (mem : list byte) (buf data_version : Z) :
  encodes keys keys_enc -> encodes values values_enc ->
  0 <= buf ->
  buf + len (keys_enc (fst column) data_version)
  + len (values_enc (snd column) data_version) <= len mem ->
  serialize keys values column mem buf data_version
  = (memcpy mem buf (keys_enc (fst column) data_version
                       ++ values_enc (snd column) data_version),
     buf + get_uncompressed_serialized_bytes keys values column data_version)
  /\ get_uncompressed_serialized_bytes keys values column data_version
     = IDataTypeBinary.get_uncompressed_serialized_bytes
         keys (fst column) data_version
       + IDataTypeBinary.get_uncompressed_serialized_bytes
           values (snd column) data_version
  /\ forall column0,
       deserialize keys values
                   (fst (serialize keys values column mem buf data_version))
                   buf column0 data_version
       = (buf + get_uncompressed_serialized_bytes keys values column
                                                  data_version,
          column).
Proof.
  intros [Ksz Kser Kde] [Vsz Vser Vde] Hbuf Hle.
  set (ek := keys_enc (fst column) data_version) in *.
  set (ev := values_enc (snd column) data_version) in *.
  pose proof (len_nonneg ek) as Hek. pose proof (len_nonneg ev) as Hev.
  assert (Hser : serialize keys values column mem buf data_version
                 = (memcpy mem buf (ek ++ ev), buf + len ek + len ev)).
  { unfold serialize. rewrite Kser by (fold ek; lia). fold ek.
    rewrite Vser by (fold ev; rewrite ?len_memcpy; lia). fold ev.
    rewrite memcpy_twice by lia. reflexivity. }
  assert (Hsz : get_uncompressed_serialized_bytes keys values column
                                                  data_version
                = len ek + len ev).
  { unfold get_uncompressed_serialized_bytes. now rewrite Ksz, Vsz. }
  split; [|split].
  - rewrite Hser, Hsz. f_equal. lia.
  - unfold get_uncompressed_serialized_bytes. reflexivity.
  - intros column0. rewrite Hser, Hsz. cbn [fst].
    destruct (memcpy_read mem buf ek ev Hbuf Hle) as [Rk Rv].
    unfold deserialize.
    rewrite (Kde _ buf (fst column0) (fst column) data_version);
      [|lia|rewrite len_memcpy; fold ek; lia|fold ek; exact Rk].
    fold ek.
    rewrite (Vde _ (buf + len ek) (snd column0) (snd column) data_version);
      [|lia|rewrite len_memcpy; fold ev; lia|fold ev; exact Rv].
    fold ev. destruct column. f_equal. lia.
Qed.

Lemma one_byte_encodes : encodes one_byte (fun col _ => [col]).
Proof.
  constructor; simpl; intros; try reflexivity.
  change (len [col]) with 1 in *. now rewrite H1.
Qed.

Lemma map_binary_format_witness :
  serialize one_byte one_byte (Byte.x01, Byte.x02)
            [Byte.x00; Byte.x00; Byte.x00] 1 0
  = ([Byte.x00; Byte.x01; Byte.x02], 3)
  /\ deserialize one_byte one_byte [Byte.x00; Byte.x01; Byte.x02] 1
                 (Byte.x00, Byte.x00) 0
     = (3, (Byte.x01, Byte.x02)).
Proof.
  destruct (map_binary_format one_byte one_byte _ _ (Byte.x01, Byte.x02)
              [Byte.x00; Byte.x00; Byte.x00] 1 0
              one_byte_encodes one_byte_encodes ltac:(lia)
              ltac:(cbv; discriminate))
    as [Hser [_ Hde]].
  split; [exact Hser|exact (Hde (Byte.x00, Byte.x00))].
Defined.

(** *** from_string *)

(** The loops of the tokenizer and of [from_string] stop by themselves
    within the iterations they are given. *)

Lemma count_window rb : window rb -> count rb = end_ rb - position rb.
Proof. intros [H1 H2]. unfold count. apply to_size_t_small. lia. Qed.

Lemma eof_window rb : window rb -> eof rb = (count rb =? 0).
Proof.
  intros H. rewrite (count_window rb H). unfold eof.
  destruct (position rb =? end_ rb) eqn:E.
  - apply Z.eqb_eq in E. rewrite E, Z.sub_diag. reflexivity.
  - apply Z.eqb_neq in E. symmetry. apply Z.eqb_neq. lia.
Qed.

Lemma window_advance rb :
  window rb -> eof rb = false -> window (advance rb 1)
  /\ count (advance rb 1) = count rb - 1.
Proof.
  intros H E. pose proof H as [H1 H2]. unfold eof in E. apply Z.eqb_neq in E.
  assert (W : window (advance rb 1)) by (unfold window, advance; simpl; lia).
  split; [exact W|]. rewrite (count_window _ W), (count_window _ H).
  simpl. lia.
Qed.

Lemma ltrim_spec n : forall mem rb element,
  window rb -> (Z.to_nat (count rb) <= n)%nat ->
  ltrim (S n) mem rb element = ltrim n mem rb element
  /\ window (fst (ltrim n mem rb element))
  /\ position rb <= position (fst (ltrim n mem rb element))
  /\ end_ (fst (ltrim n mem rb element)) = end_ rb.
Proof.
  induction n as [|n IH]; intros mem rb element W Hn.
  - assert (E : eof rb = true).
    { rewrite (eof_window _ W). apply Z.eqb_eq.
      pose proof (count_window _ W). destruct W. lia. }
    cbn [ltrim]. rewrite E. cbn [negb andb fst].
    split; [reflexivity|]. split; [exact W|]. split; [lia|reflexivity].
  - cbn [ltrim].
    destruct (negb (eof rb) && isspace (deref mem (position rb))) eqn:C.
    + apply andb_true_iff in C as [C _]. apply negb_true_iff in C.
      destruct (window_advance rb W C) as [W' Hc].
      destruct (IH mem (advance rb 1)
                   (mkStringRef (position (advance rb 1)) (size element)) W')
        as [E1 [E2 [E3 E4]]]; [lia|].
      cbn [ltrim] in E1. rewrite E1.
      assert (Hp : position (advance rb 1) = position rb + 1) by reflexivity.
      split; [reflexivity|]. split; [exact E2|]. split; [lia|exact E4].
    + cbn [fst].
      split; [reflexivity|]. split; [exact W|]. split; [lia|reflexivity].
Qed.

Lemma find_str_sep_spec n : forall mem rb str_sep str_len,
  (Z.to_nat (count rb - str_len) <= n)%nat ->
  find_str_sep (S n) mem rb str_sep str_len
  = find_str_sep n mem rb str_sep str_len
  /\ str_len <= find_str_sep n mem rb str_sep str_len.
Proof.
  induction n as [|n IH]; intros mem rb str_sep str_len Hn.
  - cbn [find_str_sep].
    destruct (str_len <? count rb) eqn:E; [apply Z.ltb_lt in E; lia|].
    cbn [andb]. split; [reflexivity|lia].
  - cbn [find_str_sep].
    destruct ((str_len <? count rb)
              && negb (Ascii.eqb (deref mem (position rb + str_len)) str_sep))
      eqn:C; [|split; [reflexivity|lia]].
    apply andb_true_iff in C as [C _]. apply Z.ltb_lt in C.
    destruct (IH mem rb str_sep (str_len + 1)) as [E1 E2]; [lia|].
    cbn [find_str_sep] in E1. rewrite E1. split; [reflexivity|lia].
Qed.

Lemma scan_element_spec n : forall mem has_quota rb element,
  window rb -> (Z.to_nat (count rb) <= n)%nat ->
  scan_element (S n) mem has_quota rb element
  = scan_element n mem has_quota rb element
  /\ window (snd (fst (scan_element n mem has_quota rb element)))
  /\ position rb
     <= position (snd (fst (scan_element n mem has_quota rb element)))
  /\ end_ (snd (fst (scan_element n mem has_quota rb element))) = end_ rb.
Proof.
  induction n as [|n IH]; intros mem has_quota rb element W Hn.
  - assert (E : eof rb = true).
    { rewrite (eof_window _ W). apply Z.eqb_eq.
      pose proof (count_window _ W). destruct W. lia. }
    cbn [scan_element]. rewrite E. cbn [negb andb fst snd].
    split; [reflexivity|]. split; [exact W|]. split; [lia|reflexivity].
  - cbn [scan_element].
    destruct (negb (eof rb)
              && negb (Ascii.eqb (deref mem (position rb)) ":")
              && negb (Ascii.eqb (deref mem (position rb)) ",")
              && (negb (count rb =? 1)
                  || negb (Ascii.eqb (deref mem (position rb)) "}"))) eqn:C.
    + destruct (has_quota && negb (isspace (deref mem (position rb)))).
      { cbn [fst snd].
        split; [reflexivity|]. split; [exact W|]. split; [lia|reflexivity]. }
      apply andb_true_iff in C as [C _]. apply andb_true_iff in C as [C _].
      apply andb_true_iff in C as [C _]. apply negb_true_iff in C.
      destruct (window_advance rb W C) as [W' Hc].
      destruct (IH mem has_quota (advance rb 1)
                   (mkStringRef (data element) (size element + 1)) W')
        as [E1 [E2 [E3 E4]]]; [lia|].
      cbn [scan_element] in E1. rewrite E1.
      assert (Hp : position (advance rb 1) = position rb + 1) by reflexivity.
      split; [reflexivity|]. split; [exact E2|]. split; [lia|exact E4].
    + cbn [fst snd].
      split; [reflexivity|]. split; [exact W|]. split; [lia|reflexivity].
Qed.

Lemma rtrim_spec n : forall mem element,
  (Z.to_nat (size element) <= n)%nat ->
  rtrim (S n) mem element = rtrim n mem element.
Proof.
  induction n as [|n IH]; intros mem element Hn.
  - cbn [rtrim].
    destruct (0 <? size element) eqn:E; [apply Z.ltb_lt in E; lia|].
    reflexivity.
  - cbn [rtrim].
    destruct ((0 <? size element)
              && isspace (deref mem (data element + (size element - 1))))
      eqn:C; [|reflexivity].
    apply andb_true_iff in C as [C _]. apply Z.ltb_lt in C.
    pose proof (IH mem (mkStringRef (data element) (size element - 1))) as E.
    cbn [rtrim size] in E. apply E. lia.
Qed.

(** A slot that is read moves the position forward and leaves it inside
    the window. *)
Lemma next_slot_from_string_advances mem rb output :
  window rb ->
  let '(read, rb', _) := next_slot_from_string mem rb output in
  read = true ->
  window rb' /\ position rb < position rb' /\ end_ rb' = end_ rb.
Proof.
  intros W. unfold next_slot_from_string.
  destruct (eof rb) eqn:E; [discriminate|].
  destruct (ltrim_spec (Z.to_nat (count rb)) mem rb
                       (mkStringRef (position rb) 0) W (le_n _))
    as [_ [W1 [P1 E1]]].
  destruct (ltrim (Z.to_nat (count rb)) mem rb (mkStringRef (position rb) 0))
    as [rb1 element1]. cbn [fst] in W1, P1, E1.
  assert (Hq : exists found has_quota rb2 element2,
             (if is_quote (deref mem (position rb1))
              then
                if count rb1
                   <=? find_str_sep (Z.to_nat (count rb1)) mem rb1
                                    (deref mem (position rb1)) 1
                then (false, false, mkReadBuffer (end_ rb1) (end_ rb1), element1)
                else (true, true,
                      advance rb1
                        (find_str_sep (Z.to_nat (count rb1)) mem rb1
                                      (deref mem (position rb1)) 1 + 1),
                      mkStringRef (data element1)
                        (size element1
                         + (find_str_sep (Z.to_nat (count rb1)) mem rb1
                                         (deref mem (position rb1)) 1 + 1)))
              else (true, false, rb1, element1))
             = (found, has_quota, rb2, element2)
             /\ (found = true ->
                 window rb2 /\ position rb1 <= position rb2
                 /\ end_ rb2 = end_ rb1)).
  { destruct (is_quote (deref mem (position rb1))).
    - destruct (count rb1 <=? find_str_sep _ _ _ _ _) eqn:C.
      + do 4 eexists. split; [reflexivity|discriminate].
      + do 4 eexists. split; [reflexivity|]. intros _.
        apply Z.leb_gt in C.
        destruct (find_str_sep_spec (Z.to_nat (count rb1)) mem rb1
                    (deref mem (position rb1)) 1 ltac:(lia)) as [_ Hge].
        set (k := find_str_sep (Z.to_nat (count rb1)) mem rb1
                               (deref mem (position rb1)) 1) in *.
        pose proof (count_window _ W1) as Hc. destruct W1 as [[Wa Wb] Wc].
        unfold window, advance. cbn [position end_]. lia.
    - do 4 eexists. split; [reflexivity|]. intros _.
      split; [exact W1|]. split; [lia|reflexivity]. }
  destruct Hq as [found [has_quota [rb2 [element2 [-> Hfound]]]]].
  destruct found; [|discriminate]. cbn [negb].
  destruct (Hfound eq_refl) as [W2 [P2 E2]].
  destruct (scan_element_spec (Z.to_nat (count rb2)) mem has_quota rb2
                              element2 W2 (le_n _)) as [_ [W3 [P3 E3]]].
  destruct (scan_element (Z.to_nat (count rb2)) mem has_quota rb2 element2)
    as [[scanned rb3] element3]. cbn [fst snd] in W3, P3, E3.
  destruct scanned; [|discriminate]. cbn [negb].
  destruct (eof rb3) eqn:E4; [discriminate|]. intros _.
  destruct (window_advance rb3 W3 E4) as [W4 _].
  split; [exact W4|].
  assert (Hp : position (advance rb3 1) = position rb3 + 1) by reflexivity.
  assert (He : end_ (advance rb3 1) = end_ rb3) by reflexivity.
  split; [lia|congruence].
Qed.

Section LoopFuel.

Variables K V : Type.
Variable key_type_from_string : list ascii -> list K -> Status * list K.
Variable value_type_from_string : list ascii -> list V -> Status * list V.

(** The loop of [from_string] stops by itself: iterations beyond the
    number of bytes left in the buffer are never used. *)
Lemma from_string_loop_fuel n : forall m mem rb column element_num,
  window rb -> (Z.to_nat (count rb) <= n)%nat -> (n <= m)%nat ->
  from_string_loop K V key_type_from_string value_type_from_string
                   m mem rb column element_num
  = from_string_loop K V key_type_from_string value_type_from_string
                     n mem rb column element_num.
Proof.
  induction n as [|n IH]; intros m mem rb column element_num W Hn Hm.
  - assert (E : eof rb = true).
    { rewrite (eof_window _ W). apply Z.eqb_eq.
      pose proof (count_window _ W). destruct W. lia. }
    destruct m; cbn [from_string_loop]; [reflexivity|now rewrite E].
  - destruct m as [|m]; [lia|]. cbn [from_string_loop].
    destruct (eof rb) eqn:E; [reflexivity|].
    pose proof (next_slot_from_string_advances
                  mem rb (mkStringRef (position rb) (count rb)) W) as H1.
    destruct (next_slot_from_string mem rb
                (mkStringRef (position rb) (count rb)))
      as [[read1 rb1] key_element].
    destruct read1; [|reflexivity]. cbn [negb].
    destruct (H1 eq_refl) as [W1 [P1 E1]].
    pose proof (next_slot_from_string_advances
                  mem rb1 (mkStringRef (position rb1) (count rb1)) W1) as H2.
    destruct (next_slot_from_string mem rb1
                (mkStringRef (position rb1) (count rb1)))
      as [[read2 rb2] value_element].
    destruct read2; [|reflexivity]. cbn [negb].
    destruct (H2 eq_refl) as [W2 [P2 E2]].
    destruct (key_type_from_string _ _) as [st1 nested_key_column].
    destruct (negb (ok st1)); [reflexivity|].
    destruct (value_type_from_string _ _) as [st2 nested_val_column].
    destruct (negb (ok st2)); [reflexivity|].
    apply IH; [exact W2| |lia].
    rewrite (count_window _ W2). rewrite (count_window _ W) in Hn. lia.
Qed.

End LoopFuel.

(** C3, at the failing input.  The second key of [{'a':1,'b'2}] is not
    followed by a separator, so its slot cannot be read: [from_string]
    returns the error, and the key and the value of the first pair stay
    in the nested columns, which were empty before the call. *)
Theorem from_string_slot_failure_keeps_elements :
  let '(st, _, column) := parse_map text_from_string "{'a':1,'b'2}" in
  st = InvalidArgument "Cannot read map key from text '{}'"
                       (list_ascii_of_string "'b'2}")
  /\ get_data (get_keys column) = ["a"%string]
  /\ get_data (get_values column) = ["1"%string]
  /\ get_offsets (get_keys column) = []
  /\ get_offsets (get_values column) = [].
Proof. vm_compute. repeat split. Qed.

(** The same for a value slot that cannot be read, and for a value the
    element type rejects: one key, or one pair, is left behind. *)
Fact from_string_value_slot_failure :
  let '(st, _, column) := parse_map text_from_string "{a:1,b}" in
  ok st = false
  /\ get_data (get_keys column) = ["a"%string]
  /\ get_data (get_values column) = ["1"%string].
Proof. vm_compute. repeat split. Qed.

Fact from_string_value_parse_failure :
  let '(st, _, column) := parse_map strict_from_string "{a:x}" in
  ok st = false
  /\ get_data (get_keys column) = ["a"%string]
  /\ get_data (get_values column) = [].
Proof. vm_compute. repeat split. Qed.

(** A failure on the first slot leaves the nested columns as they were,
    and a well-formed literal is stored as one row. *)
Fact from_string_examples :
  (let '(st, _, column) := parse_map text_from_string "{'a'1}" in
   ok st = false /\ column = empty_map)
  /\ (let '(st, _, column) := parse_map text_from_string "{'a':1, 'b' : 20}" in
      st = OK
      /\ column = mkColumnMap (mkColumnArray ["a"%string; "b"%string] [2])
                              (mkColumnArray ["1"%string; "20"%string] [2]))
  /\ (let '(st, _, column) := parse_map text_from_string "{}" in
      st = OK
      /\ column = mkColumnMap (mkColumnArray [] [0]) (mkColumnArray [] [0])).
Proof. vm_compute. repeat split. Qed.

End DataTypeMapFacts.

(** ** Ordering the rows *)

Module GetPermutationFacts.
Import ColumnJson.

(** *** The comparison of byte strings is a total order *)

Lemma compare_bytes_refl x : compare_bytes x x = Eq.
Proof. induction x; simpl; [reflexivity|]. now rewrite Z.compare_refl. Qed.

Lemma compare_bytes_antisym x : forall y,
  compare_bytes y x = CompOpp (compare_bytes x y).
Proof.
  induction x as [|a x IH]; intros [|b y]; simpl; try reflexivity.
  rewrite (Z.compare_antisym (byte.unsigned a) (byte.unsigned b)).
  destruct (byte.unsigned a ?= byte.unsigned b); simpl; auto.
Qed.

Lemma compare_bytes_eq x : forall y, compare_bytes x y = Eq -> x = y.
Proof.
  induction x as [|a x IH]; intros [|b y]; simpl; try easy.
  destruct (byte.unsigned a ?= byte.unsigned b) eqn:E; try discriminate.
  intros H. apply Z.compare_eq in E. apply byte.unsigned_inj in E.
  f_equal; auto.
Qed.

Lemma compare_bytes_trans x : forall y z,
  compare_bytes x y = Lt -> compare_bytes y z = Lt -> compare_bytes x z = Lt.
Proof.
  induction x as [|a x IH]; intros [|b y] [|c z]; simpl; try easy.
  destruct (byte.unsigned a ?= byte.unsigned b) eqn:E1;
    destruct (byte.unsigned b ?= byte.unsigned c) eqn:E2;
    try discriminate; intros H1 H2.
  - apply Z.compare_eq in E1, E2. rewrite E1, E2, Z.compare_refl. eauto.
  - apply Z.compare_eq in E1. now rewrite E1, E2.
  - apply Z.compare_eq in E2. now rewrite <- E2, E1.
  - assert (E : (byte.unsigned a ?= byte.unsigned c) = Lt).
    { apply Z.compare_lt_iff.
      apply Z.lt_trans with (byte.unsigned b); now apply Z.compare_lt_iff. }
    now rewrite E.
Qed.

Lemma compare_bytes_common x : forall y,
  match compare_bytes (firstn (Nat.min (length x) (length y)) x)
                      (firstn (Nat.min (length x) (length y)) y) with
  | Eq => len x ?= len y
  | o => o
  end = compare_bytes x y.
Proof.
  induction x as [|a x IH]; intros [|b y]; try reflexivity.
  change (Nat.min (length (a :: x)) (length (b :: y)))
    with (S (Nat.min (length x) (length y))).
  cbn [firstn compare_bytes].
  destruct (byte.unsigned a ?= byte.unsigned b); try reflexivity.
  rewrite <- IH. rewrite !len_cons.
  now rewrite Z.add_compare_mono_l.
Qed.

Lemma firstn_repeat_min {A} (d : A) n : forall m,
  firstn n (repeat d m) = repeat d (Nat.min n m).
Proof. induction n; intros [|m]; simpl; try reflexivity. now rewrite IHn. Qed.

Lemma firstn_bytes_at mem off m n :
  0 <= m <= n ->
  firstn (Z.to_nat m) (bytes_at mem off n) = bytes_at mem off m.
Proof.
  intros H. unfold bytes_at. rewrite firstn_firstn.
  replace (Nat.min (Z.to_nat m) (Z.to_nat n)) with (Z.to_nat m) by lia.
  rewrite !firstn_app. f_equal. rewrite !firstn_repeat_min. f_equal. lia.
Qed.

Lemma bytes_at_removelast mem off n :
  1 <= n -> bytes_at mem off (n - 1) = removelast (bytes_at mem off n).
Proof.
  intros H. rewrite removelast_firstn_len, length_bytes_at.
  replace (Init.Nat.pred (Z.to_nat n)) with (Z.to_nat (n - 1)) by lia.
  symmetry. apply firstn_bytes_at. lia.
Qed.

Lemma compare_bytes_terminated x : forall y,
  compare_bytes (x ++ [Byte.x00]) (y ++ [Byte.x00]) = compare_bytes x y.
Proof.
  induction x as [|a x IH]; intros [|b y]; cbn [app compare_bytes].
  - reflexivity.
  - destruct b; try reflexivity. now destruct y.
  - destruct a; try reflexivity. now destruct x.
  - destruct (byte.unsigned a ?= byte.unsigned b); auto.
Qed.

Lemma size_at_range c r : 0 <= size_at c r < 2 ^ 64.
Proof. unfold size_at, to_size_t. apply Z.mod_pos_bound. lia. Qed.

Lemma less_compares_keys positive c lhs rhs :
  1 <= size_at c lhs -> 1 <= size_at c rhs ->
  less positive c lhs rhs
  = match compare_bytes (row_key c lhs) (row_key c rhs) with
    | Lt => positive
    | Eq => false
    | Gt => negb positive
    end.
Proof.
  intros Hl Hr. pose proof (size_at_range c lhs). pose proof (size_at_range c rhs).
  unfold less, memcmp_small_allow_overflow15, row_key, row.
  rewrite !to_size_t_small by lia.
  rewrite <- !bytes_at_removelast by lia.
  set (sl := size_at c lhs - 1) in *. set (sr := size_at c rhs - 1) in *.
  set (X := bytes_at (chars c) (offset_at c lhs) sl).
  set (Y := bytes_at (chars c) (offset_at c rhs) sr).
  assert (HX : len X = sl) by (apply len_bytes_at; lia).
  assert (HY : len Y = sr) by (apply len_bytes_at; lia).
  rewrite <- (compare_bytes_common X Y).
  assert (Hmin : Nat.min (length X) (length Y) = Z.to_nat (Z.min sl sr))
    by (unfold len in *; lia).
  rewrite Hmin. unfold X at 1, Y at 1.
  rewrite !firstn_bytes_at by lia. rewrite HX, HY.
  destruct (compare_bytes _ _); [destruct (sl ?= sr)| |];
    destruct positive; reflexivity.
Qed.

(** *** [less] is a strict weak ordering *)

Lemma less_strict_weak_order positive c l :
  (forall r, In r l -> 1 <= size_at c r) ->
  strict_weak_order_on (less positive c) l.
Proof.
  intros Hsz.
  assert (Hless : forall a b, In a l -> In b l ->
            less positive c a b
            = match compare_bytes (row_key c a) (row_key c b) with
              | Lt => positive | Eq => false | Gt => negb positive end).
  { intros a b Ha Hb. apply less_compares_keys; auto. }
  assert (Heq : forall a b, In a l -> In b l ->
            less positive c a b = false -> less positive c b a = false ->
            row_key c a = row_key c b).
  { intros a b Ha Hb. rewrite (Hless a b Ha Hb), (Hless b a Hb Ha).
    rewrite (compare_bytes_antisym (row_key c a) (row_key c b)).
    destruct (compare_bytes (row_key c a) (row_key c b)) eqn:E; simpl;
      destruct positive; simpl; try discriminate;
      intros; now apply compare_bytes_eq. }
  split; [|split].
  - intros a Ha. rewrite Hless by assumption.
    now rewrite compare_bytes_refl.
  - intros a b d Ha Hb Hd. rewrite !Hless by assumption.
    destruct positive.
    + destruct (compare_bytes (row_key c a) (row_key c b)) eqn:E1;
        try discriminate.
      destruct (compare_bytes (row_key c b) (row_key c d)) eqn:E2;
        try discriminate.
      now rewrite (compare_bytes_trans _ _ _ E1 E2).
    + rewrite (compare_bytes_antisym (row_key c b) (row_key c a)).
      rewrite (compare_bytes_antisym (row_key c d) (row_key c b)).
      rewrite (compare_bytes_antisym (row_key c d) (row_key c a)).
      destruct (compare_bytes (row_key c b) (row_key c a)) eqn:E1;
        try discriminate.
      destruct (compare_bytes (row_key c d) (row_key c b)) eqn:E2;
        try discriminate.
      now rewrite (compare_bytes_trans _ _ _ E2 E1).
  - intros a b d Ha Hb Hd H1 H2 H3 H4.
    rewrite Hless by assumption.
    rewrite (Heq a b Ha Hb H1 H2), (Heq b d Hb Hd H3 H4).
    now rewrite compare_bytes_refl.
Qed.

(** C5, amended.  [get_permutation] produces a permutation of the row
    indices ordered by unsigned byte-lexicographic comparison of the row
    payloads without their last byte (every row holding at least one
    byte): non-decreasing for [reverse = false], non-increasing for
    [reverse = true].  With [0 < limit < N] the first [limit] positions
    are ordered among themselves and against all later positions; with
    [limit == 0] or [limit >= N] the whole permutation is ordered.  When
    every row ends in a zero byte this is the order of the full
    payloads. *)
Theorem get_permutation_orders_keys
  (std_sort : (Z -> Z -> bool) -> list Z -> list Z)
  (std_partial_sort : (Z -> Z -> bool) -> Z -> list Z -> list Z)
  (c : t) (reverse : bool) (limit : Z) :
  std_sort_contract std_sort ->
  std_partial_sort_contract std_partial_sort ->
  (forall r, 0 <= r < size c -> 1 <= size_at c r) ->
  0 <= limit ->
  Permutation (get_permutation std_sort std_partial_sort c reverse limit)
              (map Z.of_nat (seq 0 (length (offsets c))))
  /\ forall i j,
       (i < j < length (offsets c))%nat ->
       limit = 0 \/ size c <= limit \/ Z.of_nat i < limit ->
       compare_bytes
         (row_key c (nth i (get_permutation std_sort std_partial_sort c
                                            reverse limit) 0))
         (row_key c (nth j (get_permutation std_sort std_partial_sort c
                                            reverse limit) 0))
       <> (if reverse then Lt else Gt)
       /\ ((forall r, 0 <= r < size c ->
                      exists payload, row c r = payload ++ [Byte.x00]) ->
           compare_bytes
             (row c (nth i (get_permutation std_sort std_partial_sort c
                                            reverse limit) 0))
             (row c (nth j (get_permutation std_sort std_partial_sort c
                                            reverse limit) 0))
           <> (if reverse then Lt else Gt)).
Proof.
  intros Hsort Hpartial Hsz Hlimit.
  set (l := map Z.of_nat (seq 0 (length (offsets c)))).
  assert (Hl : forall r, In r l -> 0 <= r < size c).
  { intros r Hr. apply in_map_iff in Hr as [k [<- Hk]]. apply in_seq in Hk.
    unfold size, len. lia. }
  assert (Hlen : length l = length (offsets c))
    by (unfold l; now rewrite length_map, length_seq).
  assert (Hswo : forall positive, strict_weak_order_on (less positive c) l).
  { intros positive. apply less_strict_weak_order. intros r Hr. auto. }
  assert (Hres :
    exists positive res,
      get_permutation std_sort std_partial_sort c reverse limit = res
      /\ positive = negb reverse
      /\ Permutation res l
      /\ forall i j, (i < j < length l)%nat ->
           limit = 0 \/ size c <= limit \/ Z.of_nat i < limit ->
           less positive c (nth j res 0) (nth i res 0) = false).
  { unfold get_permutation. fold (size c).
    replace (Z.to_nat (size c)) with (length (offsets c))
      by (unfold size, len; lia).
    fold l.
    destruct (size c <=? limit) eqn:E.
    - cbn [negb Z.eqb].
      destruct reverse;
        [destruct (Hsort (less false c) l (Hswo false)) as [P S]
        |destruct (Hsort (less true c) l (Hswo true)) as [P S]];
        eexists; eexists; (split; [reflexivity|]); (split; [reflexivity|]);
        (split; [exact P|]); intros i j Hij _; now apply S.
    - apply Z.leb_gt in E.
      destruct (limit =? 0) eqn:E0; cbn [negb].
      + destruct reverse;
          [destruct (Hsort (less false c) l (Hswo false)) as [P S]
          |destruct (Hsort (less true c) l (Hswo true)) as [P S]];
          eexists; eexists; (split; [reflexivity|]); (split; [reflexivity|]);
          (split; [exact P|]); intros i j Hij _; now apply S.
      + apply Z.eqb_neq in E0.
        assert (Hmid : 0 <= limit <= len l)
          by (unfold len; rewrite Hlen; unfold size, len in E; lia).
        destruct reverse;
          [destruct (Hpartial (less false c) limit l (Hswo false) Hmid)
            as [P S]
          |destruct (Hpartial (less true c) limit l (Hswo true) Hmid)
            as [P S]];
          eexists; eexists; (split; [reflexivity|]); (split; [reflexivity|]);
          (split; [exact P|]); intros i j Hij Hlim; apply S; trivial; lia. }
  destruct Hres as [positive [res [-> [Hpos [Hperm Hord]]]]].
  split; [exact Hperm|].
  intros i j Hij Hlim. rewrite <- Hlen in Hij.
  specialize (Hord i j Hij Hlim).
  pose proof (Permutation_length Hperm) as Hlr.
  assert (Hi : In (nth i res 0) l)
    by (eapply Permutation_in; [exact Hperm|]; apply nth_In; lia).
  assert (Hj : In (nth j res 0) l)
    by (eapply Permutation_in; [exact Hperm|]; apply nth_In; lia).
  rewrite less_compares_keys in Hord by auto.
  rewrite (compare_bytes_antisym (row_key c (nth i res 0))) in Hord.
  subst positive.
  assert (Hkeys : compare_bytes (row_key c (nth i res 0))
                                (row_key c (nth j res 0))
                  <> (if reverse then Lt else Gt)).
  { destruct (compare_bytes (row_key c (nth i res 0))
                            (row_key c (nth j res 0)));
      destruct reverse; simpl in Hord; congruence. }
  split; [exact Hkeys|]. intros Hterm.
  destruct (Hterm _ (Hl _ Hi)) as [pi Ei].
  destruct (Hterm _ (Hl _ Hj)) as [pj Ej].
  unfold row_key in Hkeys. rewrite Ei, Ej in Hkeys |- *.
  rewrite !removelast_last in Hkeys.
  now rewrite compare_bytes_terminated.
Qed.

(** *** An implementation of the two contracts *)

Lemma insert_sorted_perm comp x l : Permutation (insert_sorted comp x l) (x :: l).
Proof.
  induction l as [|y l IH]; simpl; [reflexivity|].
  destruct (comp x y); [reflexivity|].
  apply perm_trans with (y :: x :: l); [now constructor|apply perm_swap].
Qed.

Lemma insertion_sort_loop_perm comp l : forall sorted,
  Permutation (fold_left (fun s x => insert_sorted comp x s) l sorted)
              (sorted ++ l).
Proof.
  induction l as [|x l IH]; intros sorted; simpl.
  - now rewrite app_nil_r.
  - apply perm_trans with (insert_sorted comp x sorted ++ l); [apply IH|].
    apply perm_trans with ((x :: sorted) ++ l).
    + apply Permutation_app_tail, insert_sorted_perm.
    + simpl. apply Permutation_middle.
Qed.

Lemma insertion_sort_perm comp l : Permutation (insertion_sort comp l) l.
Proof. apply (insertion_sort_loop_perm comp l []). Qed.

Section InsertionSort.

Variable comp : Z -> Z -> bool.
Variable universe : list Z.
Hypothesis comp_order : strict_weak_order_on comp universe.

Lemma comp_asym a b :
  In a universe -> In b universe -> comp a b = true -> comp b a = false.
Proof.
  destruct comp_order as [Hirr [Htrans _]]. intros Ha Hb H.
  destruct (comp b a) eqn:E; [|reflexivity].
  rewrite <- (Hirr a Ha). symmetry. now apply Htrans with b.
Qed.

Lemma may_precede_trans a b d :
  In a universe -> In b universe -> In d universe ->
  may_precede comp a b -> may_precede comp b d -> may_precede comp a d.
Proof.
  destruct comp_order as [Hirr [Htrans Hinc]].
  unfold may_precede. intros Ha Hb Hd Hab Hbd.
  destruct (comp d a) eqn:E; [|reflexivity].
  assert (E1 : comp a b = false).
  { destruct (comp a b) eqn:E1; [|reflexivity].
    rewrite <- Hbd. symmetry. now apply Htrans with a. }
  assert (E2 : comp b d = false).
  { destruct (comp b d) eqn:E2; [|reflexivity].
    rewrite <- Hab. symmetry. now apply Htrans with d. }
  rewrite <- E. apply (Hinc d b a); assumption.
Qed.

Lemma insert_sorted_sorted x l :
  In x universe -> Forall (fun a => In a universe) l ->
  StronglySorted (may_precede comp) l ->
  StronglySorted (may_precede comp) (insert_sorted comp x l).
Proof.
  intros Hx Hl Hs. induction Hs as [|y l Hs IH Hy]; simpl.
  - repeat constructor.
  - inversion Hl as [|? ? Hyu Hlu]; subst.
    destruct (comp x y) eqn:E.
    + constructor; [now constructor|].
      assert (Hxy : may_precede comp x y) by (now apply comp_asym).
      constructor; [exact Hxy|].
      rewrite Forall_forall in *. intros z Hz.
      apply may_precede_trans with y; auto.
    + constructor; [now apply IH|].
      rewrite Forall_forall in *. intros z Hz.
      apply (Permutation_in _ (insert_sorted_perm comp x l)) in Hz.
      destruct Hz as [<-|Hz]; [exact E|now apply Hy].
Qed.

Lemma insertion_sort_loop_sorted l : forall sorted,
  Forall (fun a => In a universe) l ->
  Forall (fun a => In a universe) sorted ->
  StronglySorted (may_precede comp) sorted ->
  StronglySorted (may_precede comp)
    (fold_left (fun s x => insert_sorted comp x s) l sorted).
Proof.
  induction l as [|x l IH]; intros sorted Hl Hu Hs; simpl; [exact Hs|].
  inversion Hl; subst. apply IH; auto.
  - rewrite Forall_forall in *. intros a Ha.
    apply (Permutation_in _ (insert_sorted_perm comp x sorted)) in Ha.
    destruct Ha as [<-|Ha]; auto.
  - now apply insert_sorted_sorted.
Qed.

Lemma insertion_sort_sorted l :
  Forall (fun a => In a universe) l ->
  StronglySorted (may_precede comp) (insertion_sort comp l).
Proof.
  intros Hl. apply insertion_sort_loop_sorted; auto; constructor.
Qed.

Lemma strongly_sorted_nth l :
  StronglySorted (may_precede comp) l ->
  forall i j, (i < j < length l)%nat ->
              may_precede comp (nth i l 0) (nth j l 0).
Proof.
  induction 1 as [|a l Hs IH Ha]; intros i j Hij; simpl in Hij; [lia|].
  destruct j as [|j]; [lia|]. destruct i as [|i]; simpl.
  - rewrite Forall_forall in Ha. apply Ha, nth_In. lia.
  - apply IH. lia.
Qed.

End InsertionSort.

Lemma insertion_sort_contract : std_sort_contract insertion_sort.
Proof.
  intros comp l Hswo. split; [apply insertion_sort_perm|].
  intros i j Hij.
  apply (strongly_sorted_nth comp (insertion_sort comp l)).
  - apply (insertion_sort_sorted comp l Hswo).
    rewrite Forall_forall. auto.
  - now rewrite (Permutation_length (insertion_sort_perm comp l)).
Qed.

Lemma insertion_sort_partial_contract :
  std_partial_sort_contract (fun comp _ l => insertion_sort comp l).
Proof.
  intros comp middle l Hswo _.
  destruct (insertion_sort_contract comp l Hswo) as [P S].
  split; [exact P|]. intros i j Hij _. now apply S.
Qed.

Local Open Scope byte_scope.

(** C5, counterexample.  The rows "b" and "a" differ in their last byte
    only, which [less] leaves out: neither row is ordered before the
    other, the sorted permutation keeps them in place, and the payloads
    are then in decreasing order. *)
Lemma get_permutation_ignores_last_byte :
  std_sort_contract insertion_sort
  /\ less true b_then_a 0 1 = false /\ less true b_then_a 1 0 = false
  /\ get_permutation insertion_sort
                     (fun comp _ l => insertion_sort comp l)
                     b_then_a false 0 = [0; 1]
  /\ compare_bytes (row b_then_a 0) (row b_then_a 1) = Gt.
Proof.
  split; [exact insertion_sort_contract|].
  repeat match goal with |- _ /\ _ => split end; reflexivity.
Qed.

Lemma get_permutation_orders_keys_witness :
  get_permutation insertion_sort (fun comp _ l => insertion_sort comp l)
                  three_terminated false 0 = [2; 1; 0]
  /\ compare_bytes
       (row_key three_terminated
          (nth 0 (get_permutation insertion_sort
                    (fun comp _ l => insertion_sort comp l)
                    three_terminated false 0) 0))
       (row_key three_terminated
          (nth 2 (get_permutation insertion_sort
                    (fun comp _ l => insertion_sort comp l)
                    three_terminated false 0) 0))
     <> Gt.
Proof.
  split; [reflexivity|].
  refine (proj1 (proj2 (get_permutation_orders_keys
           insertion_sort (fun comp _ l => insertion_sort comp l)
           three_terminated false 0
           insertion_sort_contract insertion_sort_partial_contract
           _ _) 0%nat 2%nat _ _)).
  - intros r Hr.
    assert (Hcases : r = 0 \/ r = 1 \/ r = 2)
      by (change (size three_terminated) with 3 in Hr; lia).
    destruct Hcases as [->|[->| ->]]; discriminate.
  - lia.
  - simpl; lia.
  - left; reflexivity.
Defined.

End GetPermutationFacts.

(** ** Further properties of the variable-length column *)

Module ColumnJsonMore.
Import ColumnJson ColumnJsonFacts.

Lemma non_decreasing_from_firstn n : forall p offs,
  non_decreasing_from p offs = true ->
  non_decreasing_from p (firstn n offs) = true.
Proof.
  induction n as [|n IH]; intros p [|o offs] H; try reflexivity.
  simpl in *. apply andb_true_iff in H as [H1 H2].
  rewrite H1. simpl. now apply IH.
Qed.

Lemma at_firstn_lt offs n i :
  i < Z.of_nat n -> at_ (firstn n offs) i = at_ offs i.
Proof.
  intros Hi. destruct (Z.ltb_spec i 0) as [Hneg|Hpos].
  - unfold at_. apply Z.ltb_lt in Hneg. now rewrite Hneg.
  - unfold at_. apply Z.ltb_ge in Hpos. rewrite Hpos.
    assert (Hk : (Z.to_nat i < n)%nat) by (apply Z.ltb_ge in Hpos; lia).
    revert Hk. generalize (Z.to_nat i) as k. clear.
    revert offs. induction n as [|n IH]; intros offs k Hk; [lia|].
    destruct offs as [|o offs]; [now destruct k|].
    destruct k as [|k]; [reflexivity|]. simpl. apply IH. lia.
Qed.

Section Operations.

Variable Offset_bits : Z.
Hypothesis Offset_fits_size_t : Offset_bits <= 64.

Ltac as_rows c rs Hinv Hfit :=
  let E := fresh "E" in
  pose proof (invariants_rows c Hinv
                (Offset_range_size_t Offset_bits Offset_fits_size_t _ Hfit))
    as E;
  set (rs := rows c) in *; clearbody rs; subst c;
  rewrite ?chars_of_rows, ?size_of_rows, ?offsets_of_rows in *.

(** *** insert_range_from *)

(** X1.  [insert_range_from(src, start, length)] with the range inside
    [src] returns and appends exactly the rows [start, start + length) of
    [src], in order, behind the rows of the destination, which it keeps. *)
Theorem insert_range_from_appends_rows (dst src : t) (start count : Z) :
  invariants dst -> invariants src ->
  len (chars src) < 2 ^ Offset_bits ->
  0 <= start -> 0 <= count -> start + count <= size src ->
  size src < 2 ^ 64 -> size dst + count < 2 ^ 64 ->
  len (chars dst)
  + (at_ (offsets src) (start + count - 1) - offset_at src start)
  < 2 ^ Offset_bits ->
  exists res,
    insert_range_from Offset_bits dst src start count = Returned res
    /\ rows res
       = rows dst ++ firstn (Z.to_nat count) (skipn (Z.to_nat start) (rows src))
    /\ size res = size dst + count.
Proof.
  intros Hd Hs Hsfit Hstart Hcount Hbound Hs64 Hd64 Hfit.
  destruct (Z.eq_dec count 0) as [->|Hc].
  { exists dst. unfold insert_range_from. simpl.
    rewrite app_nil_r. repeat split; lia. }
  assert (Hdfit : len (chars dst) < 2 ^ Offset_bits).
  { destruct Hs as [Hs1 _ _ Hs4].
    assert (0 <= at_ (offsets src) (start + count - 1) - offset_at src start).
    { unfold offset_at.
      destruct (Z.eq_dec start 0) as [->|].
      - pose proof (Hs4 (count - 1) ltac:(lia)). unfold at_ at 2.
        simpl. replace (0 + count - 1) with (count - 1) by lia. lia.
      - pose proof (Hs1 (start - 1) (start + count - 1)
                        ltac:(lia) ltac:(lia) ltac:(lia)). lia. }
    lia. }
  unfold offset_at in Hfit.
  as_rows src s Hs Hsfit. as_rows dst d Hd Hdfit.
  rewrite range_len in Hfit by lia.
  eexists. split; [apply insert_range_from_of_rows; try assumption; lia|].
  pose proof (Offset_range_size_t Offset_bits Offset_fits_size_t _ Hfit).
  split.
  - apply rows_of_rows. rewrite concat_app, len_app. assumption.
  - rewrite size_of_rows, len_app. f_equal. unfold len.
    rewrite length_firstn, length_skipn. unfold len in *. lia.
Qed.

(** X2.  Inserting a range in two pieces gives the same column as
    inserting it at once. *)
Theorem insert_range_from_in_two_pieces (dst src : t) (start a b : Z) :
  invariants dst -> invariants src ->
  len (chars src) < 2 ^ Offset_bits ->
  0 <= start -> 0 < a -> 0 < b -> start + a + b <= size src ->
  size src < 2 ^ 64 -> size dst + a + b < 2 ^ 64 ->
  len (chars dst)
  + (at_ (offsets src) (start + a + b - 1) - offset_at src start)
  < 2 ^ Offset_bits ->
  exists r1 r2,
    insert_range_from Offset_bits dst src start a = Returned r1
    /\ insert_range_from Offset_bits r1 src (start + a) b = Returned r2
    /\ insert_range_from Offset_bits dst src start (a + b) = Returned r2.
Proof.
  intros Hd Hs Hsfit Hstart Ha Hb Hbound Hs64 Hd64 Hfit.
  assert (Hdfit : len (chars dst) < 2 ^ Offset_bits).
  { destruct Hs as [Hs1 _ _ Hs4].
    assert (0 <= at_ (offsets src) (start + a + b - 1) - offset_at src start).
    { unfold offset_at.
      destruct (Z.eq_dec start 0) as [->|].
      - pose proof (Hs4 (a + b - 1) ltac:(lia)). unfold at_ at 2.
        simpl. replace (0 + a + b - 1) with (a + b - 1) by lia. lia.
      - pose proof (Hs1 (start - 1) (start + a + b - 1)
                        ltac:(lia) ltac:(lia) ltac:(lia)). lia. }
    lia. }
  unfold offset_at in Hfit.
  as_rows src s Hs Hsfit. as_rows dst d Hd Hdfit.
  replace (start + a + b - 1) with (start + (a + b) - 1) in Hfit by lia.
  rewrite range_len in Hfit by lia.
  assert (Hsplit :
            firstn (Z.to_nat (a + b)) (skipn (Z.to_nat start) s)
            = firstn (Z.to_nat a) (skipn (Z.to_nat start) s)
              ++ firstn (Z.to_nat b) (skipn (Z.to_nat (start + a)) s)).
  { rewrite Z2Nat.inj_add, firstn_plus, skipn_skipn by lia.
    do 3 f_equal. lia. }
  rewrite Hsplit, concat_app, len_app in Hfit.
  pose proof (len_nonneg
                (concat (firstn (Z.to_nat a) (skipn (Z.to_nat start) s)))).
  pose proof (len_nonneg
                (concat (firstn (Z.to_nat b) (skipn (Z.to_nat (start + a)) s)))).
  assert (Hla : len (firstn (Z.to_nat a) (skipn (Z.to_nat start) s)) = a).
  { unfold len. rewrite length_firstn, length_skipn. unfold len in *. lia. }
  do 2 eexists. split; [|split].
  - apply insert_range_from_of_rows; try assumption; lia.
  - apply insert_range_from_of_rows; try assumption;
      rewrite ?concat_app, ?len_app; lia.
  - rewrite insert_range_from_of_rows; try assumption; try lia.
    + now rewrite Hsplit, app_assoc.
    + rewrite Hsplit, concat_app, len_app. lia.
Qed.

(** *** The arena *)

(** X3.  [deserialize_and_insert_from_arena] on any column appends exactly
    one row, the bytes behind the length prefix, keeps the rows the column
    has, and returns the address behind the bytes it read. *)
Theorem deserialize_appends_one_row (c : t) (mem : list byte) (pos : Z) :
  invariants c ->
  len (chars c) + unaligned_load_size_t mem pos < 2 ^ Offset_bits ->
  let n := unaligned_load_size_t mem pos in
  let res := deserialize_and_insert_from_arena Offset_bits c mem pos in
  fst res = pos + 8 + n
  /\ rows (snd res) = rows c ++ [bytes_at mem (pos + 8) n]
  /\ size (snd res) = size c + 1
  /\ invariants (snd res).
Proof.
  intros Hinv Hfit n res. subst res n.
  pose proof (unaligned_load_nonneg mem pos) as Hn.
  assert (Hcfit : len (chars c) < 2 ^ Offset_bits) by lia.
  as_rows c rs Hinv Hcfit.
  rewrite deserialize_of_rows by assumption.
  cbn [fst snd]. unfold sizeof_size_t. split; [reflexivity|].
  split; [|split].
  - apply rows_of_rows. rewrite concat_app, len_app. cbn [concat].
    rewrite app_nil_r, len_bytes_at by lia.
    apply (Offset_range_size_t Offset_bits Offset_fits_size_t). lia.
  - rewrite size_of_rows, len_app. reflexivity.
  - apply invariants_of_rows.
Qed.

(** X4.  Values serialized one after the other lie back to back in the
    arena: the second starts where the first ends, and two reads from the
    start of the first append the two rows, in order, and stop at the end
    of the arena. *)
Theorem arena_values_back_to_back (c1 c2 dst : t) (n1 n2 : Z)
  (arena : list byte) :
  invariants c1 -> len (chars c1) < 2 ^ Offset_bits -> 0 <= n1 < size c1 ->
  invariants c2 -> len (chars c2) < 2 ^ Offset_bits -> 0 <= n2 < size c2 ->
  invariants dst ->
  len (chars dst) + len (row c1 n1) + len (row c2 n2) < 2 ^ Offset_bits ->
  sizeof_size_t + len (row c1 n1) < 2 ^ 64 ->
  sizeof_size_t + len (row c2 n2) < 2 ^ 64 ->
  let ref1 := fst (serialize_value_into_arena c1 n1 arena) in
  let arena1 := snd (serialize_value_into_arena c1 n1 arena) in
  let ref2 := fst (serialize_value_into_arena c2 n2 arena1) in
  let arena2 := snd (serialize_value_into_arena c2 n2 arena1) in
  let read1 :=
    deserialize_and_insert_from_arena Offset_bits dst arena2 (data ref1) in
  let read2 :=
    deserialize_and_insert_from_arena Offset_bits (snd read1) arena2
                                      (fst read1) in
  data ref2 = data ref1 + ref_size ref1
  /\ fst read1 = data ref2
  /\ fst read2 = len arena2
  /\ rows (snd read2) = rows dst ++ [row c1 n1; row c2 n2].
Proof.
  intros H1 Hfit1 Hn1 H2 Hfit2 Hn2 Hd Hfit Hs1 Hs2.
  pose proof (Offset_range_size_t Offset_bits Offset_fits_size_t _ Hfit1).
  pose proof (Offset_range_size_t Offset_bits Offset_fits_size_t _ Hfit2).
  pose proof (len_nonneg (row c1 n1)) as Hr1.
  pose proof (len_nonneg (row c2 n2)) as Hr2.
  pose proof (len_nonneg (chars dst)) as Hcd.
  assert (Hdfit : len (chars dst) < 2 ^ Offset_bits) by lia.
  assert (Hpow : 2 ^ Offset_bits <= 2 ^ 64).
  { destruct (Z.le_gt_cases 0 Offset_bits).
    - apply Z.pow_le_mono_r; lia.
    - rewrite Z.pow_neg_r by lia. lia. }
  revert Hfit Hr1 Hr2 Hs1 Hs2.
  as_rows c1 rs1 H1 Hfit1. as_rows c2 rs2 H2 Hfit2. as_rows dst d Hd Hdfit.
  rewrite !row_of_rows by assumption.
  set (r1 := nth (Z.to_nat n1) rs1 []). set (r2 := nth (Z.to_nat n2) rs2 []).
  intros Hfit Hr1 Hr2 Hs1 Hs2.
  assert (Hr1' : len r1 <= len (concat rs1)) by apply len_nth_le_concat.
  assert (Hr2' : len r2 <= len (concat rs2)) by apply len_nth_le_concat.
  unfold sizeof_size_t in *.
  rewrite (serialize_value_into_arena_spec rs1 n1 arena)
    by (try assumption; fold r1; unfold sizeof_size_t; lia).
  fold r1. cbn [fst snd data ref_size].
  rewrite (serialize_value_into_arena_spec rs2 n2)
    by (try assumption; fold r2; unfold sizeof_size_t; lia).
  fold r2. cbn [fst snd data ref_size]. unfold sizeof_size_t.
  assert (Hhdr : forall x, len (size_t_bytes x) = 8)
    by (intros; unfold size_t_bytes, len; now rewrite length_le_split).
  set (a1 := arena ++ size_t_bytes (len r1) ++ r1).
  assert (Ha1 : len a1 = len arena + 8 + len r1).
  { unfold a1. rewrite !len_app, Hhdr. lia. }
  assert (Hload1 : unaligned_load_size_t
                     (a1 ++ size_t_bytes (len r2) ++ r2) (len arena) = len r1).
  { unfold unaligned_load_size_t, sizeof_size_t, a1.
    rewrite <- (Hhdr (len r1)), <- !app_assoc.
    rewrite bytes_at_inside. unfold size_t_bytes.
    rewrite le_combine_split. apply Z.mod_small. simpl Z.of_nat. lia. }
  assert (Hpay1 : bytes_at (a1 ++ size_t_bytes (len r2) ++ r2)
                           (len arena + 8) (len r1) = r1).
  { unfold a1. rewrite <- (Hhdr (len r1)), <- len_app.
    rewrite <- !app_assoc.
    rewrite (app_assoc arena (size_t_bytes (len r1))).
    apply bytes_at_inside. }
  assert (Hload2 : unaligned_load_size_t
                     (a1 ++ size_t_bytes (len r2) ++ r2) (len a1) = len r2).
  { unfold unaligned_load_size_t, sizeof_size_t.
    rewrite <- (Hhdr (len r2)).
    rewrite bytes_at_inside. unfold size_t_bytes.
    rewrite le_combine_split. apply Z.mod_small. simpl Z.of_nat. lia. }
  assert (Hpay2 : bytes_at (a1 ++ size_t_bytes (len r2) ++ r2)
                           (len a1 + 8) (len r2) = r2).
  { rewrite <- (Hhdr (len r2)), <- len_app, app_assoc.
    rewrite <- (app_nil_r r2) at 2. apply bytes_at_inside. }
  set (a2 := a1 ++ size_t_bytes (len r2) ++ r2) in *.
  pose proof (deserialize_of_rows Offset_bits Offset_fits_size_t d a2
                                  (len arena)) as D1.
  rewrite Hload1 in D1. specialize (D1 ltac:(lia)).
  unfold sizeof_size_t in D1. rewrite Hpay1 in D1.
  replace (len arena + 8 + len r1) with (len a1) in D1 by lia.
  rewrite D1. cbn [fst snd].
  pose proof (deserialize_of_rows Offset_bits Offset_fits_size_t (d ++ [r1])
                                  a2 (len a1)) as D2.
  rewrite Hload2 in D2.
  assert (Hc1 : len (concat (d ++ [r1])) = len (concat d) + len r1).
  { rewrite concat_app, len_app. cbn [concat]. now rewrite app_nil_r. }
  specialize (D2 ltac:(lia)).
  unfold sizeof_size_t in D2. rewrite Hpay2 in D2.
  rewrite D2. cbn [fst snd]. subst a2.
  repeat split.
  - lia.
  - rewrite !len_app, Hhdr. lia.
  - rewrite <- app_assoc. cbn [app]. apply rows_of_rows.
    rewrite !concat_app, !len_app. cbn [concat].
    rewrite app_nil_r, len_app. lia.
Qed.

(** *** clone_resized and resize to fewer rows *)

(** X5.  [clone_resized] to the column's own row count returns an equal
    column, taking a prefix of a prefix is taking the shorter prefix, and
    cutting a grown copy back to the original row count returns the
    original column. *)
Theorem clone_resized_prefix_of_prefix (c : t) (j k : Z) :
  invariants c -> len (chars c) < 2 ^ Offset_bits ->
  0 <= j <= k -> k <= size c ->
  clone_resized Offset_bits c (size c) = c
  /\ clone_resized Offset_bits (clone_resized Offset_bits c k) j
     = clone_resized Offset_bits c j
  /\ (forall m,
         size c < m -> len (chars c) + (m - size c) < 2 ^ Offset_bits ->
         clone_resized Offset_bits (clone_resized Offset_bits c m) (size c)
         = c).
Proof.
  intros Hinv Hfit Hj Hk.
  as_rows c rs Hinv Hfit.
  pose proof (len_nonneg rs).
  split; [|split].
  3:{ intros m Hm Hmfit.
      rewrite (clone_resized_of_rows_grow Offset_bits Offset_fits_size_t)
        by assumption.
      rewrite (clone_resized_of_rows_shrink Offset_bits)
        by (rewrite len_app; pose proof (len_nonneg
              (repeat [Byte.x00] (Z.to_nat (m - len rs)))); lia).
      unfold len. rewrite Nat2Z.id, firstn_app, Nat.sub_diag, firstn_O.
      now rewrite firstn_all, app_nil_r. }
  - rewrite (clone_resized_of_rows_shrink Offset_bits) by lia.
    unfold len. rewrite Nat2Z.id, firstn_all. reflexivity.
  - rewrite (clone_resized_of_rows_shrink Offset_bits rs k) by lia.
    rewrite (clone_resized_of_rows_shrink Offset_bits (firstn _ rs)).
    + rewrite (clone_resized_of_rows_shrink Offset_bits rs j) by lia.
      rewrite firstn_firstn. do 2 f_equal. lia.
    + unfold len in *. rewrite length_firstn. lia.
Qed.

Section ResizeShrink.

Variable default_row : list byte.

(** X6.  [resize] to a smaller row count [n] keeps the first [n] rows and
    leaves [chars] as it is: the bytes of the dropped rows stay, so the
    result satisfies [chars.size() == offsets.back()] only when the
    dropped rows had no bytes. *)
Theorem resize_to_fewer_rows (c : t) (n : Z) :
  0 <= n < size c ->
  let res := resize Offset_bits default_row c n in
  size res = n
  /\ chars res = chars c
  /\ rows res = firstn (Z.to_nat n) (rows c)
  /\ (invariants c ->
      (invariants res <-> at_ (offsets c) (n - 1) = len (chars c))).
Proof.
  intros Hn res. subst res. unfold resize.
  destruct (n <? size c) eqn:E; [clear E|apply Z.ltb_ge in E; lia].
  unfold size in *. cbn [offsets chars].
  assert (Hres : pod_resize 0 (offsets c) n = firstn (Z.to_nat n) (offsets c)).
  { unfold pod_resize.
    replace (Z.to_nat n - length (offsets c))%nat with 0%nat
      by (unfold len in Hn; lia).
    apply app_nil_r. }
  rewrite Hres.
  assert (Hlen : length (firstn (Z.to_nat n) (offsets c)) = Z.to_nat n).
  { rewrite length_firstn. unfold len in Hn. lia. }
  split; [unfold len; rewrite Hlen; lia|]. split; [reflexivity|]. split.
  - unfold rows. cbn [offsets]. rewrite Hlen.
    replace (length (offsets c))
      with (Z.to_nat n + (length (offsets c) - Z.to_nat n))%nat
      by (unfold len in Hn; lia).
    rewrite seq_app, map_app, firstn_app, length_map, length_seq.
    rewrite Nat.sub_diag, firstn_O, app_nil_r.
    rewrite (firstn_all2 (map _ (seq 0 (Z.to_nat n))))
      by (rewrite length_map, length_seq; lia).
    apply map_ext_in. intros i Hi. apply in_seq in Hi.
    unfold row, offset_at, size_at. cbn [offsets chars].
    rewrite !at_firstn_lt by lia. reflexivity.
  - intros Hinv.
    assert (Hback : back (firstn (Z.to_nat n) (offsets c))
                    = at_ (offsets c) (n - 1)).
    { unfold back, len. rewrite Hlen, Z2Nat.id by lia.
      apply at_firstn_lt. lia. }
    split.
    + intros Hres'. apply check_invariants_complete in Hres'.
      unfold check_invariants in Hres'. cbn [offsets chars] in Hres'.
      apply andb_true_iff in Hres' as [_ Hres'].
      apply Z.eqb_eq in Hres'. lia.
    + intros Heq. apply check_invariants_sound.
      unfold check_invariants. cbn [offsets chars].
      apply check_invariants_complete in Hinv.
      unfold check_invariants in Hinv.
      apply andb_true_iff in Hinv as [Hnd _].
      rewrite non_decreasing_from_firstn by assumption.
      rewrite Hback. simpl. apply Z.eqb_eq. lia.
Qed.

End ResizeShrink.

(** *** permute and index_impl *)

Lemma firstn_seq_le (k n : nat) :
  (k <= n)%nat -> firstn k (seq 0 n) = seq 0 k.
Proof.
  intros H. replace n with (k + (n - k))%nat by lia.
  rewrite seq_app, firstn_app, length_seq, Nat.sub_diag, firstn_O, app_nil_r.
  apply firstn_all2. rewrite length_seq. lia.
Qed.

Lemma permutation_entry_in_range (p : list Z) (n : nat) (i : Z) :
  Permutation p (map Z.of_nat (seq 0 n)) -> 0 <= i < Z.of_nat n ->
  0 <= at_ p i < Z.of_nat n.
Proof.
  intros Hp Hi.
  assert (Hlen : length p = n).
  { apply Permutation_length in Hp.
    now rewrite length_map, length_seq in Hp. }
  assert (Hin : In (at_ p i) (map Z.of_nat (seq 0 n))).
  { eapply Permutation_in; [exact Hp|]. unfold at_.
    destruct (i <? 0) eqn:E; [apply Z.ltb_lt in E; lia|].
    apply nth_In. lia. }
  apply in_map_iff in Hin as [j [<- Hj]]. apply in_seq in Hj. lia.
Qed.

(** X7.  Permuting all rows by [p] and the result by [q] returns the
    column itself when [p] undoes [q], i.e. [p[q[i]] = i] for every row
    number [i]. *)
Theorem permute_then_inverse (c : t) (p q : list Z) :
  invariants c -> len (chars c) < 2 ^ Offset_bits ->
  Permutation p (map Z.of_nat (seq 0 (length (offsets c)))) ->
  Permutation q (map Z.of_nat (seq 0 (length (offsets c)))) ->
  (forall i, 0 <= i < size c -> at_ p (at_ q i) = i) ->
  exists r,
    permute Offset_bits c p 0 = Returned r
    /\ permute Offset_bits r q 0 = Returned c.
Proof.
  intros Hinv Hfit Hp Hq Hpq. unfold size in Hpq.
  as_rows c rs Hinv Hfit. rewrite length_prefix_sums in Hp, Hq.
  rewrite len_prefix_sums in Hpq.
  assert (Hlp : length p = length rs).
  { apply Permutation_length in Hp.
    now rewrite length_map, length_seq in Hp. }
  assert (Hlq : length q = length rs).
  { apply Permutation_length in Hq.
    now rewrite length_map, length_seq in Hq. }
  assert (Heff : effective_limit (len rs) 0 = len rs) by reflexivity.
  pose proof (permute_of_rows Offset_bits Offset_fits_size_t rs p 0 [])
    as P1.
  rewrite Heff in P1.
  replace (Z.to_nat (len rs)) with (length p) in P1 by (unfold len; lia).
  rewrite firstn_all, app_nil_r, Hlp in P1.
  specialize (P1 ltac:(lia) ltac:(unfold len; lia) Hp Hfit).
  set (rs1 := map (picked rs p) (seq 0 (length rs))) in *.
  assert (Hl1 : length rs1 = length rs)
    by (unfold rs1; now rewrite length_map, length_seq).
  assert (Hw1 : len (concat rs1) = len (concat rs)).
  { unfold rs1. rewrite map_picked by lia.
    rewrite <- Hlp, firstn_all.
    change (weight rs p = len (concat rs)).
    rewrite (weight_perm rs _ _ Hp). apply weight_all. }
  exists (of_rows rs1). split; [exact P1|].
  pose proof (permute_of_rows Offset_bits Offset_fits_size_t rs1 q 0 [])
    as P2.
  assert (Heff1 : effective_limit (len rs1) 0 = len rs1) by reflexivity.
  rewrite Heff1 in P2.
  replace (Z.to_nat (len rs1)) with (length q) in P2 by (unfold len; lia).
  rewrite firstn_all, app_nil_r, Hl1, Hlq in P2.
  specialize (P2 ltac:(lia) ltac:(unfold len; lia) Hq ltac:(lia)).
  rewrite P2. do 2 f_equal.
  apply (map_seq_nth _ rs []). intros i Hi. unfold picked at 1.
  pose proof (permutation_entry_in_range q (length rs) (Z.of_nat i) Hq
                                         ltac:(lia)) as Hqi.
  unfold rs1.
  rewrite (nth_indep _ [] (picked rs p 0))
    by (rewrite length_map, length_seq; lia).
  rewrite (map_nth (picked rs p) _ 0%nat), seq_nth by lia.
  unfold picked. simpl.
  rewrite Z2Nat.id by lia. rewrite Hpq by (unfold len; lia).
  now rewrite Nat2Z.id.
Qed.

Lemma index_impl_of_rows (rs : list (list byte)) (indexes : list Z)
  (limit : Z) :
  0 <= limit ->
  (forall k, (0 <= k < 0 + Z.to_nat limit)%nat ->
             0 <= at_ indexes (Z.of_nat k) < len rs) ->
  len (concat rs) < 2 ^ Offset_bits ->
  len (concat (map (picked rs indexes) (seq 0 (Z.to_nat limit))))
  < 2 ^ Offset_bits ->
  index_impl Offset_bits (of_rows rs) indexes limit
  = of_rows (map (picked rs indexes) (seq 0 (Z.to_nat limit))).
Proof.
  intros Hlimit Hidx' Hfit Hsel.
  pose proof (Offset_range_size_t Offset_bits Offset_fits_size_t _ Hfit)
    as Hfit64.
  pose proof (Offset_range_size_t Offset_bits Offset_fits_size_t _ Hsel)
    as Hsel64.
  set (sel := map (picked rs indexes) (seq 0 (Z.to_nat limit))) in *.
  unfold index_impl. destruct (limit =? 0) eqn:E0.
  { apply Z.eqb_eq in E0. unfold sel. rewrite E0. reflexivity. }
  rewrite (permute_size_sum rs indexes);
    [|exact Hidx'|exact Hfit64|lia|fold sel; lia].
  fold sel. rewrite Z.add_0_l, !pod_resize_nil, to_nat_len.
  pose proof (permute_loop_spec Offset_bits Offset_fits_size_t rs indexes
                (Z.to_nat limit) 0 [] (repeat 0 (Z.to_nat limit)) eq_refl
                (repeat_length _ _) Hidx' Hfit) as Hloop.
  cbn [app concat prefix_sums] in Hloop. fold sel in Hloop.
  change (len []) with 0 in Hloop.
  rewrite Hloop by lia. reflexivity.
Qed.

(** X8.  [index_impl(indexes, limit)] gathers: the result has [limit]
    rows, and row [i] is the source row number [indexes[i]], which may be
    named any number of times.  The result satisfies the invariants. *)
Theorem index_impl_gathers (c : t) (indexes : list Z) (limit : Z) :
  invariants c -> len (chars c) < 2 ^ Offset_bits ->
  0 <= limit <= len indexes ->
  (forall i, 0 <= i < limit -> 0 <= at_ indexes i < size c) ->
  len (concat (map (fun i => row c (at_ indexes (Z.of_nat i)))
                   (seq 0 (Z.to_nat limit))))
  < 2 ^ Offset_bits ->
  let res := index_impl Offset_bits c indexes limit in
  size res = limit
  /\ rows res
     = map (fun i => row c (at_ indexes (Z.of_nat i))) (seq 0 (Z.to_nat limit))
  /\ (forall i, 0 <= i < limit -> row res i = row c (at_ indexes i))
  /\ invariants res.
Proof.
  intros Hinv Hfit Hlimit Hidx Hsel res. subst res.
  pose proof (Offset_range_size_t Offset_bits Offset_fits_size_t _ Hfit)
    as Hfit64.
  pose proof (Offset_range_size_t Offset_bits Offset_fits_size_t _ Hsel)
    as Hsel64.
  revert Hsel Hsel64. as_rows c rs Hinv Hfit. intros Hsel Hsel64.
  assert (Hidx' : forall k, (0 <= k < 0 + Z.to_nat limit)%nat ->
                            0 <= at_ indexes (Z.of_nat k) < len rs).
  { intros k Hk. apply Hidx. lia. }
  assert (Hmap : map (fun i => row (of_rows rs) (at_ indexes (Z.of_nat i)))
                     (seq 0 (Z.to_nat limit))
                 = map (picked rs indexes) (seq 0 (Z.to_nat limit))).
  { apply map_ext_in. intros i Hi. apply in_seq in Hi.
    apply row_of_rows; [assumption|]. apply Hidx'. lia. }
  rewrite Hmap in *.
  set (sel := map (picked rs indexes) (seq 0 (Z.to_nat limit))) in *.
  assert (Hlsel : len sel = limit).
  { unfold sel, len. rewrite length_map, length_seq. lia. }
  assert (Hres : index_impl Offset_bits (of_rows rs) indexes limit
                 = of_rows sel).
  { apply index_impl_of_rows; try assumption. lia. }
  rewrite Hres. rewrite size_of_rows, rows_of_rows by assumption.
  split; [assumption|]. split; [reflexivity|]. split.
  - intros i Hi. rewrite row_of_rows by (try assumption; lia).
    rewrite row_of_rows by (try assumption; apply Hidx; lia).
    unfold sel.
    rewrite (nth_indep _ [] (picked rs indexes 0))
      by (rewrite length_map, length_seq; lia).
    rewrite (map_nth (picked rs indexes) _ 0%nat), seq_nth by lia.
    unfold picked. simpl. now rewrite Z2Nat.id by lia.
  - apply invariants_of_rows.
Qed.

(** X9.  For a permutation of all row numbers, [permute] with a limit
    returns the first [limit] rows of [permute] without a limit, and
    [index_impl] with the same arguments returns the same column. *)
Theorem permute_limit_takes_prefix (c : t) (perm : list Z) (limit : Z) :
  invariants c -> len (chars c) < 2 ^ Offset_bits ->
  Permutation perm (map Z.of_nat (seq 0 (length (offsets c)))) ->
  0 < limit <= size c ->
  exists full res,
    permute Offset_bits c perm 0 = Returned full
    /\ permute Offset_bits c perm limit = Returned res
    /\ res = clone_resized Offset_bits full limit
    /\ res = index_impl Offset_bits c perm limit.
Proof.
  intros Hinv Hfit Hp Hlimit. unfold size in Hlimit.
  as_rows c rs Hinv Hfit. rewrite length_prefix_sums in Hp.
  rewrite len_prefix_sums in Hlimit.
  assert (Hlp : length perm = length rs).
  { apply Permutation_length in Hp.
    now rewrite length_map, length_seq in Hp. }
  (* without a limit *)
  pose proof (permute_of_rows Offset_bits Offset_fits_size_t rs perm 0 [])
    as P1.
  change (effective_limit (len rs) 0) with (len rs) in P1.
  replace (Z.to_nat (len rs)) with (length perm) in P1 by (unfold len; lia).
  rewrite firstn_all, app_nil_r, Hlp in P1.
  specialize (P1 ltac:(lia) ltac:(unfold len; lia) Hp Hfit).
  (* with the limit *)
  assert (Heff : effective_limit (len rs) limit = limit).
  { unfold effective_limit.
    destruct (limit =? 0) eqn:E; [apply Z.eqb_eq in E; lia|lia]. }
  pose proof (permute_of_rows Offset_bits Offset_fits_size_t rs perm limit
                              (skipn (Z.to_nat limit) perm)) as P2.
  rewrite Heff, firstn_skipn in P2.
  specialize (P2 ltac:(lia) ltac:(unfold len in *; lia) Hp Hfit).
  exists (of_rows (map (picked rs perm) (seq 0 (length rs)))),
         (of_rows (map (picked rs perm) (seq 0 (Z.to_nat limit)))).
  split; [exact P1|]. split; [exact P2|]. split.
  - rewrite (clone_resized_of_rows_shrink Offset_bits)
      by (unfold len in *; rewrite length_map, length_seq; lia).
    f_equal. rewrite firstn_map, firstn_seq_le; [reflexivity|].
    unfold len in Hlimit. lia.
  - symmetry. apply index_impl_of_rows; try assumption; try lia.
    + intros k Hk.
      apply (permutation_entry_in_range perm (length rs) (Z.of_nat k) Hp).
      unfold len in Hlimit. lia.
    + rewrite map_picked by (unfold len in Hlimit; lia).
      pose proof (weight_perm rs _ _ Hp) as Hw. rewrite weight_all in Hw.
      rewrite <- (firstn_skipn (Z.to_nat limit) perm), weight_app in Hw.
      unfold weight in Hw at 1.
      match type of Hw with
      | _ + ?x = _ => assert (0 <= x) by apply len_nonneg
      end.
      lia.
Qed.

(** *** replicate into a given column *)

Lemma replicate_row_appends c pso r n : forall cur offs chs,
  bytes_at (chars c) pso (len r) = r ->
  0 <= cur -> cur + Z.of_nat n * len r < 2 ^ Offset_bits ->
  len chs + Z.of_nat n * len r < 2 ^ 64 ->
  replicate_row Offset_bits n c pso (len r) (mkCopy cur offs chs)
  = mkCopy (cur + Z.of_nat n * len r)
           (offs ++ prefix_sums cur (repeat r n))
           (chs ++ concat (repeat r n)).
Proof.
  induction n as [|n IH]; intros cur offs chs Hr Hcur Hfit Hfit64.
  - simpl. rewrite !app_nil_r. f_equal. lia.
  - pose proof (len_nonneg chs). pose proof (len_nonneg r).
    cbn [replicate_row current_new_offset res_offsets res_chars].
    rewrite (to_Offset_small Offset_bits) by nia.
    rewrite (to_size_t_small (len chs + len r)) by nia.
    rewrite pod_resize_grow by lia. rewrite len_app, len_repeat.
    rewrite Z2Nat.id by lia.
    replace (len chs + len r - len r) with (len chs) by lia.
    rewrite to_size_t_small by nia.
    rewrite Hr, to_nat_len, memcpy_append.
    rewrite IH; [|exact Hr|lia|nia|rewrite len_app; nia].
    cbn [repeat prefix_sums concat]. rewrite <- !app_assoc. cbn [app].
    f_equal. lia.
Qed.

Lemma replicate_counts_loop_appends rs counts n : forall i cur offs chs,
  (i + n = length rs)%nat ->
  (forall k, (i <= k < i + n)%nat -> 0 <= at_ counts (Z.of_nat k)) ->
  len (concat rs) < 2 ^ Offset_bits ->
  0 <= cur ->
  cur + len (concat
               (flat_map
                  (fun j => repeat (nth j rs [])
                                   (Z.to_nat (at_ counts (Z.of_nat j))))
                  (seq i n)))
  < 2 ^ Offset_bits ->
  len chs + len (concat
                   (flat_map
                      (fun j => repeat (nth j rs [])
                                       (Z.to_nat (at_ counts (Z.of_nat j))))
                      (seq i n)))
  < 2 ^ 64 ->
  replicate_counts_loop Offset_bits n (of_rows rs) counts (Z.of_nat i)
                        (at_ (prefix_sums 0 rs) (Z.of_nat i - 1))
                        (mkCopy cur offs chs)
  = mkCopy
      (cur + len (concat
                    (flat_map
                       (fun j => repeat (nth j rs [])
                                        (Z.to_nat (at_ counts (Z.of_nat j))))
                       (seq i n))))
      (offs ++ prefix_sums cur
                 (flat_map
                    (fun j => repeat (nth j rs [])
                                     (Z.to_nat (at_ counts (Z.of_nat j))))
                    (seq i n)))
      (chs ++ concat
              (flat_map
                 (fun j => repeat (nth j rs [])
                                  (Z.to_nat (at_ counts (Z.of_nat j))))
                 (seq i n))).
Proof.
  set (f := fun j => repeat (nth j rs [])
                            (Z.to_nat (at_ counts (Z.of_nat j)))).
  induction n as [|n IH]; intros i cur offs chs Hin Hcnt Hcs Hcur Hfit Hfit64.
  - simpl. rewrite !app_nil_r. f_equal. change (len []) with 0. lia.
  - cbn [replicate_counts_loop seq flat_map] in *.
    rewrite offsets_of_rows.
    assert (Hi : 0 <= Z.of_nat i < len rs) by (unfold len; lia).
    rewrite row_len_of_rows by exact Hi. rewrite Nat2Z.id.
    pose proof (len_nth_le_concat rs i) as Hle.
    pose proof (len_nonneg (nth i rs [])) as H0.
    pose proof (len_nonneg chs) as Hchs.
    rewrite (to_Offset_small Offset_bits) by lia.
    rewrite concat_app, len_app in Hfit, Hfit64.
    pose proof (len_nonneg (concat (flat_map f (seq (S i) n)))) as Hrest.
    assert (Hrow : len (concat (f i))
                   = Z.of_nat (Z.to_nat (at_ counts (Z.of_nat i)))
                     * len (nth i rs [])).
    { unfold f. apply concat_repeat_len. }
    rewrite replicate_row_appends; [| |lia|lia|lia].
    + fold (f i). rewrite <- Hrow.
      replace (Z.of_nat i + 1) with (Z.of_nat (S i)) by lia.
      replace (at_ (prefix_sums 0 rs) (Z.of_nat i))
        with (at_ (prefix_sums 0 rs) (Z.of_nat (S i) - 1)) by (f_equal; lia).
      pose proof (len_nonneg (concat (f i))).
      rewrite IH; try assumption; try lia.
      * rewrite prefix_sums_app, concat_app, len_app, <- !app_assoc.
        f_equal. lia.
      * intros k Hk. apply Hcnt. lia.
      * rewrite len_app. lia.
    + pose proof (bytes_at_row rs (Z.of_nat i) Hi) as Hb.
      rewrite Nat2Z.id in Hb. rewrite chars_of_rows. exact Hb.
Qed.

(** X10.  [replicate(counts, target_size, column)] appends to [column], for
    every source row in order, [counts[i]] copies of its bytes, and keeps
    what [column] holds.  The offsets it appends count from 0, not from
    the bytes [column] already has: when [column] holds bytes and a row is
    appended, the result breaks [chars.size() == offsets.back()].  An empty
    source leaves [column] as it is. *)
Theorem replicate_counts_appends (c : t) (counts : list Z) (target_size : Z)
  (column : t) :
  invariants c -> len (chars c) < 2 ^ Offset_bits ->
  (forall i, 0 <= i < size c -> 0 <= at_ counts i) ->
  let new_rows :=
    flat_map (fun i => repeat (row c (Z.of_nat i))
                              (Z.to_nat (at_ counts (Z.of_nat i))))
             (seq 0 (length (offsets c))) in
  len (concat new_rows) < 2 ^ Offset_bits ->
  len (chars column) + len (concat new_rows) < 2 ^ 64 ->
  let res := replicate_counts Offset_bits c counts target_size column in
  res = mk (offsets column ++ prefix_sums 0 new_rows)
           (chars column ++ concat new_rows)
  /\ (size c = 0 -> res = column)
  /\ (new_rows <> [] -> chars column <> [] -> ~ invariants res).
Proof.
  intros Hinv Hfit Hcnt new_rows Hnew Hnew64 res.
  pose proof (Offset_range_size_t Offset_bits Offset_fits_size_t _ Hfit)
    as Hfit64.
  assert (Hres : res = mk (offsets column ++ prefix_sums 0 new_rows)
                          (chars column ++ concat new_rows)).
  { subst res new_rows. revert Hnew Hnew64. unfold size in Hcnt.
    as_rows c rs Hinv Hfit. rewrite length_prefix_sums.
    rewrite len_prefix_sums in Hcnt.
    assert (Hmap : flat_map
                     (fun i => repeat (row (of_rows rs) (Z.of_nat i))
                                      (Z.to_nat (at_ counts (Z.of_nat i))))
                     (seq 0 (length rs))
                   = flat_map
                       (fun j => repeat (nth j rs [])
                                        (Z.to_nat (at_ counts (Z.of_nat j))))
                       (seq 0 (length rs))).
    { apply flat_map_ext_on. intros i Hi. apply in_seq in Hi.
      rewrite row_of_rows by (try assumption; unfold len; lia).
      now rewrite Nat2Z.id. }
    rewrite Hmap. intros Hnew Hnew64.
    unfold replicate_counts. rewrite size_of_rows.
    destruct (len rs =? 0) eqn:E0.
    { apply Z.eqb_eq in E0. apply len_zero_nil in E0. subst rs.
      simpl. rewrite !app_nil_r. now destruct column. }
    rewrite to_nat_len.
    pose proof (replicate_counts_loop_appends rs counts (length rs) 0 0
                  (offsets column) (chars column) eq_refl) as Hloop.
    change (Z.of_nat 0) with 0 in Hloop.
    rewrite (at_neg (prefix_sums 0 rs)) in Hloop by lia.
    rewrite Hloop; try assumption; try lia.
    - reflexivity.
    - intros k Hk. apply Hcnt. unfold len. lia. }
  split; [exact Hres|]. split.
  - intros H0. subst res. unfold replicate_counts.
    now rewrite H0.
  - intros Hne Hcol Hbad. rewrite Hres in Hbad.
    destruct Hbad as [_ Hsz _ _]. unfold size in Hsz.
    cbn [offsets chars] in Hsz.
    assert (Hlen : 0 < len new_rows).
    { destruct new_rows; [congruence|]. unfold len. simpl. lia. }
    rewrite !len_app, len_prefix_sums in Hsz.
    pose proof (len_nonneg (offsets column)).
    specialize (Hsz ltac:(lia)).
    unfold back in Hsz. rewrite len_app, len_prefix_sums in Hsz.
    rewrite at_app_r in Hsz by lia.
    replace (len (offsets column) + len new_rows - 1 - len (offsets column))
      with (len new_rows - 1) in Hsz by lia.
    pose proof (back_prefix_sums new_rows) as Hb. unfold back in Hb.
    rewrite len_prefix_sums in Hb. rewrite Hb in Hsz.
    assert (len (chars column) = 0) by lia.
    apply Hcol. now apply len_zero_nil.
Qed.

(** X11.  Into an empty column, [replicate(counts, target_size, column)]
    builds the column whose rows are the source rows, each [counts[i]]
    times; it satisfies the invariants, and with every count equal to 1 it
    is a copy of the source. *)
Theorem replicate_counts_into_empty (c : t) (counts : list Z)
  (target_size : Z) :
  invariants c -> len (chars c) < 2 ^ Offset_bits ->
  (forall i, 0 <= i < size c -> 0 <= at_ counts i) ->
  let new_rows :=
    flat_map (fun i => repeat (row c (Z.of_nat i))
                              (Z.to_nat (at_ counts (Z.of_nat i))))
             (seq 0 (length (offsets c))) in
  len (concat new_rows) < 2 ^ Offset_bits ->
  let res := replicate_counts Offset_bits c counts target_size create in
  rows res = new_rows
  /\ invariants res
  /\ ((forall i, 0 <= i < size c -> at_ counts i = 1) -> res = c).
Proof.
  intros Hinv Hfit Hcnt new_rows Hnew res.
  pose proof (Offset_range_size_t Offset_bits Offset_fits_size_t _ Hfit)
    as Hfit64.
  pose proof (Offset_range_size_t Offset_bits Offset_fits_size_t _ Hnew)
    as Hnew64.
  assert (Hres : res = of_rows new_rows).
  { subst res new_rows. revert Hnew Hnew64. unfold size in Hcnt.
    as_rows c rs Hinv Hfit. rewrite length_prefix_sums.
    rewrite len_prefix_sums in Hcnt.
    assert (Hmap : flat_map
                     (fun i => repeat (row (of_rows rs) (Z.of_nat i))
                                      (Z.to_nat (at_ counts (Z.of_nat i))))
                     (seq 0 (length rs))
                   = flat_map
                       (fun j => repeat (nth j rs [])
                                        (Z.to_nat (at_ counts (Z.of_nat j))))
                       (seq 0 (length rs))).
    { apply flat_map_ext_on. intros i Hi. apply in_seq in Hi.
      rewrite row_of_rows by (try assumption; unfold len; lia).
      now rewrite Nat2Z.id. }
    rewrite Hmap. intros Hnew Hnew64.
    unfold replicate_counts. rewrite size_of_rows.
    destruct (len rs =? 0) eqn:E0.
    { apply Z.eqb_eq in E0. apply len_zero_nil in E0. subst rs.
      reflexivity. }
    rewrite to_nat_len.
    pose proof (replicate_counts_loop_appends rs counts (length rs) 0 0
                  [] [] eq_refl) as Hloop.
    change (Z.of_nat 0) with 0 in Hloop.
    rewrite (at_neg (prefix_sums 0 rs)) in Hloop by lia.
    cbn [offsets chars create].
    rewrite Hloop; try assumption; try lia.
    - reflexivity.
    - intros k Hk. apply Hcnt. unfold len. lia. }
  split; [|split].
  - rewrite Hres. now apply rows_of_rows.
  - rewrite Hres. apply invariants_of_rows.
  - intros Hone. rewrite Hres. subst new_rows.
    transitivity (of_rows (rows c));
      [|symmetry; now apply invariants_rows].
    f_equal.
    pose proof (flat_map_singletons
                  (fun i => repeat (row c (Z.of_nat i))
                                   (Z.to_nat (at_ counts (Z.of_nat i))))
                  (rows c) []) as Hflat.
    assert (Hl : length (rows c) = length (offsets c))
      by (unfold rows; now rewrite length_map, length_seq).
    rewrite Hl in Hflat.
    apply Hflat. intros j Hj.
    rewrite Hone by (unfold size, len; lia). simpl.
    f_equal. now rewrite nth_rows.
Qed.

End Operations.

(** *** get_extremes *)

Lemma compare_bytes_lt_le_trans x y z :
  compare_bytes x y = Lt -> compare_bytes y z <> Gt -> compare_bytes x z = Lt.
Proof.
  intros Hxy Hyz. destruct (compare_bytes y z) eqn:E.
  - apply GetPermutationFacts.compare_bytes_eq in E. now subst.
  - eapply GetPermutationFacts.compare_bytes_trans; eassumption.
  - congruence.
Qed.

Lemma compare_bytes_le_lt_trans x y z :
  compare_bytes x y <> Gt -> compare_bytes y z = Lt -> compare_bytes x z = Lt.
Proof.
  intros Hxy Hyz. destruct (compare_bytes x y) eqn:E.
  - apply GetPermutationFacts.compare_bytes_eq in E. now subst.
  - eapply GetPermutationFacts.compare_bytes_trans; eassumption.
  - congruence.
Qed.

Lemma compare_bytes_le_trans x y z :
  compare_bytes x y <> Gt -> compare_bytes y z <> Gt ->
  compare_bytes x z <> Gt.
Proof.
  intros Hxy Hyz. destruct (compare_bytes x y) eqn:E.
  - apply GetPermutationFacts.compare_bytes_eq in E. now subst.
  - rewrite (compare_bytes_lt_le_trans x y z) by assumption. discriminate.
  - congruence.
Qed.

Lemma compare_bytes_not_lt x y :
  compare_bytes x y <> Lt -> compare_bytes y x <> Gt.
Proof.
  intros H. rewrite GetPermutationFacts.compare_bytes_antisym.
  destruct (compare_bytes x y); simpl; congruence.
Qed.

Lemma get_extremes_loop_spec c n : forall i min_idx max_idx,
  (forall r, 0 <= r < size c -> 1 <= size_at c r) ->
  1 <= i -> i + Z.of_nat n = size c ->
  0 <= min_idx < i -> 0 <= max_idx < i ->
  (forall r, 0 <= r < i ->
             compare_bytes (row_key c min_idx) (row_key c r) <> Gt
             /\ compare_bytes (row_key c r) (row_key c max_idx) <> Gt) ->
  (forall r, 0 <= r < min_idx ->
             compare_bytes (row_key c min_idx) (row_key c r) = Lt) ->
  (forall r, 0 <= r < max_idx ->
             compare_bytes (row_key c r) (row_key c max_idx) = Lt) ->
  let res := get_extremes_loop n c i min_idx max_idx in
  0 <= fst res < size c /\ 0 <= snd res < size c
  /\ (forall r, 0 <= r < size c ->
                compare_bytes (row_key c (fst res)) (row_key c r) <> Gt
                /\ compare_bytes (row_key c r) (row_key c (snd res)) <> Gt)
  /\ (forall r, 0 <= r < fst res ->
                compare_bytes (row_key c (fst res)) (row_key c r) = Lt)
  /\ (forall r, 0 <= r < snd res ->
                compare_bytes (row_key c r) (row_key c (snd res)) = Lt).
Proof.
  induction n as [|n IH];
    intros i min_idx max_idx Hsz Hi Hn Hmin Hmax Hall Hfmin Hfmax.
  - simpl. replace (size c) with i by lia. auto.
  - cbn [get_extremes_loop].
    rewrite !GetPermutationFacts.less_compares_keys by (apply Hsz; lia).
    destruct (compare_bytes (row_key c i) (row_key c min_idx)) eqn:E1.
    + (* equal to the minimum *)
      apply GetPermutationFacts.compare_bytes_eq in E1.
      destruct (compare_bytes (row_key c max_idx) (row_key c i)) eqn:E2.
      * apply IH; try assumption; try lia.
        intros r Hr. destruct (Z.eq_dec r i) as [->|Hri].
        -- rewrite E1, GetPermutationFacts.compare_bytes_refl.
           split; [discriminate|]. apply Hall. lia.
        -- apply Hall. lia.
      * apply IH; try assumption; try lia.
        -- intros r Hr. destruct (Z.eq_dec r i) as [->|Hri].
           ++ rewrite E1, !GetPermutationFacts.compare_bytes_refl.
              split; discriminate.
           ++ split; [apply Hall; lia|].
              eapply compare_bytes_le_trans; [apply Hall; lia|].
              rewrite E2. discriminate.
        -- intros r Hr. eapply compare_bytes_le_lt_trans; [|exact E2].
           apply Hall. lia.
      * apply IH; try assumption; try lia.
        intros r Hr. destruct (Z.eq_dec r i) as [->|Hri].
        -- rewrite E1, GetPermutationFacts.compare_bytes_refl.
           split; [discriminate|]. apply Hall. lia.
        -- apply Hall. lia.
    + (* a new minimum *)
      apply IH; try assumption; try lia.
      * intros r Hr. destruct (Z.eq_dec r i) as [->|Hri].
        -- rewrite GetPermutationFacts.compare_bytes_refl.
           split; [discriminate|].
           eapply compare_bytes_le_trans; [rewrite E1; discriminate|].
           apply Hall. lia.
        -- split; [|apply Hall; lia].
           rewrite (compare_bytes_lt_le_trans _ _ _ E1); [discriminate|].
           apply Hall. lia.
      * intros r Hr. eapply compare_bytes_lt_le_trans; [exact E1|].
        apply Hall. lia.
    + (* not below the minimum *)
      assert (Hmin_i : compare_bytes (row_key c min_idx) (row_key c i) <> Gt).
      { apply compare_bytes_not_lt. rewrite E1. discriminate. }
      destruct (compare_bytes (row_key c max_idx) (row_key c i)) eqn:E2.
      * apply IH; try assumption; try lia.
        intros r Hr. destruct (Z.eq_dec r i) as [->|Hri].
        -- split; [exact Hmin_i|]. apply compare_bytes_not_lt.
           rewrite E2. discriminate.
        -- apply Hall. lia.
      * apply IH; try assumption; try lia.
        -- intros r Hr. destruct (Z.eq_dec r i) as [->|Hri].
           ++ rewrite GetPermutationFacts.compare_bytes_refl.
              split; [exact Hmin_i|discriminate].
           ++ split; [apply Hall; lia|].
              eapply compare_bytes_le_trans; [apply Hall; lia|].
              rewrite E2. discriminate.
        -- intros r Hr. eapply compare_bytes_le_lt_trans; [|exact E2].
           apply Hall. lia.
      * apply IH; try assumption; try lia.
        intros r Hr. destruct (Z.eq_dec r i) as [->|Hri].
        -- split; [exact Hmin_i|]. apply compare_bytes_not_lt.
           rewrite E2. discriminate.
        -- apply Hall. lia.
Qed.

(** X12.  [get_extremes] on an empty column leaves both fields the empty
    string.  On a column whose rows have at least one byte it returns the
    values of two rows: the first row whose payload without its last byte
    is smallest in byte order, and the first row for which it is
    largest. *)
Theorem get_extremes_first_smallest_and_largest
  (Field : Type) (String_ : Field) (get : t -> Z -> Field) (c : t) :
  (size c = 0 -> get_extremes Field String_ get c = (String_, String_))
  /\ ((forall r, 0 <= r < size c -> 1 <= size_at c r) ->
      0 < size c ->
      exists min_idx max_idx,
        get_extremes Field String_ get c = (get c min_idx, get c max_idx)
        /\ 0 <= min_idx < size c /\ 0 <= max_idx < size c
        /\ (forall r, 0 <= r < size c ->
              compare_bytes (row_key c min_idx) (row_key c r) <> Gt
              /\ compare_bytes (row_key c r) (row_key c max_idx) <> Gt)
        /\ (forall r, 0 <= r < min_idx ->
              compare_bytes (row_key c min_idx) (row_key c r) = Lt)
        /\ (forall r, 0 <= r < max_idx ->
              compare_bytes (row_key c r) (row_key c max_idx) = Lt)).
Proof.
  split.
  - intros H0. unfold get_extremes. now rewrite H0.
  - intros Hsz Hpos. unfold get_extremes.
    destruct (size c =? 0) eqn:E0; [apply Z.eqb_eq in E0; lia|].
    pose proof (get_extremes_loop_spec c (Z.to_nat (size c - 1)) 1 0 0 Hsz)
      as Hloop.
    destruct (get_extremes_loop (Z.to_nat (size c - 1)) c 1 0 0)
      as [min_idx max_idx].
    exists min_idx, max_idx. split; [reflexivity|].
    apply Hloop; try lia.
    intros r Hr. replace r with 0 by lia.
    rewrite GetPermutationFacts.compare_bytes_refl. split; discriminate.
Qed.

(** *** Ordering with a collator *)

Lemma lessWithCollation_strict_weak_order collator positive c l :
  collator_contract collator ->
  strict_weak_order_on (lessWithCollation collator positive c) l.
Proof.
  intros [Hswap [Hlt Heq]].
  assert (Hzero : forall a b,
             (collator a b <? 0) = false -> (collator b a <? 0) = false ->
             collator a b = 0).
  { intros a b H1 H2. apply Z.ltb_ge in H1, H2.
    destruct (Z.eq_dec (collator a b) 0) as [|Hne]; [assumption|].
    assert (H3 : 0 < collator a b) by lia.
    apply Hswap in H3. lia. }
  assert (Hzero' : forall a b,
             (0 <? collator a b) = false -> (0 <? collator b a) = false ->
             collator a b = 0).
  { intros a b H1 H2. apply Z.ltb_ge in H1, H2.
    destruct (Z.eq_dec (collator a b) 0) as [|Hne]; [assumption|].
    assert (H3 : collator a b < 0) by lia.
    apply Hswap in H3. lia. }
  unfold strict_weak_order_on, lessWithCollation.
  split; [|split].
  - intros a _.
    set (x := bytes_at _ _ _).
    pose proof (Hswap x x) as H.
    destruct positive; [apply Z.ltb_ge|apply Z.ltb_ge]; lia.
  - intros a b d _ _ _.
    set (x := bytes_at (chars c) (offset_at c a) _).
    set (y := bytes_at (chars c) (offset_at c b) _).
    set (z := bytes_at (chars c) (offset_at c d) _).
    destruct positive; intros H1 H2.
    + apply Z.ltb_lt in H1, H2. apply Z.ltb_lt. eauto.
    + apply Z.ltb_lt in H1, H2. apply Z.ltb_lt.
      apply Hswap in H1, H2. apply Hswap. eauto.
  - intros a b d _ _ _.
    set (x := bytes_at (chars c) (offset_at c a) _).
    set (y := bytes_at (chars c) (offset_at c b) _).
    set (z := bytes_at (chars c) (offset_at c d) _).
    destruct positive; intros H1 H2 H3 H4.
    + rewrite (Heq x y z) by auto. reflexivity.
    + rewrite (Heq x y z) by auto. reflexivity.
Qed.

(** X13.  With a collator that compares consistently,
    [get_permutation_with_collation] returns a rearrangement of all row
    numbers in which, among the positions the limit covers, no row stands
    behind a row the collator places after it (before it, when [reverse]).
    The collator is given the whole payload of each row, its last byte
    included, as in [compare_at_with_collation] of the column with
    itself. *)
Theorem get_permutation_with_collation_orders_rows
  (collator : list byte -> list byte -> Z)
  (std_sort : (Z -> Z -> bool) -> list Z -> list Z)
  (std_partial_sort : (Z -> Z -> bool) -> Z -> list Z -> list Z)
  (c : t) (reverse : bool) (limit : Z) :
  collator_contract collator ->
  std_sort_contract std_sort ->
  std_partial_sort_contract std_partial_sort ->
  0 <= limit ->
  let res :=
    get_permutation_with_collation collator std_sort std_partial_sort c
                                   reverse limit in
  Permutation res (map Z.of_nat (seq 0 (length (offsets c))))
  /\ (forall i j,
        (i < j < length (offsets c))%nat ->
        limit = 0 \/ size c <= limit \/ Z.of_nat i < limit ->
        if reverse
        then 0 <= collator (row c (nth i res 0)) (row c (nth j res 0))
        else collator (row c (nth i res 0)) (row c (nth j res 0)) <= 0)
  /\ (forall positive a b,
        lessWithCollation collator positive c a b
        = if positive
          then compare_at_with_collation collator c a b c <? 0
          else 0 <? compare_at_with_collation collator c a b c).
Proof.
  intros Hcol Hsort Hpartial Hlimit res.
  cut (Permutation res (map Z.of_nat (seq 0 (length (offsets c))))
       /\ (forall i j,
             (i < j < length (offsets c))%nat ->
             limit = 0 \/ size c <= limit \/ Z.of_nat i < limit ->
             if reverse
             then 0 <= collator (row c (nth i res 0)) (row c (nth j res 0))
             else collator (row c (nth i res 0)) (row c (nth j res 0)) <= 0)).
  { intros [H1 H2]. split; [exact H1|]. split; [exact H2|]. reflexivity. }
  set (l := map Z.of_nat (seq 0 (length (offsets c)))).
  assert (Hlen : length l = length (offsets c))
    by (unfold l; now rewrite length_map, length_seq).
  pose proof (fun positive =>
                lessWithCollation_strict_weak_order collator positive c l Hcol)
    as Hswo.
  assert (Hres :
    Permutation res l
    /\ forall i j, (i < j < length l)%nat ->
         limit = 0 \/ size c <= limit \/ Z.of_nat i < limit ->
         lessWithCollation collator (negb reverse) c (nth j res 0)
                           (nth i res 0) = false).
  { subst res. unfold get_permutation_with_collation. fold (size c).
    replace (Z.to_nat (size c)) with (length (offsets c))
      by (unfold size, len; lia).
    fold l.
    destruct (size c <=? limit) eqn:E.
    - cbn [negb Z.eqb].
      destruct reverse; cbn [negb];
        [destruct (Hsort (lessWithCollation collator false c) l (Hswo false))
          as [P S]
        |destruct (Hsort (lessWithCollation collator true c) l (Hswo true))
          as [P S]];
        (split; [exact P|]); intros i j Hij _; now apply S.
    - apply Z.leb_gt in E.
      destruct (limit =? 0) eqn:E0; cbn [negb].
      + destruct reverse; cbn [negb];
          [destruct (Hsort (lessWithCollation collator false c) l
                           (Hswo false)) as [P S]
          |destruct (Hsort (lessWithCollation collator true c) l
                           (Hswo true)) as [P S]];
          (split; [exact P|]); intros i j Hij _; now apply S.
      + apply Z.eqb_neq in E0.
        assert (Hmid : 0 <= limit <= len l)
          by (unfold len; rewrite Hlen; unfold size, len in E; lia).
        destruct reverse; cbn [negb];
          [destruct (Hpartial (lessWithCollation collator false c) limit l
                              (Hswo false) Hmid) as [P S]
          |destruct (Hpartial (lessWithCollation collator true c) limit l
                              (Hswo true) Hmid) as [P S]];
          (split; [exact P|]); intros i j Hij Hlim; apply S; trivial; lia. }
  destruct Hres as [Hperm Hord].
  split; [exact Hperm|].
  intros i j Hij Hlim. rewrite <- Hlen in Hij.
  specialize (Hord i j Hij Hlim).
  unfold lessWithCollation in Hord. fold (row c (nth j res 0)) in Hord.
  fold (row c (nth i res 0)) in Hord.
  destruct Hcol as [Hswap _].
  destruct reverse; cbn [negb] in Hord; apply Z.ltb_ge in Hord.
  - destruct (Z.lt_ge_cases (collator (row c (nth i res 0))
                                      (row c (nth j res 0))) 0) as [H|H];
      [apply Hswap in H; lia|lia].
  - destruct (Z.lt_ge_cases 0 (collator (row c (nth i res 0))
                                        (row c (nth j res 0)))) as [H|H];
      [apply Hswap in H; lia|lia].
Qed.

Lemma byte_order_collator_contract : collator_contract byte_order_collator.
Proof.
  unfold collator_contract, byte_order_collator. split; [|split].
  - intros a b. rewrite (GetPermutationFacts.compare_bytes_antisym a b).
    destruct (compare_bytes a b); simpl; lia.
  - intros a b d H1 H2.
    assert (E1 : compare_bytes a b = Lt)
      by (destruct (compare_bytes a b); simpl in H1; (reflexivity || lia)).
    assert (E2 : compare_bytes b d = Lt)
      by (destruct (compare_bytes b d); simpl in H2; (reflexivity || lia)).
    now rewrite (GetPermutationFacts.compare_bytes_trans a b d E1 E2).
  - intros a b d H1 H2.
    assert (E1 : compare_bytes a b = Eq)
      by (destruct (compare_bytes a b); simpl in H1; (reflexivity || lia)).
    assert (E2 : compare_bytes b d = Eq)
      by (destruct (compare_bytes b d); simpl in H2; (reflexivity || lia)).
    apply GetPermutationFacts.compare_bytes_eq in E1, E2. subst.
    now rewrite GetPermutationFacts.compare_bytes_refl.
Qed.

(** *** Sorting a column *)

(** X14.  Permuting a column by the permutation [get_permutation] returns
    for it sorts the column: the result holds the same rows, and their
    payloads without the last byte stand in ascending byte order
    (descending when [reverse]).  The rows must have at least one byte. *)
Theorem permute_by_get_permutation_sorts
  (Offset_bits : Z)
  (std_sort : (Z -> Z -> bool) -> list Z -> list Z)
  (std_partial_sort : (Z -> Z -> bool) -> Z -> list Z -> list Z)
  (c : t) (reverse : bool) :
  Offset_bits <= 64 ->
  std_sort_contract std_sort ->
  invariants c -> len (chars c) < 2 ^ Offset_bits ->
  (forall r, 0 <= r < size c -> 1 <= size_at c r) ->
  exists res,
    permute Offset_bits c
            (get_permutation std_sort std_partial_sort c reverse 0) 0
    = Returned res
    /\ Permutation (rows res) (rows c)
    /\ forall i j,
         0 <= i -> i < j -> j < size c ->
         compare_bytes (row_key res i) (row_key res j)
         <> (if reverse then Lt else Gt).
Proof.
  intros Hbits Hsort Hinv Hfit Hsz.
  pose proof (Offset_range_size_t Offset_bits Hbits _ Hfit) as Hfit64.
  pose proof (invariants_rows c Hinv Hfit64) as E.
  set (rs := rows c) in *. clearbody rs. subst c.
  rewrite chars_of_rows in *. rewrite size_of_rows in *.
  set (c := of_rows rs) in *.
  assert (Hoff : length (offsets c) = length rs)
    by (unfold c; now rewrite offsets_of_rows, length_prefix_sums).
  set (l := map Z.of_nat (seq 0 (length rs))).
  assert (Hl : forall r, In r l -> 0 <= r < len rs).
  { intros r Hr. apply in_map_iff in Hr as [k [<- Hk]].
    apply in_seq in Hk. unfold len. lia. }
  assert (Hswo : strict_weak_order_on (less (negb reverse) c) l).
  { apply GetPermutationFacts.less_strict_weak_order. intros r Hr.
    apply Hsz. now apply Hl. }
  assert (Hp : get_permutation std_sort std_partial_sort c reverse 0
               = std_sort (less (negb reverse) c) l).
  { unfold get_permutation.
    replace (Z.to_nat (len (offsets c))) with (length rs)
      by (unfold len; lia).
    fold l. destruct (len (offsets c) <=? 0); cbn [Z.eqb negb];
      now destruct reverse. }
  rewrite Hp.
  destruct (Hsort (less (negb reverse) c) l Hswo) as [P S].
  set (p := std_sort (less (negb reverse) c) l) in *.
  assert (Hlen : length l = length rs)
    by (unfold l; now rewrite length_map, length_seq).
  assert (Hlp : length p = length rs)
    by (rewrite <- Hlen; now apply Permutation_length).
  pose proof (permute_of_rows Offset_bits Hbits rs p 0 []) as P1.
  change (effective_limit (len rs) 0) with (len rs) in P1.
  replace (Z.to_nat (len rs)) with (length p) in P1 by (unfold len; lia).
  rewrite firstn_all, app_nil_r, Hlp in P1.
  specialize (P1 ltac:(lia) ltac:(unfold len; lia) P Hfit).
  fold c in P1.
  set (out := map (picked rs p) (seq 0 (length rs))) in *.
  assert (Hout : out = map (fun j => nth (Z.to_nat j) rs []) p).
  { unfold out. rewrite map_picked by lia.
    now rewrite <- Hlp, firstn_all. }
  assert (Hperm : Permutation out rs).
  { rewrite Hout.
    apply perm_trans with (map (fun j => nth (Z.to_nat j) rs []) l).
    - now apply Permutation_map.
    - unfold l. rewrite map_map.
      rewrite (map_seq_nth _ rs []); [reflexivity|].
      intros k Hk. now rewrite Nat2Z.id. }
  assert (Hwo : len (concat out) = len (concat rs)).
  { rewrite Hout. change (weight rs p = len (concat rs)).
    rewrite (weight_perm rs _ _ P). apply weight_all. }
  exists (of_rows out). split; [exact P1|].
  split; [rewrite !rows_of_rows by lia; exact Hperm|].
  intros i j Hi Hij Hj. unfold len in Hj.
  specialize (S (Z.to_nat i) (Z.to_nat j) ltac:(lia)).
  assert (Hrow : forall k, 0 <= k < len rs ->
                           row_key (of_rows out) k
                           = row_key c (nth (Z.to_nat k) p 0)).
  { intros k Hk. unfold row_key. f_equal.
    rewrite row_of_rows
      by (try lia; unfold out, len in *;
          rewrite length_map, length_seq; lia).
    rewrite Hout.
    rewrite (nth_indep _ [] (nth (Z.to_nat 0) rs []))
      by (rewrite length_map; unfold len in Hk; lia).
    rewrite (map_nth (fun j => nth (Z.to_nat j) rs []) p 0).
    assert (Hin : In (nth (Z.to_nat k) p 0) l).
    { eapply Permutation_in; [exact P|]. apply nth_In.
      unfold len in Hk. lia. }
    apply Hl in Hin. unfold c.
    rewrite row_of_rows; [reflexivity|lia|lia]. }
  rewrite !Hrow by (unfold len; lia).
  assert (Hini : In (nth (Z.to_nat i) p 0) l)
    by (eapply Permutation_in; [exact P|]; apply nth_In; lia).
  assert (Hinj : In (nth (Z.to_nat j) p 0) l)
    by (eapply Permutation_in; [exact P|]; apply nth_In; lia).
  rewrite GetPermutationFacts.less_compares_keys in S
    by (apply Hsz; now apply Hl).
  rewrite (GetPermutationFacts.compare_bytes_antisym
             (row_key c (nth (Z.to_nat i) p 0))) in S.
  destruct (compare_bytes (row_key c (nth (Z.to_nat i) p 0))
                          (row_key c (nth (Z.to_nat j) p 0)));
    destruct reverse; simpl in S; congruence.
Qed.

(** X21.  With a limit between 0 and the row count, permuting by the
    permutation of [get_permutation] with that limit returns the [limit]
    first rows of the sorted order: the result has [limit] rows, they are
    in ascending byte order of their payloads without the last byte
    (descending when [reverse]), and no row that is left out stands before
    any of them in that order. *)
Theorem permute_by_get_permutation_top_rows
  (Offset_bits : Z)
  (std_sort : (Z -> Z -> bool) -> list Z -> list Z)
  (std_partial_sort : (Z -> Z -> bool) -> Z -> list Z -> list Z)
  (c : t) (reverse : bool) (limit : Z) :
  Offset_bits <= 64 ->
  std_partial_sort_contract std_partial_sort ->
  invariants c -> len (chars c) < 2 ^ Offset_bits ->
  (forall r, 0 <= r < size c -> 1 <= size_at c r) ->
  0 < limit < size c ->
  exists res,
    permute Offset_bits c
            (get_permutation std_sort std_partial_sort c reverse limit) limit
    = Returned res
    /\ size res = limit
    /\ (forall i j,
           0 <= i -> i < j -> j < limit ->
           compare_bytes (row_key res i) (row_key res j)
           <> (if reverse then Lt else Gt))
    /\ (forall i j,
           0 <= i < limit -> limit <= j < size c ->
           0 <= at_ (get_permutation std_sort std_partial_sort c reverse limit)
                    j < size c
           /\ compare_bytes
                (row_key res i)
                (row_key c (at_ (get_permutation std_sort std_partial_sort c
                                                 reverse limit) j))
              <> (if reverse then Lt else Gt)).
Proof.
  intros Hbits Hpartial Hinv Hfit Hsz Hlimit.
  pose proof (Offset_range_size_t Offset_bits Hbits _ Hfit) as Hfit64.
  pose proof (invariants_rows c Hinv Hfit64) as E.
  set (rs := rows c) in *. clearbody rs. subst c.
  rewrite chars_of_rows in *. rewrite size_of_rows in *.
  set (c := of_rows rs) in *.
  assert (Hoff : length (offsets c) = length rs)
    by (unfold c; now rewrite offsets_of_rows, length_prefix_sums).
  set (l := map Z.of_nat (seq 0 (length rs))).
  assert (Hl : forall r, In r l -> 0 <= r < len rs).
  { intros r Hr. apply in_map_iff in Hr as [k [<- Hk]].
    apply in_seq in Hk. unfold len. lia. }
  assert (Hswo : strict_weak_order_on (less (negb reverse) c) l).
  { apply GetPermutationFacts.less_strict_weak_order. intros r Hr.
    apply Hsz. now apply Hl. }
  assert (Hlen : length l = length rs)
    by (unfold l; now rewrite length_map, length_seq).
  assert (Hp : get_permutation std_sort std_partial_sort c reverse limit
               = std_partial_sort (less (negb reverse) c) limit l).
  { unfold get_permutation.
    replace (Z.to_nat (len (offsets c))) with (length rs)
      by (unfold len; lia).
    fold l.
    replace (len (offsets c) <=? limit) with false
      by (symmetry; apply Z.leb_gt; unfold len in *; lia).
    replace (limit =? 0) with false by (symmetry; apply Z.eqb_neq; lia).
    cbn [negb]. now destruct reverse. }
  rewrite Hp.
  destruct (Hpartial (less (negb reverse) c) limit l Hswo
                     ltac:(unfold len in *; lia)) as [P S].
  set (p := std_partial_sort (less (negb reverse) c) limit l) in *.
  assert (Hlp : length p = length rs)
    by (rewrite <- Hlen; now apply Permutation_length).
  assert (Heff : effective_limit (len rs) limit = limit).
  { unfold effective_limit.
    destruct (limit =? 0) eqn:E0; [apply Z.eqb_eq in E0; lia|lia]. }
  pose proof (permute_of_rows Offset_bits Hbits rs p limit
                              (skipn (Z.to_nat limit) p)) as P1.
  rewrite Heff, firstn_skipn in P1.
  specialize (P1 ltac:(lia) ltac:(unfold len in *; lia) P Hfit).
  fold c in P1.
  set (out := map (picked rs p) (seq 0 (Z.to_nat limit))) in *.
  assert (Hout : out = map (fun j => nth (Z.to_nat j) rs [])
                           (firstn (Z.to_nat limit) p)).
  { unfold out. apply map_picked. unfold len in *. lia. }
  assert (Hlo : length out = Z.to_nat limit)
    by (unfold out; now rewrite length_map, length_seq).
  assert (Hwo : len (concat out) <= len (concat rs)).
  { pose proof (weight_perm rs _ _ P) as Hw. rewrite weight_all in Hw.
    rewrite <- (firstn_skipn (Z.to_nat limit) p), weight_app in Hw.
    rewrite Hout. unfold weight in Hw at 1.
    match type of Hw with
    | _ + ?x = _ => assert (0 <= x) by apply len_nonneg
    end.
    lia. }
  assert (Hin : forall k, (k < length rs)%nat -> In (nth k p 0) l).
  { intros k Hk. eapply Permutation_in; [exact P|]. apply nth_In. lia. }
  assert (Hrow : forall k, 0 <= k < limit ->
                           row_key (of_rows out) k
                           = row_key c (nth (Z.to_nat k) p 0)).
  { intros k Hk. unfold row_key. f_equal.
    rewrite row_of_rows by (unfold len in *; lia).
    unfold out.
    rewrite (nth_indep _ [] (picked rs p 0))
      by (rewrite length_map, length_seq; lia).
    rewrite (map_nth (picked rs p) _ 0%nat), seq_nth by lia.
    unfold picked, at_. cbn [Nat.add].
    replace (Z.of_nat (Z.to_nat k) <? 0) with false
      by (symmetry; apply Z.ltb_ge; lia).
    rewrite Nat2Z.id.
    pose proof (Hl _ (Hin (Z.to_nat k) ltac:(unfold len in *; lia))).
    unfold c. rewrite row_of_rows; [reflexivity|lia|lia]. }
  assert (Hord : forall a b,
             (a < b < length rs)%nat -> Z.of_nat a < limit ->
             compare_bytes (row_key c (nth a p 0)) (row_key c (nth b p 0))
             <> (if reverse then Lt else Gt)).
  { intros a b Hab Ha.
    specialize (S a b ltac:(lia) Ha).
    rewrite GetPermutationFacts.less_compares_keys in S
      by (apply Hsz, Hl, Hin; lia).
    rewrite (GetPermutationFacts.compare_bytes_antisym
               (row_key c (nth a p 0))) in S.
    destruct (compare_bytes (row_key c (nth a p 0)) (row_key c (nth b p 0)));
      destruct reverse; simpl in S; congruence. }
  exists (of_rows out). split; [exact P1|].
  split; [rewrite size_of_rows; unfold len; lia|]. split.
  - intros i j Hi Hij Hj. rewrite !Hrow by lia.
    apply Hord; unfold len in *; lia.
  - intros i j Hi Hj.
    assert (Hat : at_ p j = nth (Z.to_nat j) p 0).
    { unfold at_.
      replace (j <? 0) with false by (symmetry; apply Z.ltb_ge; lia).
      reflexivity. }
    rewrite Hat. split.
    + apply Hl, Hin. unfold len in *. lia.
    + rewrite Hrow by lia. apply Hord; unfold len in *; lia.
Qed.

(** *** Concrete columns *)

Local Open Scope byte_scope.

Lemma insert_range_from_appends_rows_witness :
  exists res,
    insert_range_from 32 two_rows three_terminated 1 2 = Returned res
    /\ rows res = rows two_rows ++ [["a"; "b"; "000"]; ["a"; "a"; "000"]]
    /\ size res = 4.
Proof.
  apply (insert_range_from_appends_rows 32 ltac:(lia) two_rows
                                        three_terminated 1 2).
  - apply check_invariants_sound; reflexivity.
  - apply check_invariants_sound; reflexivity.
  - reflexivity.
  - lia.
  - lia.
  - vm_compute; discriminate.
  - reflexivity.
  - reflexivity.
  - reflexivity.
Defined.

Lemma insert_range_from_in_two_pieces_witness :
  exists r1 r2,
    insert_range_from 32 two_rows three_terminated 0 1 = Returned r1
    /\ insert_range_from 32 r1 three_terminated 1 2 = Returned r2
    /\ insert_range_from 32 two_rows three_terminated 0 3 = Returned r2.
Proof.
  apply (insert_range_from_in_two_pieces 32 ltac:(lia) two_rows
                                         three_terminated 0 1 2).
  - apply check_invariants_sound; reflexivity.
  - apply check_invariants_sound; reflexivity.
  - reflexivity.
  - lia.
  - lia.
  - lia.
  - vm_compute; discriminate.
  - reflexivity.
  - reflexivity.
  - reflexivity.
Defined.

Lemma deserialize_appends_one_row_witness :
  rows (snd (deserialize_and_insert_from_arena
               32 two_rows
               (size_t_bytes 2 ++ ["x"; "y"]) 0))
  = rows two_rows ++ [["x"; "y"]].
Proof.
  apply (deserialize_appends_one_row 32 ltac:(lia) two_rows
                                     (size_t_bytes 2 ++ ["x"; "y"]) 0).
  - apply check_invariants_sound; reflexivity.
  - reflexivity.
Defined.

Lemma arena_values_back_to_back_witness :
  rows (snd (deserialize_and_insert_from_arena
               32
               (snd (deserialize_and_insert_from_arena
                       32 with_empty_row
                       (snd (serialize_value_into_arena
                               three_terminated 0
                               (snd (serialize_value_into_arena
                                       two_rows 1 []))))
                       0))
               (snd (serialize_value_into_arena
                       three_terminated 0
                       (snd (serialize_value_into_arena two_rows 1 []))))
               10))
  = rows with_empty_row ++ [row two_rows 1; row three_terminated 0].
Proof.
  apply (arena_values_back_to_back 32 ltac:(lia) two_rows three_terminated
                                   with_empty_row 1 0 []).
  - apply check_invariants_sound; reflexivity.
  - reflexivity.
  - split; [lia|reflexivity].
  - apply check_invariants_sound; reflexivity.
  - reflexivity.
  - split; [lia|reflexivity].
  - apply check_invariants_sound; reflexivity.
  - reflexivity.
  - reflexivity.
  - reflexivity.
Defined.

Lemma clone_resized_prefix_of_prefix_witness :
  clone_resized 32 three_terminated (size three_terminated)
  = three_terminated
  /\ clone_resized 32 (clone_resized 32 three_terminated 2) 1
     = clone_resized 32 three_terminated 1.
Proof.
  destruct (clone_resized_prefix_of_prefix 32 ltac:(lia) three_terminated
                                           1 2) as [H1 [H2 _]].
  - apply check_invariants_sound; reflexivity.
  - reflexivity.
  - lia.
  - vm_compute; discriminate.
  - split; [exact H1|exact H2].
Defined.

Lemma permute_limit_takes_prefix_witness :
  exists full res,
    permute 32 three_terminated [2; 0; 1] 0 = Returned full
    /\ permute 32 three_terminated [2; 0; 1] 2 = Returned res
    /\ res = clone_resized 32 full 2
    /\ res = index_impl 32 three_terminated [2; 0; 1] 2.
Proof.
  apply (permute_limit_takes_prefix 32 ltac:(lia) three_terminated
                                    [2; 0; 1] 2).
  - apply check_invariants_sound; reflexivity.
  - reflexivity.
  - simpl. apply perm_trans with [0; 2; 1].
    + apply perm_swap.
    + apply perm_skip, perm_swap.
  - split; [lia|vm_compute; discriminate].
Defined.

Lemma permute_by_get_permutation_sorts_witness :
  exists res,
    permute 32 three_terminated
            (get_permutation insertion_sort
                             (fun comp _ l => insertion_sort comp l)
                             three_terminated false 0) 0
    = Returned res
    /\ Permutation (rows res) (rows three_terminated).
Proof.
  destruct (permute_by_get_permutation_sorts
              32 insertion_sort (fun comp _ l => insertion_sort comp l)
              three_terminated false ltac:(lia)
              GetPermutationFacts.insertion_sort_contract)
    as [res [Hres [Hperm _]]].
  - apply check_invariants_sound; reflexivity.
  - reflexivity.
  - intros r Hr.
    assert (Hcases : r = 0 \/ r = 1 \/ r = 2)
      by (change (size three_terminated) with 3 in Hr; lia).
    destruct Hcases as [->|[->| ->]]; discriminate.
  - exists res. split; [exact Hres|exact Hperm].
Defined.

Lemma resize_to_fewer_rows_witness :
  rows (resize 32 [Byte.x00] three_terminated 2)
  = firstn 2 (rows three_terminated)
  /\ chars (resize 32 [Byte.x00] three_terminated 2)
     = chars three_terminated.
Proof.
  destruct (resize_to_fewer_rows 32 [Byte.x00] three_terminated 2
                                 ltac:(split; [lia|reflexivity]))
    as [_ [Hchars [Hrows _]]].
  split; [exact Hrows|exact Hchars].
Defined.

Lemma permute_then_inverse_witness :
  exists r,
    permute 32 three_terminated [1; 2; 0] 0 = Returned r
    /\ permute 32 r [2; 0; 1] 0 = Returned three_terminated.
Proof.
  apply (permute_then_inverse 32 ltac:(lia) three_terminated
                              [1; 2; 0] [2; 0; 1]).
  - apply check_invariants_sound; reflexivity.
  - reflexivity.
  - simpl. apply perm_trans with [1; 0; 2].
    + apply perm_skip, perm_swap.
    + apply perm_swap.
  - simpl. apply perm_trans with [0; 2; 1].
    + apply perm_swap.
    + apply perm_skip, perm_swap.
  - intros i Hi.
    assert (Hcases : i = 0 \/ i = 1 \/ i = 2)
      by (change (size three_terminated) with 3 in Hi; lia).
    destruct Hcases as [->|[->| ->]]; reflexivity.
Defined.

Lemma index_impl_gathers_witness :
  rows (index_impl 32 two_rows [1; 1; 0] 3)
  = [["b"; "c"]; ["b"; "c"]; ["a"]].
Proof.
  apply (index_impl_gathers 32 ltac:(lia) two_rows [1; 1; 0] 3).
  - apply check_invariants_sound; reflexivity.
  - reflexivity.
  - split; [lia|vm_compute; discriminate].
  - intros i Hi.
    assert (Hcases : i = 0 \/ i = 1 \/ i = 2) by lia.
    destruct Hcases as [->|[->| ->]]; vm_compute;
      (split; [discriminate|reflexivity]).
  - reflexivity.
Defined.

Lemma replicate_counts_appends_witness :
  replicate_counts 32 two_rows [2; 1] 3 with_empty_row
  = mk [1; 1; 1; 2; 4] ["000"; "a"; "a"; "b"; "c"]
  /\ ~ invariants (replicate_counts 32 two_rows [2; 1] 3 with_empty_row).
Proof.
  destruct (replicate_counts_appends 32 ltac:(lia) two_rows [2; 1] 3
                                     with_empty_row)
    as [Hres [_ Hbad]].
  - apply check_invariants_sound; reflexivity.
  - reflexivity.
  - intros i Hi.
    assert (Hcases : i = 0 \/ i = 1)
      by (change (size two_rows) with 2 in Hi; lia).
    destruct Hcases as [->| ->]; vm_compute; discriminate.
  - reflexivity.
  - reflexivity.
  - split; [exact Hres|]. apply Hbad; discriminate.
Defined.

Lemma replicate_counts_into_empty_witness :
  rows (replicate_counts 32 two_rows [2; 0] 2 create) = [["a"]; ["a"]].
Proof.
  apply (replicate_counts_into_empty 32 ltac:(lia) two_rows [2; 0] 2).
  - apply check_invariants_sound; reflexivity.
  - reflexivity.
  - intros i Hi.
    assert (Hcases : i = 0 \/ i = 1)
      by (change (size two_rows) with 2 in Hi; lia).
    destruct Hcases as [->| ->]; vm_compute; discriminate.
  - reflexivity.
Defined.

Lemma get_extremes_first_smallest_and_largest_witness :
  exists min_idx max_idx,
    get_extremes (list byte) [] row three_terminated
    = (row three_terminated min_idx, row three_terminated max_idx)
    /\ 0 <= min_idx < 3 /\ 0 <= max_idx < 3.
Proof.
  destruct (get_extremes_first_smallest_and_largest
              (list byte) [] row three_terminated) as [_ H].
  destruct H as [min_idx [max_idx [Hres [Hmin [Hmax _]]]]].
  - intros r Hr.
    assert (Hcases : r = 0 \/ r = 1 \/ r = 2)
      by (change (size three_terminated) with 3 in Hr; lia).
    destruct Hcases as [->|[->| ->]]; discriminate.
  - reflexivity.
  - exists min_idx, max_idx. split; [exact Hres|]. split; assumption.
Defined.

Lemma get_permutation_with_collation_orders_rows_witness :
  get_permutation_with_collation byte_order_collator insertion_sort
                                 (fun comp _ l => insertion_sort comp l)
                                 b_then_a false 0 = [1; 0]
  /\ byte_order_collator
       (row b_then_a
            (nth 0 (get_permutation_with_collation
                      byte_order_collator insertion_sort
                      (fun comp _ l => insertion_sort comp l)
                      b_then_a false 0) 0))
       (row b_then_a
            (nth 1 (get_permutation_with_collation
                      byte_order_collator insertion_sort
                      (fun comp _ l => insertion_sort comp l)
                      b_then_a false 0) 0))
     <= 0.
Proof.
  split; [reflexivity|].
  apply (proj1 (proj2 (get_permutation_with_collation_orders_rows
                         byte_order_collator insertion_sort
                         (fun comp _ l => insertion_sort comp l)
                         b_then_a false 0
                         byte_order_collator_contract
                         GetPermutationFacts.insertion_sort_contract
                         GetPermutationFacts.insertion_sort_partial_contract
                         ltac:(lia))) 0%nat 1%nat).
  - simpl; lia.
  - left; reflexivity.
Defined.

Lemma permute_by_get_permutation_top_rows_witness :
  exists res,
    permute 32 three_terminated
            (get_permutation insertion_sort
                             (fun comp _ l => insertion_sort comp l)
                             three_terminated false 2) 2
    = Returned res
    /\ size res = 2.
Proof.
  destruct (permute_by_get_permutation_top_rows
              32 insertion_sort (fun comp _ l => insertion_sort comp l)
              three_terminated false 2 ltac:(lia)
              GetPermutationFacts.insertion_sort_partial_contract)
    as [res [Hres [Hsize _]]].
  - apply check_invariants_sound; reflexivity.
  - reflexivity.
  - intros r Hr.
    assert (Hcases : r = 0 \/ r = 1 \/ r = 2)
      by (change (size three_terminated) with 3 in Hr; lia).
    destruct Hcases as [->|[->| ->]]; discriminate.
  - split; [lia|reflexivity].
  - exists res. split; [exact Hres|exact Hsize].
Defined.

Local Close Scope byte_scope.

End ColumnJsonMore.

(** ** Further properties of the Map type *)

Module DataTypeMapMore.
Import DataTypeMap DataTypeMapFacts.

(** *** The slot tokenizer *)

Lemma ltrim_element n : forall mem rb element,
  data element = position rb ->
  data (snd (ltrim n mem rb element)) = position (fst (ltrim n mem rb element))
  /\ size (snd (ltrim n mem rb element)) = size element.
Proof.
  induction n as [|n IH]; intros mem rb element Hd; [now split|].
  cbn [ltrim].
  destruct (negb (eof rb) && isspace (deref mem (position rb)));
    [|now split].
  apply (IH mem (advance rb 1)
            (mkStringRef (position (advance rb 1)) (size element))).
  reflexivity.
Qed.

Lemma scan_element_result n : forall mem has_quota rb element,
  window rb -> (Z.to_nat (count rb) <= n)%nat ->
  let r := scan_element n mem has_quota rb element in
  data (snd r) = data element
  /\ size (snd r) - size element = position (snd (fst r)) - position rb
  /\ (fst (fst r) = true -> eof (snd (fst r)) = false ->
      let c := deref mem (position (snd (fst r))) in
      c = ":"%char \/ c = ","%char
      \/ (c = "}"%char /\ position (snd (fst r)) = end_ rb - 1)).
Proof.
  induction n as [|n IH]; intros mem has_quota rb element W Hn.
  - assert (E : eof rb = true).
    { rewrite (eof_window _ W). apply Z.eqb_eq.
      pose proof (count_window _ W). destruct W. lia. }
    cbn [scan_element fst snd]. split; [reflexivity|]. split; [lia|].
    intros _ E'. congruence.
  - cbn [scan_element].
    destruct (negb (eof rb)
              && negb (Ascii.eqb (deref mem (position rb)) ":")
              && negb (Ascii.eqb (deref mem (position rb)) ",")
              && (negb (count rb =? 1)
                  || negb (Ascii.eqb (deref mem (position rb)) "}"))) eqn:C.
    + destruct (has_quota && negb (isspace (deref mem (position rb)))).
      { cbn [fst snd]. split; [reflexivity|]. split; [lia|discriminate]. }
      apply andb_true_iff in C as [C _]. apply andb_true_iff in C as [C _].
      apply andb_true_iff in C as [C _]. apply negb_true_iff in C.
      destruct (window_advance rb W C) as [W' Hc].
      destruct (IH mem has_quota (advance rb 1)
                   (mkStringRef (data element) (size element + 1)) W')
        as [E1 [E2 E3]]; [lia|].
      cbn [data size] in E1, E2.
      assert (Hp : position (advance rb 1) = position rb + 1) by reflexivity.
      assert (He : end_ (advance rb 1) = end_ rb) by reflexivity.
      split; [exact E1|]. split; [lia|].
      intros F E'. rewrite <- He. now apply E3.
    + cbn [fst snd]. split; [reflexivity|]. split; [lia|].
      intros _ E. rewrite E in C. cbn [negb andb] in C.
      destruct (Ascii.eqb_spec (deref mem (position rb)) ":") as [H1|H1];
        [now left|].
      destruct (Ascii.eqb_spec (deref mem (position rb)) ",") as [H2|H2];
        [right; now left|].
      cbn [negb andb] in C. apply orb_false_iff in C as [C1 C2].
      apply negb_false_iff in C1, C2. apply Z.eqb_eq in C1.
      apply Ascii.eqb_eq in C2. right; right. split; [exact C2|].
      rewrite (count_window _ W) in C1. lia.
Qed.

Lemma rtrim_element n : forall mem element,
  0 <= size element ->
  data (rtrim n mem element) = data element
  /\ 0 <= size (rtrim n mem element) <= size element.
Proof.
  induction n as [|n IH]; intros mem element Hs;
    [simpl; split; [reflexivity|lia]|].
  cbn [rtrim].
  destruct ((0 <? size element)
            && isspace (deref mem (data element + (size element - 1))))
    eqn:C; [|split; [reflexivity|lia]].
  apply andb_true_iff in C as [C _]. apply Z.ltb_lt in C.
  destruct (IH mem (mkStringRef (data element) (size element - 1)))
    as [E1 E2]; [cbn [size]; lia|].
  cbn [data size] in E1, E2. split; [exact E1|lia].
Qed.

(** X15.  A slot that [next_slot_from_string] reads lies inside the bytes
    it consumed: the token starts at or behind the old position and ends
    before the separator, the byte just before the new position, which is
    [:], [,] or the [}] that ends the buffer.  When it fails, [output] is
    not written and the position stays inside the buffer. *)
Theorem next_slot_from_string_token (mem : list ascii) (rb : ReadBuffer)
  (output : StringRef) :
  window rb ->
  let '(read, rb', element) := next_slot_from_string mem rb output in
  if read then
    position rb <= data element /\ 0 <= size element
    /\ data element + size element < position rb'
    /\ position rb' <= end_ rb /\ end_ rb' = end_ rb
    /\ (let c := deref mem (position rb' - 1) in
        c = ":"%char \/ c = ","%char
        \/ (c = "}"%char /\ position rb' = end_ rb))
  else
    element = output /\ position rb <= position rb' <= end_ rb
    /\ end_ rb' = end_ rb.
Proof.
  intros W. pose proof W as [[Wa Wb] Wc]. unfold next_slot_from_string.
  destruct (eof rb) eqn:E; [repeat split; lia|].
  destruct (ltrim_spec (Z.to_nat (count rb)) mem rb
                       (mkStringRef (position rb) 0) W (le_n _))
    as [_ [W1 [P1 E1]]].
  destruct (ltrim_element (Z.to_nat (count rb)) mem rb
                          (mkStringRef (position rb) 0) eq_refl)
    as [D1 S1].
  destruct (ltrim (Z.to_nat (count rb)) mem rb (mkStringRef (position rb) 0))
    as [rb1 element1]. cbn [fst snd size] in W1, P1, E1, D1, S1.
  pose proof W1 as [[W1a W1b] W1c].
  assert (Hq : exists found has_quota rb2 element2,
             (if is_quote (deref mem (position rb1))
              then
                if count rb1
                   <=? find_str_sep (Z.to_nat (count rb1)) mem rb1
                                    (deref mem (position rb1)) 1
                then (false, false, mkReadBuffer (end_ rb1) (end_ rb1), element1)
                else (true, true,
                      advance rb1
                        (find_str_sep (Z.to_nat (count rb1)) mem rb1
                                      (deref mem (position rb1)) 1 + 1),
                      mkStringRef (data element1)
                        (size element1
                         + (find_str_sep (Z.to_nat (count rb1)) mem rb1
                                         (deref mem (position rb1)) 1 + 1)))
              else (true, false, rb1, element1))
             = (found, has_quota, rb2, element2)
             /\ position rb1 <= position rb2 <= end_ rb
             /\ end_ rb2 = end_ rb
             /\ (found = true ->
                 window rb2 /\ data element2 = position rb1
                 /\ data element2 + size element2 = position rb2)).
  { destruct (is_quote (deref mem (position rb1))).
    - destruct (count rb1 <=? find_str_sep _ _ _ _ _) eqn:C.
      + do 4 eexists. split; [reflexivity|]. cbn [position end_].
        split; [lia|]. split; [congruence|discriminate].
      + apply Z.leb_gt in C.
        destruct (find_str_sep_spec (Z.to_nat (count rb1)) mem rb1
                    (deref mem (position rb1)) 1 ltac:(lia)) as [_ Hge].
        set (k := find_str_sep (Z.to_nat (count rb1)) mem rb1
                               (deref mem (position rb1)) 1) in *.
        pose proof (count_window _ W1) as Hc.
        do 4 eexists. split; [reflexivity|].
        unfold window, advance. cbn [position end_ data size].
        split; [lia|]. split; [congruence|]. intros _. lia.
    - do 4 eexists. split; [reflexivity|].
      split; [lia|]. split; [congruence|]. intros _.
      split; [exact W1|]. lia. }
  destruct Hq as [found [has_quota [rb2 [element2 [-> [P2 [E2 Hfound]]]]]]].
  destruct found; cbn [negb]; [|repeat split; lia].
  destruct (Hfound eq_refl) as [W2 [D2 S2]].
  destruct (scan_element_spec (Z.to_nat (count rb2)) mem has_quota rb2
                              element2 W2 (le_n _)) as [_ [W3 [P3 E3]]].
  destruct (scan_element_result (Z.to_nat (count rb2)) mem has_quota rb2
                                element2 W2 (le_n _)) as [D3 [S3 Hsep]].
  destruct (scan_element (Z.to_nat (count rb2)) mem has_quota rb2 element2)
    as [[scanned rb3] element3]. cbn [fst snd] in W3, P3, E3, D3, S3, Hsep.
  pose proof W3 as [[W3a W3b] W3c].
  destruct scanned; cbn [negb]; [|repeat split; lia].
  destruct (eof rb3) eqn:E4; [repeat split; lia|].
  specialize (Hsep eq_refl eq_refl).
  assert (Hlt : position rb3 < end_ rb3).
  { unfold eof in E4. apply Z.eqb_neq in E4. lia. }
  destruct (rtrim_element (Z.to_nat (size element3)) mem element3
                          ltac:(lia)) as [D4 S4].
  set (element4 := rtrim (Z.to_nat (size element3)) mem element3) in *.
  clearbody element4.
  assert (Hc : deref mem (position (advance rb3 1) - 1)
               = deref mem (position rb3)).
  { cbn [advance position]. f_equal. lia. }
  cbv zeta. rewrite Hc. cbn [advance position end_].
  assert (Hsep' :
            deref mem (position rb3) = ":"%char
            \/ deref mem (position rb3) = ","%char
            \/ deref mem (position rb3) = "}"%char
               /\ position rb3 + 1 = end_ rb).
  { destruct Hsep as [H|[H|[H1 H2]]]; [now left|right; now left|].
    right; right. split; [exact H1|lia]. }
  destruct ((2 <=? size element4) && is_quote (deref mem (data element4))
            && Ascii.eqb (deref mem (data element4))
                         (deref mem (data element4 + (size element4 - 1))))
    eqn:C.
  - apply andb_true_iff in C as [C _]. apply andb_true_iff in C as [C _].
    apply Z.leb_le in C. cbn [data size].
    repeat split; try lia; exact Hsep'.
  - repeat split; try lia; exact Hsep'.
Qed.

(** *** from_string on the rows it accepts *)

Section FromStringOk.

Variables K V : Type.
Variable key_type_from_string : list ascii -> list K -> Status * list K.
Variable value_type_from_string : list ascii -> list V -> Status * list V.

(** The element parsers append one cell when they accept a slot. *)
Hypothesis key_parser_appends :
  forall slot col st col',
    key_type_from_string slot col = (st, col') -> ok st = true ->
    exists cell, col' = col ++ [cell].
Hypothesis value_parser_appends :
  forall slot col st col',
    value_type_from_string slot col = (st, col') -> ok st = true ->
    exists cell, col' = col ++ [cell].

Lemma ok_is_OK st : ok st = true -> st = OK.
Proof. destruct st; [reflexivity|discriminate]. Qed.

Lemma from_string_loop_ok n : forall mem rb column element_num
                                     rb' column' element_num',
  window rb -> (Z.to_nat (count rb) <= n)%nat ->
  from_string_loop K V key_type_from_string value_type_from_string
                   n mem rb column element_num
  = (OK, rb', column', element_num') ->
  exists ks vs,
    get_data (get_keys column') = get_data (get_keys column) ++ ks
    /\ get_data (get_values column') = get_data (get_values column) ++ vs
    /\ len ks = element_num' - element_num
    /\ len vs = element_num' - element_num
    /\ get_offsets (get_keys column') = get_offsets (get_keys column)
    /\ get_offsets (get_values column') = get_offsets (get_values column)
    /\ position rb' = end_ rb.
Proof.
  induction n as [|n IH];
    intros mem rb column element_num rb' column' element_num' W Hn Hres.
  - assert (E : position rb = end_ rb).
    { pose proof (count_window _ W). destruct W. lia. }
    cbn [from_string_loop] in Hres. injection Hres as <- <- <-.
    exists [], []. rewrite !app_nil_r. change (len []) with 0.
    repeat split; try reflexivity; try lia.
  - cbn [from_string_loop] in Hres.
    destruct (eof rb) eqn:E.
    { injection Hres as <- <- <-. unfold eof in E. apply Z.eqb_eq in E.
      exists [], []. rewrite !app_nil_r. change (len []) with 0.
      repeat split; try reflexivity; try lia. }
    pose proof (next_slot_from_string_advances
                  mem rb (mkStringRef (position rb) (count rb)) W) as H1.
    destruct (next_slot_from_string mem rb
                (mkStringRef (position rb) (count rb)))
      as [[read1 rb1] key_element].
    destruct read1; [|discriminate]. cbn [negb] in Hres.
    destruct (H1 eq_refl) as [W1 [P1 E1]].
    pose proof (next_slot_from_string_advances
                  mem rb1 (mkStringRef (position rb1) (count rb1)) W1) as H2.
    destruct (next_slot_from_string mem rb1
                (mkStringRef (position rb1) (count rb1)))
      as [[read2 rb2] value_element].
    destruct read2; [|discriminate]. cbn [negb] in Hres.
    destruct (H2 eq_refl) as [W2 [P2 E2]].
    destruct (key_type_from_string _ _) as [st1 nested_key_column] eqn:Ek.
    destruct (ok st1) eqn:O1; cbn [negb] in Hres;
      [|injection Hres as -> _ _ _; discriminate].
    destruct (key_parser_appends _ _ _ _ Ek O1) as [kc ->].
    cbn [with_nested get_keys get_values get_data get_offsets] in Hres.
    destruct (value_type_from_string _ _) as [st2 nested_val_column] eqn:Ev.
    destruct (ok st2) eqn:O2; cbn [negb] in Hres;
      [|injection Hres as -> _ _ _; discriminate].
    destruct (value_parser_appends _ _ _ _ Ev O2) as [vc ->].
    apply IH in Hres; [|exact W2|].
    + destruct Hres as [ks [vs [Hk [Hv [Lk [Lv [Ok [Ov Hp]]]]]]]].
      cbn [with_nested get_keys get_values get_data get_offsets]
        in Hk, Hv, Ok, Ov.
      exists (kc :: ks), (vc :: vs).
      rewrite Hk, Hv, <- !app_assoc. cbn [app].
      unfold len in *. cbn [length].
      repeat split; try reflexivity; try assumption; try lia.
    + rewrite (count_window _ W2). rewrite (count_window _ W) in Hn. lia.
Qed.

(** X16.  When [from_string] returns [OK] it has appended one row of k
    pairs: the nested key column and the nested value column got k cells
    each behind the cells they had, both offset arrays got one entry, the
    previous last entry plus k, and unless the text is [{}] the whole
    buffer was consumed. *)
Theorem from_string_ok_appends_one_row (mem : list ascii) (rb : ReadBuffer)
  (column : ColumnMap K V) (rb' : ReadBuffer) (column' : ColumnMap K V) :
  window rb -> eof rb = false ->
  0 <= back (get_offsets (get_keys column)) < 2 ^ 64 ->
  0 <= back (get_offsets (get_values column)) < 2 ^ 64 ->
  from_string key_type_from_string value_type_from_string mem rb column
  = (OK, rb', column') ->
  exists ks vs,
    get_data (get_keys column') = get_data (get_keys column) ++ ks
    /\ get_data (get_values column') = get_data (get_values column) ++ vs
    /\ length ks = length vs
    /\ get_offsets (get_keys column')
       = get_offsets (get_keys column)
           ++ [to_size_t (back (get_offsets (get_keys column)) + len ks)]
    /\ get_offsets (get_values column')
       = get_offsets (get_values column)
           ++ [to_size_t (back (get_offsets (get_values column)) + len vs)]
    /\ (count rb <> 2 -> position rb' = end_ rb).
Proof.
  intros W Heof Hbk Hbv Hres. unfold from_string in Hres.
  unfold eof in Heof. apply Z.eqb_neq in Heof.
  destruct (negb (Ascii.eqb (deref mem (position rb)) "{")); [discriminate|].
  destruct (negb (Ascii.eqb (deref mem (end_ rb - 1)) "}")); [discriminate|].
  destruct (count rb =? 2) eqn:C2.
  - injection Hres as <- <-. exists [], [].
    cbn [insert_default get_keys get_values get_data get_offsets].
    rewrite !app_nil_r. change (len []) with 0. rewrite !Z.add_0_r.
    rewrite !to_size_t_small by assumption.
    apply Z.eqb_eq in C2. repeat split; try reflexivity. intros; lia.
  - apply Z.eqb_neq in C2.
    pose proof (count_window _ W) as Hc. pose proof W as [[Wa Wb] Wc].
    assert (W1 : window (advance rb 1)).
    { unfold window, advance. cbn [position end_]. lia. }
    destruct (from_string_loop K V key_type_from_string
                value_type_from_string (Z.to_nat (count (advance rb 1))) mem
                (advance rb 1) column 0)
      as [[[st rb1] column1] element_num] eqn:Eloop.
    destruct (ok st) eqn:O; cbn [negb] in Hres;
      [|injection Hres as -> _ _; discriminate].
    apply ok_is_OK in O. subst st. injection Hres as <- <-.
    apply from_string_loop_ok in Eloop; [|exact W1|lia].
    destruct Eloop as [ks [vs [Hk [Hv [Lk [Lv [Ok [Ov Hp]]]]]]]].
    exists ks, vs. cbn [get_keys get_values get_data get_offsets].
    rewrite Ok, Ov, Lk, Lv, Z.sub_0_r.
    repeat split; try assumption; try reflexivity.
    + unfold len in Lk, Lv. lia.
    + intros _. exact Hp.
Qed.

End FromStringOk.

Section FromStringSlotFailure.

Variables K V : Type.
Variable key_type_from_string : list ascii -> list K -> Status * list K.
Variable value_type_from_string : list ascii -> list V -> Status * list V.

(** The element parsers accept every slot and append one cell, so that
    only the tokenizer can fail. *)
Hypothesis key_parser_accepts :
  forall slot col,
    exists cell, key_type_from_string slot col = (OK, col ++ [cell]).
Hypothesis value_parser_accepts :
  forall slot col,
    exists cell, value_type_from_string slot col = (OK, col ++ [cell]).



End FromStringSlotFailure.

(** *** to_string and from_string *)

Ltac list_len :=
  unfold len in *;
  repeat (progress (rewrite ?length_app in *; cbn [length app] in * ));
  lia.

Lemma deref_at (a : list ascii) (c : ascii) (r : list ascii) :
  deref (a ++ c :: r) (len a) = c.
Proof.
  unfold deref, len. destruct (Z.of_nat (length a) <? 0) eqn:E;
    [apply Z.ltb_lt in E; lia|].
  rewrite Nat2Z.id. now rewrite nth_middle.
Qed.

Lemma eof_at p e : p < e -> eof (mkReadBuffer p e) = false.
Proof. intros H. unfold eof. cbn. apply Z.eqb_neq. lia. Qed.

Lemma count_at p e : 0 <= e - p < 2 ^ 64 -> count (mkReadBuffer p e) = e - p.
Proof. intros H. unfold count. cbn. now apply to_size_t_small. Qed.

Lemma to_string_at (a t b : list ascii) :
  to_string (a ++ t ++ b) (mkStringRef (len a) (len t)) = t.
Proof.
  unfold to_string, len. cbn [data size]. rewrite !Nat2Z.id.
  rewrite skipn_app, Nat.sub_diag, skipn_all, skipn_O. cbn [app].
  rewrite firstn_app, Nat.sub_diag, firstn_all, firstn_O.
  apply app_nil_r.
Qed.

Lemma app_cons_assoc {A} (a : list A) (c : A) (r : list A) :
  a ++ c :: r = (a ++ [c]) ++ r.
Proof. now rewrite <- app_assoc. Qed.

Lemma len_snoc {A} (a : list A) (c : A) : len (a ++ [c]) = len a + 1.
Proof. rewrite len_app. reflexivity. Qed.

Lemma ltrim_skips ws : forall n a rest sz,
  forallb isspace ws = true ->
  match rest with [] => False | c :: _ => isspace c = false end ->
  (length ws <= n)%nat ->
  ltrim n (a ++ ws ++ rest)
        (mkReadBuffer (len a) (len (a ++ ws ++ rest)))
        (mkStringRef (len a) sz)
  = (mkReadBuffer (len a + len ws) (len (a ++ ws ++ rest)),
     mkStringRef (len a + len ws) sz).
Proof.
  induction ws as [|w ws IH]; intros n a rest sz Hws Hrest Hn.
  - change (len []) with 0. rewrite Z.add_0_r. cbn [app].
    destruct n as [|n]; [reflexivity|]. cbn [ltrim position].
    destruct rest as [|c rest]; [contradiction|].
    rewrite deref_at, Hrest. now rewrite andb_false_r.
  - destruct n as [|n]; [simpl in Hn; lia|].
    cbn [forallb] in Hws. apply andb_true_iff in Hws as [Hw Hws].
    cbn [ltrim position app].
    rewrite deref_at, Hw.
    rewrite eof_at by (rewrite !len_app; unfold len; cbn [length];
                       pose proof (len_nonneg ws); lia).
    unfold advance. cbn [negb andb position end_ size].
    rewrite (app_cons_assoc a w), <- (len_snoc a w).
    rewrite IH; [|assumption|assumption|simpl in Hn; lia].
    rewrite len_snoc.
    replace (len (w :: ws)) with (1 + len ws)
      by (unfold len; cbn [length]; lia).
    replace (len a + (1 + len ws)) with (len a + 1 + len ws) by lia.
    reflexivity.
Qed.

Lemma slot_separator_not_space sep post :
  slot_separator sep post -> isspace sep = false /\ is_quote sep = false.
Proof. intros [->|[->|[-> _]]]; split; reflexivity. Qed.

Lemma scan_element_stops n a sep post has_quota element :
  slot_separator sep post ->
  len (a ++ sep :: post) < 2 ^ 64 ->
  scan_element n (a ++ sep :: post) has_quota
               (mkReadBuffer (len a) (len (a ++ sep :: post))) element
  = (true, mkReadBuffer (len a) (len (a ++ sep :: post)), element).
Proof.
  intros Hsep Hfit. destruct n as [|n]; [reflexivity|].
  cbn [scan_element position]. rewrite deref_at.
  destruct Hsep as [->|[->|[-> ->]]].
  - cbn [Ascii.eqb Bool.eqb negb andb]. now rewrite andb_false_r.
  - cbn [Ascii.eqb Bool.eqb negb andb]. now rewrite andb_false_r.
  - rewrite count_at
      by (rewrite len_app; unfold len; cbn [length];
          rewrite len_app in Hfit; unfold len in Hfit; cbn [length] in Hfit;
          lia).
    replace (len (a ++ ["}"%char]) - len a) with 1
      by (rewrite len_app; unfold len; cbn [length]; lia).
    cbn. now rewrite andb_false_r.
Qed.

Lemma scan_element_plain t : forall n a sep post d sz,
  forallb (fun c => negb (Ascii.eqb c ":"%char) && negb (Ascii.eqb c ","%char))
          t = true ->
  slot_separator sep post ->
  len (a ++ t ++ sep :: post) < 2 ^ 64 ->
  (length t <= n)%nat ->
  scan_element n (a ++ t ++ sep :: post) false
               (mkReadBuffer (len a) (len (a ++ t ++ sep :: post)))
               (mkStringRef d sz)
  = (true,
     mkReadBuffer (len a + len t) (len (a ++ t ++ sep :: post)),
     mkStringRef d (sz + len t)).
Proof.
  induction t as [|c t IH]; intros n a sep post d sz Ht Hsep Hfit Hn.
  - change (len []) with 0. rewrite !Z.add_0_r. cbn [app] in *.
    now apply scan_element_stops.
  - destruct n as [|n]; [simpl in Hn; lia|].
    cbn [forallb] in Ht. apply andb_true_iff in Ht as [Hc Ht].
    apply andb_true_iff in Hc as [Hc1 Hc2].
    cbn [scan_element position app]. rewrite deref_at, Hc1, Hc2.
    assert (Hlen : len (a ++ c :: t ++ sep :: post)
                   = len a + 1 + len t + 1 + len post).
    { clear. list_len. }
    pose proof (len_nonneg a). pose proof (len_nonneg t).
    pose proof (len_nonneg post).
    cbn [app] in Hfit.
    rewrite eof_at by lia. rewrite count_at by lia.
    replace (len (a ++ c :: t ++ sep :: post) - len a =? 1) with false
      by (symmetry; apply Z.eqb_neq; lia).
    unfold advance. cbn [negb andb orb position end_ data size].
    rewrite (app_cons_assoc a c), <- (len_snoc a c).
    rewrite IH; [|assumption|assumption| |simpl in Hn; lia].
    + rewrite len_snoc.
      replace (len (c :: t)) with (1 + len t)
        by (unfold len; cbn [length]; lia).
      replace (len a + (1 + len t)) with (len a + 1 + len t) by lia.
      replace (sz + (1 + len t)) with (sz + 1 + len t) by lia.
      reflexivity.
    + now rewrite <- app_cons_assoc.
Qed.

Lemma find_str_sep_finds q t2 : forall n a t1 rest,
  forallb (fun c => negb (Ascii.eqb c q)) t2 = true ->
  len (a ++ q :: (t1 ++ t2) ++ q :: rest) < 2 ^ 64 ->
  (length t2 <= n)%nat ->
  find_str_sep n (a ++ q :: (t1 ++ t2) ++ q :: rest)
               (mkReadBuffer (len a) (len (a ++ q :: (t1 ++ t2) ++ q :: rest)))
               q (1 + len t1)
  = 1 + len t1 + len t2.
Proof.
  induction t2 as [|c t2 IH]; intros n a t1 rest Ht Hfit Hn.
  - change (len []) with 0. rewrite Z.add_0_r.
    destruct n as [|n]; [reflexivity|]. cbn [find_str_sep position].
    rewrite app_nil_r.
    replace (len a + (1 + len t1)) with (len (a ++ q :: t1))
      by (rewrite len_app; unfold len; cbn [length]; lia).
    replace (a ++ q :: t1 ++ q :: rest) with ((a ++ q :: t1) ++ q :: rest)
      by (rewrite <- app_assoc; reflexivity).
    rewrite deref_at, Ascii.eqb_refl. now rewrite andb_false_r.
  - destruct n as [|n]; [simpl in Hn; lia|].
    cbn [forallb] in Ht. apply andb_true_iff in Ht as [Hc Ht].
    cbn [find_str_sep position].
    assert (Hlen : len (a ++ q :: (t1 ++ c :: t2) ++ q :: rest)
                   = len a + 1 + len t1 + 1 + len t2 + 1 + len rest).
    { clear. list_len. }
    pose proof (len_nonneg a). pose proof (len_nonneg t1).
    pose proof (len_nonneg t2). pose proof (len_nonneg rest).
    rewrite count_at by lia.
    replace (1 + len t1 <? len (a ++ q :: (t1 ++ c :: t2) ++ q :: rest) - len a)
      with true by (symmetry; apply Z.ltb_lt; lia).
    replace (len a + (1 + len t1)) with (len (a ++ q :: t1))
      by (rewrite len_app; unfold len; cbn [length]; lia).
    replace (a ++ q :: (t1 ++ c :: t2) ++ q :: rest)
      with ((a ++ q :: t1) ++ c :: t2 ++ q :: rest) at 1
      by (rewrite <- !app_assoc; reflexivity).
    rewrite deref_at, Hc. cbn [andb].
    replace (t1 ++ c :: t2) with ((t1 ++ [c]) ++ t2)
      by (rewrite <- app_assoc; reflexivity).
    replace (1 + len t1 + 1) with (1 + len (t1 ++ [c]))
      by (rewrite len_snoc; lia).
    rewrite IH; [|assumption| |simpl in Hn; lia].
    + rewrite len_snoc. unfold len. cbn [length]. lia.
    + replace ((t1 ++ [c]) ++ t2) with (t1 ++ c :: t2)
        by (rewrite <- app_assoc; reflexivity).
      assumption.
Qed.

Lemma rtrim_keeps n mem element :
  size element = 0
  \/ isspace (deref mem (data element + (size element - 1))) = false ->
  rtrim n mem element = element.
Proof.
  intros H. destruct n as [|n]; [reflexivity|]. cbn [rtrim].
  destruct H as [H|H].
  - rewrite H. reflexivity.
  - rewrite H. now rewrite andb_false_r.
Qed.

Ltac mem_eq :=
  subst; repeat (progress (rewrite <- ?app_assoc; cbn [app])); reflexivity.

Ltac tuple_eq :=
  repeat match goal with
         | |- (_, _) = (_, _) => apply f_equal2
         | |- mkReadBuffer _ _ = mkReadBuffer _ _ => apply f_equal2
         | |- mkStringRef _ _ = mkStringRef _ _ => apply f_equal2
         end;
  try reflexivity; try lia.

Lemma deref_in mem p a c r :
  mem = a ++ c :: r -> p = len a -> deref mem p = c.
Proof. intros -> ->. apply deref_at. Qed.

Lemma ltrim_skips_in mem e p a ws rest n sz :
  mem = a ++ ws ++ rest -> e = len mem -> p = len a ->
  forallb isspace ws = true ->
  match rest with [] => False | c :: _ => isspace c = false end ->
  (length ws <= n)%nat ->
  ltrim n mem (mkReadBuffer p e) (mkStringRef p sz)
  = (mkReadBuffer (p + len ws) e, mkStringRef (p + len ws) sz).
Proof. intros -> -> ->. apply ltrim_skips. Qed.

Lemma scan_element_stops_in mem e p a sep post n has_quota element :
  mem = a ++ sep :: post -> e = len mem -> p = len a ->
  slot_separator sep post -> e < 2 ^ 64 ->
  scan_element n mem has_quota (mkReadBuffer p e) element
  = (true, mkReadBuffer p e, element).
Proof. intros -> -> ->. apply scan_element_stops. Qed.

Lemma scan_element_plain_in mem e p a t sep post n d sz :
  mem = a ++ t ++ sep :: post -> e = len mem -> p = len a ->
  forallb (fun c => negb (Ascii.eqb c ":"%char) && negb (Ascii.eqb c ","%char))
          t = true ->
  slot_separator sep post -> e < 2 ^ 64 -> (length t <= n)%nat ->
  scan_element n mem false (mkReadBuffer p e) (mkStringRef d sz)
  = (true, mkReadBuffer (p + len t) e, mkStringRef d (sz + len t)).
Proof. intros -> -> ->. apply scan_element_plain. Qed.

Lemma find_str_sep_in mem e p a q text rest n :
  mem = a ++ q :: text ++ q :: rest -> e = len mem -> p = len a ->
  forallb (fun c => negb (Ascii.eqb c q)) text = true ->
  e < 2 ^ 64 -> (length text <= n)%nat ->
  find_str_sep n mem (mkReadBuffer p e) q 1 = 1 + len text.
Proof.
  intros -> -> -> Ht Hfit Hn.
  pose proof (find_str_sep_finds q text n a [] rest Ht) as H.
  cbn [app] in H. change (len []) with 0 in H. rewrite Z.add_0_r in H.
  now apply H.
Qed.

(** A slot that holds a plain text. *)
Lemma next_slot_reads_plain mem e p a ws t sep post out :
  mem = a ++ ws ++ t ++ sep :: post -> e = len mem -> p = len a ->
  e < 2 ^ 64 ->
  forallb isspace ws = true -> plain_slot t = true ->
  slot_separator sep post ->
  next_slot_from_string mem (mkReadBuffer p e) out
  = (true, mkReadBuffer (p + len ws + len t + 1) e,
     mkStringRef (p + len ws) (len t)).
Proof.
  intros Hmem He Hp Hfit Hws Hplain Hsep.
  unfold plain_slot in Hplain.
  apply andb_true_iff in Hplain as [Hplain Hlast].
  apply andb_true_iff in Hplain as [Hchars Hhead].
  apply negb_true_iff in Hlast.
  destruct (slot_separator_not_space sep post Hsep) as [Hsep1 Hsep2].
  assert (Hlen : e = p + len ws + len t + 1 + len post)
    by (subst; clear; list_len).
  pose proof (len_nonneg a). pose proof (len_nonneg ws).
  pose proof (len_nonneg t). pose proof (len_nonneg post).
  assert (Hfirst : exists c0 r0,
             t ++ sep :: post = c0 :: r0
             /\ isspace c0 = false /\ is_quote c0 = false).
  { destruct t as [|c t'].
    - exists sep, post. now split.
    - exists c, (t' ++ sep :: post).
      apply andb_true_iff in Hhead as [Hh1 Hh2].
      apply negb_true_iff in Hh1, Hh2. now split. }
  destruct Hfirst as [c0 [r0 [Hc0 [Hsp Hqu]]]].
  unfold next_slot_from_string. cbn [position].
  rewrite eof_at by lia. rewrite count_at by lia.
  rewrite (ltrim_skips_in mem e p a ws (t ++ sep :: post) _ 0 Hmem He Hp Hws)
    by (try (rewrite Hc0; exact Hsp); unfold len in *; lia).
  cbv beta iota zeta. cbn [position].
  assert (Hd : deref mem (p + len ws) = c0).
  { apply (deref_in mem _ (a ++ ws) c0 r0).
    - rewrite <- Hc0. mem_eq.
    - subst p. clear. list_len. }
  rewrite Hd, Hqu. cbv beta iota zeta. cbn [negb].
  rewrite count_at by lia.
  rewrite (scan_element_plain_in mem e (p + len ws) (a ++ ws) t sep post)
    by (try assumption; try mem_eq; try (subst p; clear; list_len);
        unfold len in *; lia).
  cbv beta iota zeta. cbn [negb].
  rewrite eof_at by lia. unfold advance. cbn [position end_ size data].
  rewrite rtrim_keeps.
  2:{ cbn [size data].
      destruct (list_eq_dec Ascii.ascii_dec t []) as [->|Hne];
        [now left|right].
      destruct (exists_last Hne) as [t' [l Ht]]. subst t.
      rewrite last_last in Hlast. rewrite Z.add_0_l.
      erewrite (deref_in mem _ (a ++ ws ++ t') l (sep :: post));
        [exact Hlast|mem_eq|subst p; clear; list_len]. }
  cbn [size data]. rewrite Hd, Hqu, andb_false_r. cbn [andb].
  tuple_eq.
Qed.

(** A slot that holds a text between quotes. *)
Lemma next_slot_reads_quoted mem e p a ws q text sep post out :
  mem = a ++ ws ++ (q :: text ++ [q]) ++ sep :: post ->
  e = len mem -> p = len a -> e < 2 ^ 64 ->
  forallb isspace ws = true ->
  is_quote q = true ->
  forallb (fun c => negb (Ascii.eqb c q)) text = true ->
  slot_separator sep post ->
  next_slot_from_string mem (mkReadBuffer p e) out
  = (true, mkReadBuffer (p + len ws + (len text + 2) + 1) e,
     mkStringRef (p + len ws + 1) (len text)).
Proof.
  intros Hmem He Hp Hfit Hws Hq Htext Hsep.
  assert (Hqsp : isspace q = false).
  { unfold is_quote in Hq. apply orb_true_iff in Hq as [Hq|Hq];
      apply Ascii.eqb_eq in Hq; subst q; reflexivity. }
  assert (Hlen : e = p + len ws + (len text + 2) + 1 + len post)
    by (subst; clear; list_len).
  pose proof (len_nonneg a). pose proof (len_nonneg ws).
  pose proof (len_nonneg text). pose proof (len_nonneg post).
  unfold next_slot_from_string. cbn [position].
  rewrite eof_at by lia. rewrite count_at by lia.
  rewrite (ltrim_skips_in mem e p a ws ((q :: text ++ [q]) ++ sep :: post)
                          _ 0 Hmem He Hp Hws)
    by (try exact Hqsp; unfold len in *; lia).
  cbv beta iota zeta. cbn [position].
  assert (Hd : deref mem (p + len ws) = q).
  { apply (deref_in mem _ (a ++ ws) q (text ++ q :: sep :: post)).
    - mem_eq.
    - subst p. clear. list_len. }
  rewrite Hd, Hq. rewrite count_at by lia.
  rewrite (find_str_sep_in mem e (p + len ws) (a ++ ws) q text (sep :: post))
    by (try assumption; try mem_eq; try (subst p; clear; list_len);
        unfold len in *; lia).
  replace (e - (p + len ws) <=? 1 + len text) with false
    by (symmetry; apply Z.leb_gt; lia).
  cbv beta iota zeta. cbn [negb]. unfold advance.
  cbn [position end_ size data].
  rewrite (scan_element_stops_in mem e _ (a ++ ws ++ q :: text ++ [q])
                                 sep post)
    by (try assumption; try mem_eq; subst p; clear; list_len).
  cbv beta iota zeta. cbn [negb].
  rewrite eof_at by lia. cbn [position end_ size data].
  assert (Hl : deref mem (p + len ws + (0 + (1 + len text + 1) - 1)) = q).
  { apply (deref_in mem _ (a ++ ws ++ q :: text) q (sep :: post)).
    - mem_eq.
    - subst p. clear. list_len. }
  rewrite rtrim_keeps by (right; cbn [size data]; rewrite Hl; exact Hqsp).
  cbn [size data]. rewrite Hd, Hl, Hq, Ascii.eqb_refl.
  replace (2 <=? 0 + (1 + len text + 1)) with true
    by (symmetry; apply Z.leb_le; lia).
  cbn [andb]. tuple_eq.
Qed.

(** *** Slots the tokenizer rejects *)

Lemma find_str_sep_misses q t2 : forall n a t1,
  forallb (fun c => negb (Ascii.eqb c q)) t2 = true ->
  len (a ++ q :: t1 ++ t2) < 2 ^ 64 ->
  (length t2 <= n)%nat ->
  find_str_sep n (a ++ q :: t1 ++ t2)
               (mkReadBuffer (len a) (len (a ++ q :: t1 ++ t2)))
               q (1 + len t1)
  = 1 + len t1 + len t2.
Proof.
  induction t2 as [|c t2 IH]; intros n a t1 Ht Hfit Hn.
  - change (len []) with 0. rewrite Z.add_0_r, app_nil_r in *.
    destruct n as [|n]; [reflexivity|]. cbn [find_str_sep].
    pose proof (len_nonneg a). pose proof (len_nonneg t1).
    assert (Hlen : len (a ++ q :: t1) = len a + 1 + len t1)
      by (clear; list_len).
    rewrite count_at by lia.
    replace (1 + len t1 <? len (a ++ q :: t1) - len a) with false
      by (symmetry; apply Z.ltb_ge; lia).
    reflexivity.
  - destruct n as [|n]; [simpl in Hn; lia|].
    cbn [forallb] in Ht. apply andb_true_iff in Ht as [Hc Ht].
    cbn [find_str_sep position].
    assert (Hlen : len (a ++ q :: t1 ++ c :: t2)
                   = len a + 1 + len t1 + 1 + len t2) by (clear; list_len).
    pose proof (len_nonneg a). pose proof (len_nonneg t1).
    pose proof (len_nonneg t2).
    rewrite count_at by lia.
    replace (1 + len t1 <? len (a ++ q :: t1 ++ c :: t2) - len a)
      with true by (symmetry; apply Z.ltb_lt; lia).
    replace (len a + (1 + len t1)) with (len (a ++ q :: t1))
      by (clear; list_len).
    replace (a ++ q :: t1 ++ c :: t2) with ((a ++ q :: t1) ++ c :: t2) at 1
      by (rewrite <- !app_assoc; reflexivity).
    rewrite deref_at, Hc. cbn [andb].
    replace (t1 ++ c :: t2) with ((t1 ++ [c]) ++ t2)
      by (rewrite <- app_assoc; reflexivity).
    replace (1 + len t1 + 1) with (1 + len (t1 ++ [c]))
      by (rewrite len_snoc; lia).
    rewrite IH; [|assumption| |simpl in Hn; lia].
    + rewrite len_snoc. unfold len. cbn [length]. lia.
    + replace ((t1 ++ [c]) ++ t2) with (t1 ++ c :: t2)
        by (rewrite <- app_assoc; reflexivity).
      assumption.
Qed.

Lemma scan_element_to_end t : forall n a d sz,
  forallb (fun c => negb (Ascii.eqb c ":"%char) && negb (Ascii.eqb c ","%char))
          t = true ->
  last t zero <> "}"%char ->
  len (a ++ t) < 2 ^ 64 ->
  (length t <= n)%nat ->
  scan_element n (a ++ t) false
               (mkReadBuffer (len a) (len (a ++ t))) (mkStringRef d sz)
  = (true, mkReadBuffer (len (a ++ t)) (len (a ++ t)),
     mkStringRef d (sz + len t)).
Proof.
  induction t as [|c t IH]; intros n a d sz Ht Hlast Hfit Hn.
  - change (len []) with 0. rewrite Z.add_0_r, app_nil_r.
    destruct n as [|n]; [reflexivity|]. cbn [scan_element].
    unfold eof. cbn [position end_]. rewrite Z.eqb_refl. reflexivity.
  - destruct n as [|n]; [simpl in Hn; lia|].
    cbn [forallb] in Ht. apply andb_true_iff in Ht as [Hc Ht].
    apply andb_true_iff in Hc as [Hc1 Hc2].
    cbn [scan_element position]. rewrite deref_at, Hc1, Hc2.
    assert (Hlen : len (a ++ c :: t) = len a + 1 + len t)
      by (clear; list_len).
    pose proof (len_nonneg a). pose proof (len_nonneg t).
    rewrite eof_at by lia. rewrite count_at by lia.
    assert (Hbrace : negb (len (a ++ c :: t) - len a =? 1)
                     || negb (Ascii.eqb c "}"%char) = true).
    { destruct t as [|c' t].
      - cbn [last] in Hlast. apply orb_true_iff. right.
        apply negb_true_iff. now apply Ascii.eqb_neq.
      - apply orb_true_iff. left. apply negb_true_iff. apply Z.eqb_neq.
        rewrite Hlen. unfold len. cbn [length]. lia. }
    rewrite Hbrace. unfold advance.
    cbn [negb andb position end_ data size].
    rewrite (app_cons_assoc a c), <- (len_snoc a c).
    rewrite IH; [| | | |simpl in Hn; lia].
    + replace (len (c :: t)) with (1 + len t)
        by (unfold len; cbn [length]; lia).
      replace (sz + (1 + len t)) with (sz + 1 + len t) by lia.
      reflexivity.
    + assumption.
    + destruct t; [cbn; discriminate|exact Hlast].
    + now rewrite <- app_cons_assoc.
Qed.

(** X22.  [next_slot_from_string] rejects a slot whose opening quote is
    never closed, and a slot of plain text that reaches the end of the
    buffer without a separator: it returns false, leaves [output]
    unwritten and moves the position to the end of the buffer. *)
Theorem next_slot_from_string_rejects (mem : list ascii) (e p : Z)
  (a ws tok : list ascii) (out : StringRef) :
  mem = a ++ ws ++ tok -> e = len mem -> p = len a -> e < 2 ^ 64 ->
  forallb isspace ws = true ->
  (exists q text,
      tok = q :: text /\ is_quote q = true
      /\ forallb (fun c => negb (Ascii.eqb c q)) text = true)
  \/ (forallb (fun c => negb (Ascii.eqb c ":"%char)
                        && negb (Ascii.eqb c ","%char)) tok = true
      /\ match tok with
         | [] => False
         | c :: _ => isspace c = false /\ is_quote c = false
         end
      /\ last tok zero <> "}"%char) ->
  next_slot_from_string mem (mkReadBuffer p e) out
  = (false, mkReadBuffer e e, out).
Proof.
  intros Hmem He Hp Hfit Hws Hcases.
  pose proof (len_nonneg a). pose proof (len_nonneg ws).
  pose proof (len_nonneg tok).
  assert (Hlen : e = p + len ws + len tok) by (subst; clear; list_len).
  assert (Htok : exists c0 r0, tok = c0 :: r0 /\ isspace c0 = false).
  { destruct Hcases as [[q [text [-> [Hq _]]]]|[_ [Hhead _]]].
    - exists q, text. split; [reflexivity|].
      unfold is_quote in Hq. apply orb_true_iff in Hq as [Hq|Hq];
        apply Ascii.eqb_eq in Hq; subst q; reflexivity.
    - destruct tok as [|c r]; [contradiction|]. exists c, r.
      now split. }
  destruct Htok as [c0 [r0 [Hc0 Hsp]]].
  assert (Hpos : 0 < len tok)
    by (rewrite Hc0; unfold len; cbn [length]; lia).
  unfold next_slot_from_string. cbn [position].
  rewrite eof_at by lia. rewrite count_at by lia.
  rewrite (ltrim_skips_in mem e p a ws tok _ 0 Hmem He Hp Hws)
    by (try (rewrite Hc0; exact Hsp); unfold len in *; lia).
  cbv beta iota zeta. cbn [position].
  assert (Hd : deref mem (p + len ws) = c0).
  { apply (deref_in mem _ (a ++ ws) c0 r0).
    - rewrite <- Hc0. mem_eq.
    - subst p. clear. list_len. }
  rewrite Hd. rewrite count_at by lia.
  destruct Hcases as [[q [text [Hq1 [Hq Htext]]]]|[Hchars [Hhead Hlast]]].
  - (* the quote is never closed *)
    assert (c0 = q /\ r0 = text) as [-> ->] by (split; congruence).
    rewrite Hq.
    pose proof (find_str_sep_misses q text (Z.to_nat (e - (p + len ws)))
                                    (a ++ ws) [] Htext) as Hfind.
    cbn [app] in Hfind. change (len []) with 0 in Hfind.
    rewrite Z.add_0_r in Hfind.
    replace (a ++ ws ++ tok) with ((a ++ ws) ++ q :: text) in Hmem
      by (rewrite Hc0; mem_eq).
    rewrite <- Hmem, <- He in Hfind.
    replace (len (a ++ ws)) with (p + len ws) in Hfind
      by (subst p; clear; list_len).
    rewrite Hfind by (rewrite Hc0 in Hlen; unfold len in *;
                      cbn [length] in *; lia).
    replace (e - (p + len ws) <=? 1 + len text) with true
      by (symmetry; apply Z.leb_le; rewrite Hc0 in Hlen; unfold len in *;
          cbn [length] in *; lia).
    reflexivity.
  - (* no separator before the end *)
    rewrite Hc0 in Hhead. destruct Hhead as [_ Hqu]. rewrite Hqu.
    cbv beta iota zeta. cbn [negb].
    pose proof (scan_element_to_end tok (Z.to_nat (e - (p + len ws)))
                                    (a ++ ws) (p + len ws) 0 Hchars Hlast)
      as Hscan.
    replace (a ++ ws ++ tok) with ((a ++ ws) ++ tok) in Hmem by mem_eq.
    rewrite <- Hmem, <- He in Hscan.
    replace (len (a ++ ws)) with (p + len ws) in Hscan
      by (subst p; clear; list_len).
    rewrite ?count_at by lia.
    rewrite Hscan by (unfold len in *; lia).
    cbv beta iota zeta. cbn [negb].
    unfold eof. cbn [position end_]. rewrite Z.eqb_refl. reflexivity.
Qed.

Lemma to_string_in mem d a t b :
  mem = a ++ t ++ b -> d = len a ->
  to_string mem (mkStringRef d (len t)) = t.
Proof. intros -> ->. apply to_string_at. Qed.

(** What [to_string] writes for an element is read back as the text of
    its slot. *)
Lemma next_slot_reads_token mem e p a ws tok text sep post out :
  mem = a ++ ws ++ tok ++ sep :: post -> e = len mem -> p = len a ->
  e < 2 ^ 64 ->
  forallb isspace ws = true ->
  (tok = text /\ plain_slot text = true)
  \/ (tok = "'"%char :: text ++ ["'"%char] /\ quoted_slot text = true) ->
  slot_separator sep post ->
  exists element,
    next_slot_from_string mem (mkReadBuffer p e) out
    = (true, mkReadBuffer (p + len ws + len tok + 1) e, element)
    /\ to_string mem element = text.
Proof.
  intros Hmem He Hp Hfit Hws [[-> Hplain]|[-> Hquoted]] Hsep.
  - eexists. split.
    + eapply next_slot_reads_plain; eassumption.
    + apply (to_string_in mem _ (a ++ ws) text (sep :: post));
        [mem_eq|subst p; clear; list_len].
  - eexists. split.
    + erewrite next_slot_reads_quoted; try eassumption; [|reflexivity].
      tuple_eq. clear. list_len.
    + apply (to_string_in mem _ (a ++ ws ++ ["'"%char]) text
                          ("'"%char :: sep :: post));
        [mem_eq|subst p; clear; list_len].
Qed.

Section SlotLoop.

Variables K V : Type.
Variable key_type_from_string : list ascii -> list K -> Status * list K.
Variable value_type_from_string : list ascii -> list V -> Status * list V.

(** For the element numbered [i]: what [to_string] writes for its key and
    its value, the texts of the two slots, and the two cells. *)
Variables ktok kslot vtok vslot : Z -> list ascii.
Variable kcell : Z -> K.
Variable vcell : Z -> V.

Lemma pairs_text_length first (l : list Z) :
  2 * len l <= len (pairs_text first (map (fun i => (ktok i, vtok i)) l)).
Proof.
  revert first. induction l as [|i l IH]; intros first; [reflexivity|].
  cbn [map pairs_text]. specialize (IH false).
  pose proof (len_nonneg (ktok i)). pose proof (len_nonneg (vtok i)).
  destruct l as [|j l]; cbn [map] in *.
  - destruct first; clear IH; list_len.
  - set (rest := pairs_text false (_ :: _)) in *.
    clearbody rest. destruct first; list_len.
Qed.

Lemma from_string_loop_reads_pairs (l : list Z) :
  forall n a first column element_num,
    (forall i, In i l ->
       ((ktok i = kslot i /\ plain_slot (kslot i) = true)
        \/ (ktok i = "'"%char :: kslot i ++ ["'"%char]
            /\ quoted_slot (kslot i) = true))
       /\ ((vtok i = vslot i /\ plain_slot (vslot i) = true)
           \/ (vtok i = "'"%char :: vslot i ++ ["'"%char]
               /\ quoted_slot (vslot i) = true))
       /\ (forall col,
              key_type_from_string (kslot i) col = (OK, col ++ [kcell i]))
       /\ (forall col,
              value_type_from_string (vslot i) col = (OK, col ++ [vcell i]))) ->
    len (a ++ pairs_text first (map (fun i => (ktok i, vtok i)) l)) < 2 ^ 64 ->
    (length l <= n)%nat ->
    from_string_loop K V key_type_from_string value_type_from_string n
      (a ++ pairs_text first (map (fun i => (ktok i, vtok i)) l))
      (mkReadBuffer
         (len a)
         (len (a ++ pairs_text first (map (fun i => (ktok i, vtok i)) l))))
      column element_num
    = (OK,
       mkReadBuffer
         (len (a ++ pairs_text first (map (fun i => (ktok i, vtok i)) l)))
         (len (a ++ pairs_text first (map (fun i => (ktok i, vtok i)) l))),
       mkColumnMap
         (mkColumnArray (get_data (get_keys column) ++ map kcell l)
                        (get_offsets (get_keys column)))
         (mkColumnArray (get_data (get_values column) ++ map vcell l)
                        (get_offsets (get_values column))),
       element_num + len l).
Proof.
  induction l as [|i l IH]; intros n a first column element_num Hl Hfit Hn.
  - cbn [map pairs_text]. rewrite !app_nil_r. change (len []) with 0.
    rewrite Z.add_0_r. destruct column as [[kd ko] [vd vo]].
    cbn [get_keys get_values get_data get_offsets]. rewrite ?app_nil_r.
    destruct n as [|n]; cbn [from_string_loop]; [reflexivity|].
    unfold eof. cbn [position end_]. now rewrite Z.eqb_refl.
  - destruct n as [|n]; [simpl in Hn; lia|].
    destruct (Hl i (or_introl eq_refl)) as [Hk [Hv [Hkp Hvp]]].
    set (ws := if first then [] else [" "%char]).
    set (sep := match l with [] => "}"%char | _ :: _ => ","%char end).
    set (post := pairs_text false (map (fun i => (ktok i, vtok i)) l)).
    assert (Hmem : pairs_text first (map (fun i => (ktok i, vtok i)) (i :: l))
                   = ws ++ ktok i ++ ":"%char :: vtok i ++ sep :: post).
    { cbn [map pairs_text]. fold ws. subst sep post.
      destruct l; reflexivity. }
    rewrite Hmem in *.
    set (mem := a ++ ws ++ ktok i ++ ":"%char :: vtok i ++ sep :: post) in *.
    set (e := len mem) in *.
    assert (Hws : forallb isspace ws = true) by (subst ws; now destruct first).
    assert (Hsep : slot_separator sep post).
    { subst sep post. destruct l; [right; right; now split|right; now left]. }
    pose proof (len_nonneg a). pose proof (len_nonneg ws).
    pose proof (len_nonneg (ktok i)). pose proof (len_nonneg (vtok i)).
    pose proof (len_nonneg post).
    assert (He : e = len a + len ws + len (ktok i) + 1 + len (vtok i) + 1
                     + len post)
      by (subst e mem; clear; list_len).
    cbn [from_string_loop].
    rewrite eof_at by lia.
    (* the key slot *)
    destruct (next_slot_reads_token
                mem e (len a) a ws (ktok i) (kslot i) ":"%char
                (vtok i ++ sep :: post)
                (mkStringRef (position (mkReadBuffer (len a) e))
                             (count (mkReadBuffer (len a) e)))
                eq_refl eq_refl eq_refl Hfit Hws Hk
                (or_introl eq_refl))
      as [key_element [Hkey Hktext]].
    rewrite Hkey. cbn [negb].
    (* the value slot *)
    set (p1 := len a + len ws + len (ktok i) + 1) in *.
    destruct (next_slot_reads_token
                mem e p1 (a ++ ws ++ ktok i ++ [":"%char]) [] (vtok i)
                (vslot i) sep post
                (mkStringRef (position (mkReadBuffer p1 e))
                             (count (mkReadBuffer p1 e)))
                ltac:(subst mem; mem_eq) eq_refl
                ltac:(subst p1; clear; list_len) Hfit eq_refl Hv Hsep)
      as [value_element [Hvalue Hvtext]].
    rewrite Hvalue. cbn [negb].
    rewrite Hktext, Hvtext, Hkp. cbn [ok negb].
    cbn [with_nested get_keys get_values get_data get_offsets].
    rewrite Hvp. cbn [ok negb].
    cbn [with_nested get_keys get_values get_data get_offsets].
    (* the remaining pairs *)
    set (a2 := a ++ ws ++ ktok i ++ ":"%char :: vtok i ++ [sep]).
    assert (Hmem2 : mem = a2 ++ post) by (subst mem a2; mem_eq).
    assert (Hp2 : p1 + len (@nil ascii) + len (vtok i) + 1 = len a2)
      by (subst p1 a2; clear; list_len).
    rewrite Hp2. subst e. rewrite Hmem2.
    subst post.
    rewrite IH.
    + cbn [with_nested get_keys get_values get_data get_offsets].
      rewrite <- !app_assoc. cbn [app map].
      tuple_eq; clear; list_len.
    + intros j Hj. apply Hl. now right.
    + rewrite <- Hmem2. exact Hfit.
    + simpl in Hn. lia.
Qed.

End SlotLoop.

Lemma element_to_string_readable {T : Type}
  (is_null_at : list T -> Z -> bool) (is_string_or_fixed_string : bool)
  (type_to_string : list T -> Z -> list ascii) (nested_column : list T)
  (i : Z) :
  readable is_null_at is_string_or_fixed_string type_to_string
           nested_column i = true ->
  (element_to_string is_null_at is_string_or_fixed_string type_to_string
                     nested_column i
   = slot_text is_null_at type_to_string nested_column i
   /\ plain_slot (slot_text is_null_at type_to_string nested_column i) = true)
  \/ (element_to_string is_null_at is_string_or_fixed_string type_to_string
                        nested_column i
      = "'"%char :: slot_text is_null_at type_to_string nested_column i
                 ++ ["'"%char]
      /\ quoted_slot (slot_text is_null_at type_to_string nested_column i)
         = true).
Proof.
  unfold readable, element_to_string, slot_text.
  destruct (is_null_at nested_column i); [left; now split|].
  destruct is_string_or_fixed_string; intros H; [right|left]; now split.
Qed.

Lemma range_cons (i : Z) (n : nat) :
  map (fun j => i + Z.of_nat j) (seq 0 (S n))
  = i :: map (fun j => (i + 1) + Z.of_nat j) (seq 0 n).
Proof.
  cbn [seq map]. rewrite Z.add_0_r. f_equal.
  rewrite <- seq_shift, map_map. apply map_ext. intros j. lia.
Qed.

Lemma range_in (i : Z) (n : nat) (x : Z) :
  In x (map (fun j => i + Z.of_nat j) (seq 0 n)) -> i <= x < i + Z.of_nat n.
Proof.
  intros H. apply in_map_iff in H as [j [<- Hj]]. apply in_seq in Hj. lia.
Qed.

Lemma range_cells {T : Type} (cells : list T) (d : T) (n : nat) :
  forall offset : nat,
    (offset + n <= length cells)%nat ->
    map (fun i => nth (Z.to_nat i) cells d)
        (map (fun j => Z.of_nat offset + Z.of_nat j) (seq 0 n))
    = firstn n (skipn offset cells).
Proof.
  induction n as [|n IH]; intros offset Hn; [reflexivity|].
  rewrite range_cons. cbn [map]. rewrite Nat2Z.id.
  replace (Z.of_nat offset + 1) with (Z.of_nat (S offset)) by lia.
  rewrite IH by lia.
  destruct (skipn offset cells) as [|c rest] eqn:E.
  { apply (f_equal (@length T)) in E. rewrite length_skipn in E.
    simpl in E. lia. }
  cbn [firstn]. f_equal.
  - rewrite <- (firstn_skipn offset cells) at 1.
    rewrite app_nth2 by (rewrite length_firstn; lia).
    rewrite length_firstn, E.
    replace (offset - Nat.min offset (length cells))%nat with 0%nat by lia.
    reflexivity.
  - f_equal. change (S offset) with (1 + offset)%nat.
    rewrite <- skipn_skipn, E. reflexivity.
Qed.

Lemma range_cells_from {T : Type} (cells : list T) (d : T) (n : nat)
  (offset : Z) :
  0 <= offset -> (Z.to_nat offset + n <= length cells)%nat ->
  map (fun i => nth (Z.to_nat i) cells d)
      (map (fun j => offset + Z.of_nat j) (seq 0 n))
  = firstn n (skipn (Z.to_nat offset) cells).
Proof.
  intros H0 Hn. rewrite <- (range_cells cells d n (Z.to_nat offset)) by lia.
  f_equal. apply map_ext. intros j. lia.
Qed.

Section RoundTrip.

Variables K V : Type.
Variable key_is_null_at : list K -> Z -> bool.
Variable key_is_string_or_fixed_string : bool.
Variable key_type_to_string : list K -> Z -> list ascii.
Variable value_is_null_at : list V -> Z -> bool.
Variable value_is_string_or_fixed_string : bool.
Variable value_type_to_string : list V -> Z -> list ascii.
Variable key_type_from_string : list ascii -> list K -> Status * list K.
Variable value_type_from_string : list ascii -> list V -> Status * list V.

Lemma to_string_loop_spec (keys : list K) (values : list V) (offset : Z)
  (n : nat) : forall i ss,
  offset <= i ->
  to_string_loop K V key_is_null_at key_is_string_or_fixed_string
                 key_type_to_string value_is_null_at
                 value_is_string_or_fixed_string value_type_to_string
                 n keys values offset i ss ++ ["}"%char]
  = ss ++ match n with
          | O => ["}"%char]
          | S _ =>
              (if i =? offset then [] else [","%char])
                ++ pairs_text
                     (i =? offset)
                     (map (fun i =>
                             (element_to_string
                                key_is_null_at key_is_string_or_fixed_string
                                key_type_to_string keys i,
                              element_to_string
                                value_is_null_at
                                value_is_string_or_fixed_string
                                value_type_to_string values i))
                          (map (fun j => i + Z.of_nat j) (seq 0 n)))
          end.
Proof.
  induction n as [|n IH]; intros i ss Hi; [reflexivity|].
  cbn [to_string_loop]. rewrite IH by lia.
  rewrite range_cons. cbn [map pairs_text].
  replace (i + 1 =? offset) with false by (symmetry; apply Z.eqb_neq; lia).
  destruct (i =? offset); cbn [negb app];
    rewrite <- ?app_assoc; cbn [app list_ascii_of_string];
    rewrite <- ?app_assoc; cbn [app];
    destruct n; reflexivity.
Qed.

(** X18.  What [to_string] writes for a row is read back by [from_string]
    as that row, when every element is written in a form the tokenizer
    returns unchanged (a text without [:] and [,] that neither starts nor
    ends with white space, or any text without [']  between the quotes of
    a string type) and the element parsers read the element texts back:
    [from_string] returns [OK], appends the cells of the row to the nested
    columns and one entry to each offset array. *)
Theorem map_to_string_from_string_round_trip
  (column dest : ColumnMap K V) (row_num : Z) (dk : K) (dv : V) :
  let keys := get_data (get_keys column) in
  let values := get_data (get_values column) in
  let offset := at_ (get_offsets (get_keys column)) (row_num - 1) in
  let next_offset := at_ (get_offsets (get_keys column)) row_num in
  let text :=
    map_to_string key_is_null_at key_is_string_or_fixed_string
                  key_type_to_string value_is_null_at
                  value_is_string_or_fixed_string value_type_to_string
                  column row_num in
  0 <= offset <= next_offset ->
  next_offset <= len keys -> next_offset <= len values ->
  (forall i, offset <= i < next_offset ->
     readable key_is_null_at key_is_string_or_fixed_string
              key_type_to_string keys i = true
     /\ readable value_is_null_at value_is_string_or_fixed_string
                 value_type_to_string values i = true
     /\ (forall col,
            key_type_from_string
              (slot_text key_is_null_at key_type_to_string keys i) col
            = (OK, col ++ [nth (Z.to_nat i) keys dk]))
     /\ (forall col,
            value_type_from_string
              (slot_text value_is_null_at value_type_to_string values i) col
            = (OK, col ++ [nth (Z.to_nat i) values dv]))) ->
  len text < 2 ^ 64 ->
  0 <= back (get_offsets (get_keys dest)) < 2 ^ 64 ->
  0 <= back (get_offsets (get_values dest)) < 2 ^ 64 ->
  exists rb',
    from_string key_type_from_string value_type_from_string text
                (mkReadBuffer 0 (len text)) dest
    = (OK, rb',
       mkColumnMap
         (mkColumnArray
            (get_data (get_keys dest)
               ++ firstn (Z.to_nat (next_offset - offset))
                         (skipn (Z.to_nat offset) keys))
            (get_offsets (get_keys dest)
               ++ [to_size_t (back (get_offsets (get_keys dest))
                              + (next_offset - offset))]))
         (mkColumnArray
            (get_data (get_values dest)
               ++ firstn (Z.to_nat (next_offset - offset))
                         (skipn (Z.to_nat offset) values))
            (get_offsets (get_values dest)
               ++ [to_size_t (back (get_offsets (get_values dest))
                              + (next_offset - offset))]))).
Proof.
  intros keys values offset next_offset text Hoff Hkeys Hvalues Helems Hfit
         Hbk Hbv.
  set (ktok := element_to_string key_is_null_at key_is_string_or_fixed_string
                                 key_type_to_string keys).
  set (vtok := element_to_string value_is_null_at
                                 value_is_string_or_fixed_string
                                 value_type_to_string values).
  set (n := Z.to_nat (next_offset - offset)).
  set (l := map (fun j => offset + Z.of_nat j) (seq 0 n)).
  assert (Htext : text
                  = "{"%char
                    :: match n with
                       | O => ["}"%char]
                       | S _ => pairs_text true
                                  (map (fun i => (ktok i, vtok i)) l)
                       end).
  { unfold text, map_to_string. fold offset next_offset keys values n.
    rewrite to_string_loop_spec by lia. rewrite Z.eqb_refl.
    destruct n; reflexivity. }
  assert (Hlast : deref text (len text - 1) = "}"%char).
  { unfold text, map_to_string.
    match goal with
    | |- deref (?x ++ _) _ = _ => apply (deref_in _ _ x "}"%char [])
    end; [reflexivity|]. rewrite len_app. unfold len. cbn [length]. lia. }
  assert (Hfirst : deref text 0 = "{"%char) by (rewrite Htext; reflexivity).
  unfold from_string. cbn [position end_].
  rewrite Hfirst, Hlast. cbn [Ascii.eqb Bool.eqb negb].
  rewrite count_at by (pose proof (len_nonneg text); lia).
  rewrite Z.sub_0_r.
  assert (Hn_def : n = Z.to_nat (next_offset - offset)) by reflexivity.
  clearbody n. destruct n as [|n'].
  - (* a row without elements *)
    assert (Hz : next_offset - offset = 0) by lia.
    rewrite Htext. change (len ["{"%char; "}"%char]) with 2.
    cbn [Z.eqb Pos.eqb]. eexists. f_equal.
    cbn [insert_default]. rewrite Hz, !Z.add_0_r.
    change (Z.to_nat 0) with 0%nat. cbn [firstn]. rewrite !app_nil_r.
    now rewrite !to_size_t_small by assumption.
  - (* a row with elements *)
    assert (Hl : length l = S n')
      by (unfold l; now rewrite length_map, length_seq).
    pose proof (pairs_text_length ktok vtok true l) as Hlen.
    assert (Hmem : text = ["{"%char]
                            ++ pairs_text true
                                 (map (fun i => (ktok i, vtok i)) l)).
    { rewrite Htext. reflexivity. }
    assert (Hlt : len text
                  = 1 + len (pairs_text true
                               (map (fun i => (ktok i, vtok i)) l))).
    { rewrite Hmem at 1. rewrite len_app. reflexivity. }
    assert (Hn : len l = next_offset - offset)
      by (unfold len; rewrite Hl; lia).
    replace (len text =? 2) with false by (symmetry; apply Z.eqb_neq; lia).
    unfold advance. cbn [position end_].
    rewrite count_at by lia. change (0 + 1) with 1.
    pose proof (from_string_loop_reads_pairs
                  K V key_type_from_string value_type_from_string
                  ktok (slot_text key_is_null_at key_type_to_string keys)
                  vtok (slot_text value_is_null_at value_type_to_string values)
                  (fun i => nth (Z.to_nat i) keys dk)
                  (fun i => nth (Z.to_nat i) values dv)
                  l (Z.to_nat (len text - 1)) ["{"%char] true dest 0)
      as Hloop.
    rewrite <- Hmem in Hloop. change (len ["{"%char]) with 1 in Hloop.
    rewrite Hloop; [| |exact Hfit|unfold len in *; lia].
    + cbn [ok negb get_keys get_values get_data get_offsets].
      eexists. f_equal. rewrite Z.add_0_l, Hn.
      unfold l. rewrite !range_cells_from by (unfold len in *; lia).
      reflexivity.
    + intros i Hi. apply range_in in Hi.
      destruct (Helems i ltac:(lia)) as [Hrk [Hrv [Hkp Hvp]]].
      split; [now apply element_to_string_readable|].
      split; [now apply element_to_string_readable|]. now split.
Qed.

End RoundTrip.

(** *** to_string into a buffer *)

Lemma c_str_prefix_spec (s : list ascii) :
  (exists rest, s = c_str_prefix s ++ rest)
  /\ ~ In zero (c_str_prefix s)
  /\ (c_str_prefix s = s <-> ~ In zero s).
Proof.
  induction s as [|c s [[rest IH1] [IH2 IH3]]].
  - split; [now exists []|]. split; [intros []|]. split; auto.
  - cbn [c_str_prefix]. destruct (Ascii.eqb_spec c zero) as [->|Hc].
    + split; [now exists (zero :: s)|]. split; [intros []|].
      split; [discriminate|]. intros H. exfalso. apply H. now left.
    + split; [exists rest; cbn [app]; now rewrite <- IH1|].
      split; [intros [H|H]; [now apply Hc|now apply IH2]|].
      split.
      * intros H. injection H as H. intros [E|E]; [now apply Hc|].
        now apply IH3.
      * intros H. f_equal. apply IH3. intros E. apply H. now right.
Qed.

(** X19.  The overload of [to_string] that writes into a buffer appends
    the text of the row up to its first zero character: the whole text,
    closing brace included, exactly when the text has no zero character,
    and a proper prefix of it otherwise. *)
Theorem map_to_string_buffer_stops_at_zero
  (K V : Type)
  (key_is_null_at : list K -> Z -> bool)
  (key_is_string_or_fixed_string : bool)
  (key_type_to_string : list K -> Z -> list ascii)
  (value_is_null_at : list V -> Z -> bool)
  (value_is_string_or_fixed_string : bool)
  (value_type_to_string : list V -> Z -> list ascii)
  (column : ColumnMap K V) (row_num : Z) (ostr : list ascii) :
  let ss :=
    map_to_string key_is_null_at key_is_string_or_fixed_string
                  key_type_to_string value_is_null_at
                  value_is_string_or_fixed_string value_type_to_string
                  column row_num in
  let written :=
    map_to_string_buffer key_is_null_at key_is_string_or_fixed_string
                         key_type_to_string value_is_null_at
                         value_is_string_or_fixed_string value_type_to_string
                         column row_num ostr in
  (exists text rest, written = ostr ++ text /\ ss = text ++ rest
                     /\ ~ In zero text)
  /\ (written = ostr ++ ss <-> ~ In zero ss)
  /\ (In zero ss -> len written < len ostr + len ss).
Proof.
  intros ss written. unfold written, map_to_string_buffer. fold ss.
  destruct (c_str_prefix_spec ss) as [[rest Hrest] [Hno Hiff]].
  split; [|split].
  - exists (c_str_prefix ss), rest. now split.
  - split.
    + intros H. apply app_inv_head in H. now apply Hiff.
    + intros H. f_equal. now apply Hiff.
  - intros Hin. rewrite len_app.
    assert (Hne : rest <> []).
    { intros ->. rewrite app_nil_r in Hrest. apply Hno.
      now rewrite <- Hrest. }
    rewrite Hrest at 2. rewrite len_app.
    destruct rest; [congruence|]. unfold len. cbn [length]. lia.
Qed.

(** *** equals *)

Lemma equals_sym a : forall b, equals a b = equals b a.
Proof.
  induction a as [x|a IH|a IH|k1 _ v1 _ ks1 IHk vs1 IHv];
    intros [y|b|b|k2 v2 ks2 vs2]; cbn [equals]; try reflexivity.
  - apply Z.eqb_sym.
  - apply IH.
  - apply IH.
  - now rewrite (IHk ks2), (IHv vs2).
Qed.

Lemma equals_trans a : forall b c,
  equals a b = true -> equals b c = true -> equals a c = true.
Proof.
  induction a as [x|a IH|a IH|k1 _ v1 _ ks1 IHk vs1 IHv];
    intros [y|b|b|k2 v2 ks2 vs2] [z|c|c|k3 v3 ks3 vs3]; cbn [equals];
    try discriminate; try (intros H1 H2; exact (IH _ _ H1 H2)).
  - intros H1 H2. apply Z.eqb_eq in H1, H2. apply Z.eqb_eq. congruence.
  - intros H1 H2.
    destruct (equals ks1 ks2) eqn:E1; [|discriminate].
    destruct (equals vs1 vs2) eqn:E2; [|discriminate].
    destruct (equals ks2 ks3) eqn:E3; [|discriminate].
    destruct (equals vs2 vs3) eqn:E4; [|discriminate].
    now rewrite (IHk _ _ E1 E3), (IHv _ _ E2 E4).
Qed.

(** X20.  [equals] is an equivalence on type objects when the nested
    types compare structurally: every type equals itself, the result does
    not depend on which of the two types is asked, and two types equal to
    a third are equal.  For Map types this is the code of
    [DataTypeMap::equals]: the [typeid] test and the two nested
    comparisons. *)
Theorem equals_is_an_equivalence :
  (forall a, equals a a = true)
  /\ (forall a b, equals a b = equals b a)
  /\ (forall a b c,
         equals a b = true -> equals b c = true -> equals a c = true)
  /\ (forall k v k' v',
         equals (DataTypeMap k v) (DataTypeMap k' v')
         = equals (DataTypeMap k' v') (DataTypeMap k v)).
Proof.
  split; [exact equals_refl|]. split; [intros a b; apply equals_sym|].
  split; [intros a b c; apply equals_trans|].
  intros k v k' v'. apply equals_sym.
Qed.

(** *** Concrete texts *)

Lemma next_slot_from_string_token_witness :
  let mem := list_ascii_of_string " 'a' : 1}" in
  let '(read, rb', element) :=
    next_slot_from_string mem (mkReadBuffer 0 9) (mkStringRef 0 0) in
  if read then
    0 <= data element /\ 0 <= size element
    /\ data element + size element < position rb'
    /\ position rb' <= 9 /\ end_ rb' = 9
    /\ (let c := deref mem (position rb' - 1) in
        c = ":"%char \/ c = ","%char
        \/ (c = "}"%char /\ position rb' = 9))
  else
    element = mkStringRef 0 0 /\ 0 <= position rb' <= 9
    /\ end_ rb' = 9.
Proof.
  apply (next_slot_from_string_token
           (list_ascii_of_string " 'a' : 1}") (mkReadBuffer 0 9)
           (mkStringRef 0 0)).
  unfold window. cbn [position end_]. lia.
Defined.

Lemma text_from_string_appends slot col st col' :
  text_from_string slot col = (st, col') -> ok st = true ->
  exists cell, col' = col ++ [cell].
Proof. intros H _. injection H as _ <-. eexists. reflexivity. Qed.

Lemma from_string_ok_appends_one_row_witness :
  exists ks vs,
    get_data (get_keys
                (snd (parse_map text_from_string "{'a':1, 'b' : 20}")))
    = [] ++ ks
    /\ get_data (get_values
                   (snd (parse_map text_from_string "{'a':1, 'b' : 20}")))
       = [] ++ vs
    /\ length ks = length vs.
Proof.
  destruct (from_string_ok_appends_one_row
              string string text_from_string text_from_string
              text_from_string_appends text_from_string_appends
              (list_ascii_of_string "{'a':1, 'b' : 20}")
              (mkReadBuffer 0 17) empty_map
              (snd (fst (parse_map text_from_string "{'a':1, 'b' : 20}")))
              (snd (parse_map text_from_string "{'a':1, 'b' : 20}")))
    as [ks [vs [Hk [Hv [Hl _]]]]].
  - unfold window. cbn [position end_]. lia.
  - reflexivity.
  - cbn. lia.
  - cbn. lia.
  - reflexivity.
  - exists ks, vs. split; [exact Hk|]. split; [exact Hv|exact Hl].
Defined.

Lemma map_to_string_from_string_round_trip_witness :
  exists rb',
    from_string
      text_from_string text_from_string
      (map_to_string
         text_is_null_at true text_to_string
         text_is_null_at true text_to_string
         (mkColumnMap
            (mkColumnArray ["k"%string; "a b"%string; "c"%string] [1; 3])
            (mkColumnArray ["1"%string; "20"%string; "x:y"%string] [1; 3]))
         1)
      (mkReadBuffer
         0
         (len (map_to_string
                 text_is_null_at true text_to_string
                 text_is_null_at true text_to_string
                 (mkColumnMap
                    (mkColumnArray ["k"%string; "a b"%string; "c"%string]
                                   [1; 3])
                    (mkColumnArray ["1"%string; "20"%string; "x:y"%string]
                                   [1; 3]))
                 1)))
      empty_map
    = (OK, rb',
       mkColumnMap (mkColumnArray ["a b"%string; "c"%string] [2])
                   (mkColumnArray ["20"%string; "x:y"%string] [2])).
Proof.
  apply (map_to_string_from_string_round_trip
           string string text_is_null_at true text_to_string
           text_is_null_at true text_to_string
           text_from_string text_from_string
           (mkColumnMap
              (mkColumnArray ["k"%string; "a b"%string; "c"%string] [1; 3])
              (mkColumnArray ["1"%string; "20"%string; "x:y"%string] [1; 3]))
           empty_map 1 EmptyString EmptyString).
  - vm_compute. split; discriminate.
  - vm_compute. discriminate.
  - vm_compute. discriminate.
  - intros i Hi.
    assert (Hcases : i = 1 \/ i = 2) by (change (1 <= i < 3) in Hi; lia).
    destruct Hcases as [->| ->]; repeat split; intros; reflexivity.
  - vm_compute. reflexivity.
  - vm_compute. split; [discriminate|reflexivity].
  - vm_compute. split; [discriminate|reflexivity].
Defined.



Lemma next_slot_from_string_rejects_witness :
  next_slot_from_string (list_ascii_of_string " 'ab:1}") (mkReadBuffer 0 7)
                        (mkStringRef 0 7)
  = (false, mkReadBuffer 7 7, mkStringRef 0 7).
Proof.
  apply (next_slot_from_string_rejects
           (list_ascii_of_string " 'ab:1}") 7 0 [] [" "%char]
           (list_ascii_of_string "'ab:1}") (mkStringRef 0 7)).
  - reflexivity.
  - reflexivity.
  - reflexivity.
  - reflexivity.
  - reflexivity.
  - left. exists "'"%char, (list_ascii_of_string "ab:1}").
    split; [reflexivity|]. split; reflexivity.
Defined.

End DataTypeMapMore.
